(** * ok-circuit2: the MNA circuit solver, its transient driver and the editor

    A shallow embedding of [utils/solver.ts] ([solveCircuit],
    [gaussianElimination]), of the physics loop and the state handlers of
    [App.tsx], and of the mouse handlers of [components/CircuitCanvas.tsx].

    Numbers are JavaScript numbers, that is IEEE-754 binary64 values: they are
    modelled by Rocq's primitive floats.  Optional properties ([resistance?],
    [prevCurrent?], ...) are [option]s, [None] standing for [undefined].
    JavaScript [Map]s and [Set]s keyed by strings or node indices are finite
    maps and sets.

    The matrix [A], the vectors [Z], [x] and the working copy [M] are dense
    arrays of a fixed shape.  An access outside an array is where JavaScript
    either throws a [TypeError] (a missing row) or silently grows the array and
    feeds [undefined] into the arithmetic; the embedding reports every such
    access as [None], so a result [Some _] certifies that neither happened.
    Where the source itself guards a lookup with [|| 0], the embedding does
    the same and the lookup cannot fail.

    [Math.hypot], which ECMAScript leaves implementation-approximated, is a
    parameter of the development.

    The handlers of the editor are functions from the element list they are
    applied to ([prev] of [setComponents(prev => ...)]) to the next one.  What
    they take from outside is an argument: the id drawn from [Math.random],
    the pointer position, and the deep copy the drop handler makes through
    JSON.

    The last part of the definitions lays [solveCircuit] out over a heap of
    objects, to state what the call does to the objects it is handed. *)

From Stdlib Require Import Floats.
From stdpp Require Import gmap strings list fin_maps option.

Set Warnings "-inexact-float".
Local Open Scope float_scope.
Local Open Scope stdpp_scope.

(** ** JavaScript numbers *)

Abbreviation number := float.

(** [ToBoolean] of a number: [+0], [-0] and [NaN] are falsy. *)
Definition truthy (v : number) : bool :=
  negb (PrimFloat.eqb v 0 || PrimFloat.is_nan v).

(** [v || d] where [v] is a possibly [undefined] number. *)
Definition orNum (v : option number) (d : number) : number :=
  match v with
  | Some n => if truthy n then n else d
  | None => d
  end.

(** [a > b], [a < b] and [a !== b] on numbers. *)
Definition gt (a b : number) : bool := PrimFloat.ltb b a.
Definition lt (a b : number) : bool := PrimFloat.ltb a b.
Definition strictNe (a b : number) : bool := negb (PrimFloat.eqb a b).

(** ** The data model of [types.ts] *)

Inductive ComponentType :=
  | WIRE | RESISTOR | BATTERY | LIGHTBULB | SWITCH
  | VOLTMETER | AMMETER | CAPACITOR | INDUCTOR.

#[global] Instance ComponentType_eq_dec : EqDecision ComponentType.
Proof. solve_decision. Defined.

Record Point := mkPoint {
  pt_x : number;
  pt_y : number;
  pt_id : string
}.

Record Properties := mkProperties {
  resistance : option number;
  voltage : option number;
  isOpen : option bool;
  capacitance : option number;
  inductance : option number
}.

Record CircuitComponent := mkComponent {
  c_id : string;
  c_type : ComponentType;
  p1 : Point;
  p2 : Point;
  properties : Properties;
  current : number;
  voltageDrop : number;
  p1Potential : number;
  p2Potential : number;
  prevCurrent : option number;
  prevP1Potential : option number;
  prevP2Potential : option number
}.

Record SolverResult := mkResult {
  pointPotentials : gmap string number;
  componentCurrents : gmap string number
}.

(** [comp.type === T] *)
Definition isType (c : CircuitComponent) (t : ComponentType) : bool :=
  bool_decide (c_type c = t).

(** ** Constants of the solver *)

Definition EPSILON_RESISTANCE : number := 1e-6.
Definition INFINITE_RESISTANCE : number := 1e9.
Definition SNAP_DISTANCE : number := 10.

(** ** Dense arrays of fixed shape *)

Abbreviation vector := (list number).
Abbreviation matrix := (list (list number)).

(** [Array(n).fill(0)] and [Array(n).fill(0).map(() => Array(n).fill(0))] *)
Definition zeroVector (n : nat) : vector := replicate n 0.
Definition zeroMatrix (n : nat) : matrix := replicate n (zeroVector n).

(** [v[i]] *)
Definition vget (v : vector) (i : nat) : option number := v !! i.

(** [v[i] = f(v[i])] *)
Definition vupd (v : vector) (i : nat) (f : number → number) : option vector :=
  a ← v !! i; Some (<[i := f a]> v).

(** [A[i][j]] *)
Definition mget (A : matrix) (i j : nat) : option number :=
  row ← A !! i; row !! j.

(** [A[i][j] = f(A[i][j])] *)
Definition mupd (A : matrix) (i j : nat) (f : number → number) : option matrix :=
  row ← A !! i; row' ← vupd row j f; Some (<[i := row']> A).

(** A [forEach] or [for] loop whose body may fail, over the items [l]. *)
Fixpoint foldM {S X : Type} (body : S → X → option S) (s : S) (l : list X)
  : option S :=
  match l with
  | [] => Some s
  | a :: l' => s' ← body s a; foldM body s' l'
  end.

(** [for (let k = lo; k < hi; k++)] visits [range lo hi]. *)
Definition range (lo hi : nat) : list nat := seq lo (hi - lo).

(** ** 1. Identify nodes *)

(** An entry of [points]: [{ ...c.p1, compId: c.id }]. *)
Record TerminalRef := mkTerminalRef {
  t_id : string;
  t_x : number;
  t_y : number;
  t_compId : string
}.

Definition terminalOf (p : Point) (compId : string) : TerminalRef :=
  mkTerminalRef (pt_id p) (pt_x p) (pt_y p) compId.

(** [components.forEach(c => { points.push(p1 of c); points.push(p2 of c) })] *)
Definition pointsOf (components : list CircuitComponent) : list TerminalRef :=
  flat_map (λ c, [terminalOf (p1 c) (c_id c); terminalOf (p2 c) (c_id c)])
           components.

(** The mutable variables of the node-identification loop. *)
Record Topology := mkTopology {
  pointToNode : gmap string nat;
  nodeLocations : list (option (number * number));
  nodeCount : nat;
  assignedPoints : gset string
}.

Definition emptyTopology : Topology := mkTopology ∅ [] 0 ∅.

(** [arr[i] = v] on a JavaScript array that may grow: a write past the end
    leaves holes ([None]) in between. *)
Definition storeAt {X : Type} (arr : list (option X)) (i : nat) (v : X)
  : list (option X) :=
  if bool_decide (i < length arr)%nat then <[i := Some v]> arr
  else arr ++ replicate (i - length arr) None ++ [Some v].

(** ** The JavaScript heap

    Every object that exists at run time is a heap cell, addressed by a
    reference. *)

Abbreviation loc := positive.

(** A [CircuitComponent] object: [p1], [p2] and [properties] are references
    to further objects. *)
Record ComponentObject := mkComponentObject {
  o_id : string;
  o_type : ComponentType;
  o_p1 : loc;
  o_p2 : loc;
  o_properties : loc;
  o_current : number;
  o_voltageDrop : number;
  o_p1Potential : number;
  o_p2Potential : number;
  o_prevCurrent : option number;
  o_prevP1Potential : option number;
  o_prevP2Potential : option number
}.

Inductive object :=
  | OComponents (refs : list loc)      (* a [CircuitComponent[]] *)
  | OComponent (c : ComponentObject)
  | OPoint (p : Point)
  | OProperties (p : Properties)
  | OTerminals (refs : list loc)       (* [points] *)
  | OTerminal (t : TerminalRef)        (* an entry of [points] *)
  | ONodeMap (m : gmap string nat)     (* [pointToNode] *)
  | OLocations (l : list (option (number * number)))  (* [nodeLocations] *)
  | OIdSet (s : gset string)           (* [assignedPoints] *)
  | OMatrix (M : matrix)               (* [A], [M] *)
  | OVector (v : vector)               (* [Z], [x], [result] *)
  | OPotentials (m : gmap nat number)  (* [nodePotentials] *)
  | ONumberMap (m : gmap string number). (* the two result maps *)

Abbreviation heap := (gmap loc object).

(** *** Reading the input through its references *)

Definition readPoint (h : heap) (l : loc) : option Point :=
  match h !! l with Some (OPoint p) => Some p | _ => None end.

Definition readProperties (h : heap) (l : loc) : option Properties :=
  match h !! l with Some (OProperties p) => Some p | _ => None end.

Definition readComponent (h : heap) (l : loc) : option CircuitComponent :=
  match h !! l with
  | Some (OComponent o) =>
      p1 ← readPoint h (o_p1 o);
      p2 ← readPoint h (o_p2 o);
      props ← readProperties h (o_properties o);
      Some (mkComponent (o_id o) (o_type o) p1 p2 props
              (o_current o) (o_voltageDrop o) (o_p1Potential o) (o_p2Potential o)
              (o_prevCurrent o) (o_prevP1Potential o) (o_prevP2Potential o))
  | _ => None
  end.

Definition readRefs (h : heap) (a : loc) : option (list loc) :=
  match h !! a with Some (OComponents refs) => Some refs | _ => None end.

(** The element list behind the array reference [a]. *)
Definition readComponents (h : heap) (a : loc)
  : option (list CircuitComponent) :=
  refs ← readRefs h a; mapM (readComponent h) refs.

Definition readMatrix (h : heap) (l : loc) : option matrix :=
  match h !! l with Some (OMatrix M) => Some M | _ => None end.

Definition readVector (h : heap) (l : loc) : option vector :=
  match h !! l with Some (OVector v) => Some v | _ => None end.

(** *** Heap computations *)

Definition Heap (X : Type) : Type := heap → option (X * heap).

#[global] Instance Heap_ret : MRet Heap := λ X x h, Some (x, h).
#[global] Instance Heap_bind : MBind Heap := λ X Y k c h,
  match c h with
  | Some (x, h') => k x h'
  | None => None
  end.

(** A new object: a cell the heap did not have. *)
Definition alloc (o : object) : Heap loc :=
  λ h, let l := fresh (dom h) in Some (l, <[l := o]> h).

(** An in-place update: the cell at [l] is overwritten, whichever it is. *)
Definition store (l : loc) (o : object) : Heap unit :=
  λ h, Some (tt, <[l := o]> h).

(** A read. *)
Definition view {X : Type} (f : heap → option X) : Heap X :=
  λ h, match f h with Some x => Some (x, h) | None => None end.

(** A computation on values already read. *)
Definition lift {X : Type} (o : option X) : Heap X := view (λ _, o).

Fixpoint allocAll (os : list object) : Heap (list loc) :=
  match os with
  | [] => mret []
  | o :: os' => l ← alloc o; ls ← allocAll os'; mret (l :: ls)
  end.

(** The references [components.filter(c => c.type === BATTERY)] keeps:
    the new array shares the element objects with the input. *)
Definition batteryRefs (refs : list loc) (comps : list CircuitComponent)
  : list loc :=
  (filter (λ rc, c_type rc.2 = BATTERY) (zip refs comps)).*1.

(** A node index read from [pointToNode.get(id)!]: [None] is [undefined]. *)
Abbreviation nodeRef := (option nat).

(** The node of a terminal id in a topology. *)
Abbreviation nodeOf st id := (pointToNode st !! id).

Section Solver.

(** [Math.hypot] is implementation-approximated in ECMAScript; the solver is
    verified for any implementation of it. *)
Variable hypot : number → number → number.

(** [Math.hypot(a.x - b.x, a.y - b.y) < SNAP_DISTANCE] *)
Definition snaps (a b : TerminalRef) : bool :=
  lt (hypot (t_x a - t_x b) (t_y a - t_y b)) SNAP_DISTANCE.

(** The inner loop [for (j = i + 1; ...)]: [rep] is [points[i]], [rest] the
    terminals after it. *)
Fixpoint absorb (rep : TerminalRef) (nodeId : nat) (rest : list TerminalRef)
    (st : Topology) : Topology :=
  match rest with
  | [] => st
  | q :: rest' =>
      if bool_decide (t_id q ∈ assignedPoints st) then absorb rep nodeId rest' st
      else if snaps rep q then
        absorb rep nodeId rest'
          (mkTopology (<[t_id q := nodeId]> (pointToNode st))
                      (nodeLocations st) (nodeCount st)
                      ({[t_id q]} ∪ assignedPoints st))
      else absorb rep nodeId rest' st
  end.

(** The body of the outer loop up to the inner loop: start a new node. *)
Definition openNode (p : TerminalRef) (st : Topology) : Topology :=
  let nodeId := nodeCount st in
  mkTopology (<[t_id p := nodeId]> (pointToNode st))
             (storeAt (nodeLocations st) nodeId (t_x p, t_y p))
             (S (nodeCount st))
             ({[t_id p]} ∪ assignedPoints st).

(** One iteration of the outer loop at [p = points[i]], [rest] being
    [points[i+1..]]. *)
Definition visit (p : TerminalRef) (rest : list TerminalRef) (st : Topology)
  : Topology :=
  if bool_decide (t_id p ∈ assignedPoints st) then st
  else absorb p (nodeCount st) rest (openNode p st).

(** The outer loop [for (i = 0; i < points.length; i++)]. *)
Fixpoint identifyNodes (points : list TerminalRef) (st : Topology) : Topology :=
  match points with
  | [] => st
  | p :: rest => identifyNodes rest (visit p rest st)
  end.

Definition resolveTopology (components : list CircuitComponent) : Topology :=
  identifyNodes (pointsOf components) emptyTopology.

(** ** 2. Build the MNA system *)

(** [n > 0] ([undefined > 0] is false) *)
Definition isNonGround (n : nodeRef) : bool :=
  match n with Some k => bool_decide (0 < k)%nat | None => false end.

(** [n - 1], only ever evaluated under [n > 0] *)
Definition rowOf (n : nodeRef) : nat :=
  match n with Some k => Nat.pred k | None => 0%nat end.

(** [components.filter(c => c.type === ComponentType.BATTERY)] *)
Definition voltageSources (components : list CircuitComponent)
  : list CircuitComponent :=
  filter (λ c, c_type c = BATTERY) components.

(** [(nodeCount - 1) + voltageSources.length]; past the [nodeCount === 0]
    guard [nodeCount - 1] is a natural number. *)
Definition mSize (nodeCount : nat) (components : list CircuitComponent) : nat :=
  ((nodeCount - 1) + length (voltageSources components))%nat.

Definition addConductance (n1 n2 : nodeRef) (g : number) (A : matrix)
  : option matrix :=
  A1 ← (if isNonGround n1 then mupd A (rowOf n1) (rowOf n1) (λ a, a + g)
        else Some A);
  A2 ← (if isNonGround n2 then mupd A1 (rowOf n2) (rowOf n2) (λ a, a + g)
        else Some A1);
  if isNonGround n1 && isNonGround n2 then
    A3 ← mupd A2 (rowOf n1) (rowOf n2) (λ a, a - g);
    mupd A3 (rowOf n2) (rowOf n1) (λ a, a - g)
  else Some A2.

Definition addCurrentSource (n1 n2 : nodeRef) (i : number) (Z : vector)
  : option vector :=
  Z1 ← (if isNonGround n1 then vupd Z (rowOf n1) (λ a, a - i) else Some Z);
  if isNonGround n2 then vupd Z1 (rowOf n2) (λ a, a + i) else Some Z1.

(** [comp.properties.isOpen ? INFINITE_RESISTANCE : EPSILON_RESISTANCE] *)
Definition switchResistance (c : CircuitComponent) : number :=
  match isOpen (properties c) with
  | Some true => INFINITE_RESISTANCE
  | _ => EPSILON_RESISTANCE
  end.

(** [(comp.prevP1Potential || 0) - (comp.prevP2Potential || 0)] *)
Definition vOld (c : CircuitComponent) : number :=
  orNum (prevP1Potential c) 0 - orNum (prevP2Potential c) 0.

(** The [if / else if] chain of the assembly loop: the pair
    [(conductance, currentSource)], both initialised to [0]. *)
Definition nortonModel (c : CircuitComponent) (dt : number) : number * number :=
  match c_type c with
  | RESISTOR | LIGHTBULB => (1 / orNum (resistance (properties c)) 10, 0)
  | SWITCH => (1 / switchResistance c, 0)
  | WIRE | AMMETER => (1 / EPSILON_RESISTANCE, 0)
  | VOLTMETER => (1 / INFINITE_RESISTANCE, 0)
  | CAPACITOR =>
      let C := orNum (capacitance (properties c)) 0.0001 in
      if gt dt 0 then
        let conductance := C / dt in
        (conductance, (- conductance) * vOld c)
      else (1 / INFINITE_RESISTANCE, 0)
  | INDUCTOR =>
      let L := orNum (inductance (properties c)) 1 in
      if gt dt 0 then (dt / L, orNum (prevCurrent c) 0)
      else (1 / EPSILON_RESISTANCE, 0)
  | BATTERY => (0, 0)
  end.

(** [addConductance(n1, n2, conductance);
     if (currentSource !== 0) addCurrentSource(n1, n2, currentSource)] *)
Definition stampNorton (n1 n2 : nodeRef) (conductance currentSource : number)
    (s : matrix * vector) : option (matrix * vector) :=
  let '(A, Z) := s in
  A' ← addConductance n1 n2 conductance A;
  if strictNe currentSource 0 then
    Z' ← addCurrentSource n1 n2 currentSource Z; Some (A', Z')
  else Some (A', Z).

(** The body of [components.forEach(comp => ...)] that fills the matrix. *)
Definition stampComponent (p2n : gmap string nat) (dt : number)
    (s : matrix * vector) (comp : CircuitComponent) : option (matrix * vector) :=
  let '(A, Z) := s in
  if isType comp BATTERY then Some (A, Z)
  else
    let n1 := p2n !! pt_id (p1 comp) in
    let n2 := p2n !! pt_id (p2 comp) in
    if bool_decide (n1 = n2) then Some (A, Z)
    else
      let '(conductance, currentSource) := nortonModel comp dt in
      stampNorton n1 n2 conductance currentSource (A, Z).

(** [A[i][j] = v] and [Z[i] = v] *)
Definition mset (A : matrix) (i j : nat) (v : number) : option matrix :=
  mupd A i j (λ _, v).
Definition vset (Z : vector) (i : nat) (v : number) : option vector :=
  vupd Z i (λ _, v).

(** The body of [voltageSources.forEach((comp, idx) => ...)]. *)
Definition stampVoltageSource (p2n : gmap string nat) (nodeCount : nat)
    (s : matrix * vector) (idx : nat) (comp : CircuitComponent)
  : option (matrix * vector) :=
  let '(A, Z) := s in
  let n1 := p2n !! pt_id (p1 comp) in
  let n2 := p2n !! pt_id (p2 comp) in
  let vIndex := ((nodeCount - 1) + idx)%nat in
  A1 ← (if isNonGround n1 then
          A' ← mset A vIndex (rowOf n1) 1; mset A' (rowOf n1) vIndex 1
        else Some A);
  A2 ← (if isNonGround n2 then
          A' ← mset A1 vIndex (rowOf n2) (-1); mset A' (rowOf n2) vIndex (-1)
        else Some A1);
  Z' ← vset Z vIndex (orNum (voltage (properties comp)) 9);
  Some (A2, Z').

(** [forEach((item, idx) => ...)] with a body that may fail. *)
Fixpoint foldMi {S X : Type} (body : S → nat → X → option S) (idx : nat)
    (s : S) (l : list X) : option S :=
  match l with
  | [] => Some s
  | a :: l' => s' ← body s idx a; foldMi body (Datatypes.S idx) s' l'
  end.

(** Step 2 as a whole: the system [(A, Z)] handed to the linear solver. *)
Definition assemble (p2n : gmap string nat) (nodeCount : nat) (dt : number)
    (components : list CircuitComponent) : option (matrix * vector) :=
  let m := mSize nodeCount components in
  s ← foldM (stampComponent p2n dt) (zeroMatrix m, zeroVector m) components;
  foldMi (stampVoltageSource p2n nodeCount) 0 s (voltageSources components).

(** ** 3. Solve the linear system *)

Definition TOLERANCE : number := 1e-10.

(** One comparison of the pivot search. *)
Definition pivotStep (M : matrix) (i : nat) (maxRow k : nat) : option nat :=
  a ← mget M k i; b ← mget M maxRow i;
  Some (if gt (PrimFloat.abs a) (PrimFloat.abs b) then k else maxRow).

Definition findPivot (M : matrix) (i n : nat) : option nat :=
  foldM (pivotStep M i) i (range (S i) n).

(** [[l[i], l[j]] = [l[j], l[i]]] *)
Definition swap {X : Type} (l : list X) (i j : nat) : option (list X) :=
  a ← l !! i; b ← l !! j; Some (<[j := a]> (<[i := b]> l)).

(** [for (j = i; j < n; j++) M[k][j] -= factor * M[i][j]] *)
Definition eliminateEntry (i k : nat) (factor : number) (M : matrix) (j : nat)
  : option matrix :=
  mij ← mget M i j; mupd M k j (λ a, a - factor * mij).

(** The body of [for (k = i + 1; k < n; k++)]. *)
Definition eliminateRow (i n : nat) (s : matrix * vector) (k : nat)
  : option (matrix * vector) :=
  let '(M, x) := s in
  mki ← mget M k i; mii ← mget M i i;
  let factor := mki / mii in
  xi ← vget x i;
  x' ← vupd x k (λ a, a - factor * xi);
  M' ← foldM (eliminateEntry i k factor) M (range i n);
  Some (M', x').

(** The row exchange of column [i]. *)
Definition exchange (n : nat) (s : matrix * vector) (i : nat)
  : option (matrix * vector) :=
  let '(M, x) := s in
  maxRow ← findPivot M i n;
  M1 ← swap M i maxRow; x1 ← swap x i maxRow;
  Some (M1, x1).

(** The body of the forward loop [for (i = 0; i < n; i++)]. *)
Definition eliminateColumn (n : nat) (s : matrix * vector) (i : nat)
  : option (matrix * vector) :=
  s1 ← exchange n s i;
  mii ← mget s1.1 i i;
  if lt (PrimFloat.abs mii) TOLERANCE then Some s1
  else foldM (eliminateRow i n) s1 (range (S i) n).

Definition forwardElimination (n : nat) (A : matrix) (b : vector)
  : option (matrix * vector) :=
  foldM (eliminateColumn n) (A, b) (range 0 n).

(** [for (j = i + 1; j < n; j++) sum += M[i][j] * result[j]] *)
Definition dotStep (M : matrix) (result : vector) (i : nat) (sum : number)
    (j : nat) : option number :=
  mij ← mget M i j; rj ← vget result j; Some (sum + mij * rj).

(** The body of the backward loop [for (i = n - 1; i >= 0; i--)]. *)
Definition backStep (n : nat) (M : matrix) (x : vector) (result : vector)
    (i : nat) : option vector :=
  sum ← foldM (dotStep M result i) 0 (range (S i) n);
  mii ← mget M i i;
  if gt (PrimFloat.abs mii) TOLERANCE then
    xi ← vget x i; vset result i ((xi - sum) / mii)
  else Some result.

Definition backSubstitution (n : nat) (M : matrix) (x : vector)
  : option vector :=
  foldM (backStep n M x) (zeroVector n) (rev (range 0 n)).

Definition gaussianElimination (A : matrix) (b : vector) : option vector :=
  let n := length A in
  if bool_decide (n = 0%nat) then Some []
  else
    '(M, x) ← forwardElimination n A b;
    backSubstitution n M x.

(** ** 4. Extract results *)

(** [nodePotentials.set(0, 0)] followed by
    [for (i = 0; i < nodeCount - 1; i++) nodePotentials.set(i + 1, x[i] || 0)] *)
Definition nodePotentialsOf (nodeCount : nat) (x : vector) : gmap nat number :=
  foldl (λ m i, <[S i := orNum (x !! i) 0]> m) {[ 0%nat := 0 ]}
        (range 0 (nodeCount - 1)).

(** [nodePotentials.get(n) || 0] *)
Definition potentialAt (np : gmap nat number) (n : nodeRef) : number :=
  orNum (k ← n; np !! k) 0.

(** The body of the loop that fills [pointPotentials]. *)
Definition recordPotentials (p2n : gmap string nat) (np : gmap nat number)
    (pp : gmap string number) (c : CircuitComponent) : gmap string number :=
  let n1 := p2n !! pt_id (p1 c) in
  let n2 := p2n !! pt_id (p2 c) in
  <[pt_id (p2 c) := potentialAt np n2]>
    (<[pt_id (p1 c) := potentialAt np n1]> pp).

(** [voltageSources.findIndex(v => v.id === comp.id)]; [None] is [-1]. *)
Definition findIndex (vs : list CircuitComponent) (id : string) : option nat :=
  fst <$> list_find (λ v, c_id v = id) vs.

(** The resistance of the last [else] branch of the current loop. *)
Definition effectiveResistance (c : CircuitComponent) : number :=
  match c_type c with
  | RESISTOR | LIGHTBULB => orNum (resistance (properties c)) 10
  | SWITCH => switchResistance c
  | VOLTMETER => INFINITE_RESISTANCE
  | _ => EPSILON_RESISTANCE
  end.

(** The value the current loop stores for [comp], [None] when it stores
    nothing ([findIndex] returned [-1]). *)
Definition elementCurrent (nodeCount : nat) (dt : number)
    (vs : list CircuitComponent) (x : vector) (v1 v2 : number)
    (comp : CircuitComponent) : option number :=
  match c_type comp with
  | BATTERY =>
      voltageSourceIndex ← findIndex vs (c_id comp);
      Some (orNum (x !! ((nodeCount - 1) + voltageSourceIndex)%nat) 0)
  | CAPACITOR =>
      if gt dt 0 then
        let C := orNum (capacitance (properties comp)) 0.0001 in
        Some ((C / dt) * ((v1 - v2) - vOld comp))
      else Some 0
  | INDUCTOR =>
      if gt dt 0 then
        let L := orNum (inductance (properties comp)) 1 in
        let iOld := orNum (prevCurrent comp) 0 in
        Some (iOld + (v1 - v2) * (dt / L))
      else Some ((v1 - v2) / EPSILON_RESISTANCE)
  | _ => Some ((v1 - v2) / effectiveResistance comp)
  end.

(** The body of the loop that fills [componentCurrents]. *)
Definition recordCurrent (p2n : gmap string nat) (np : gmap nat number)
    (nodeCount : nat) (dt : number) (vs : list CircuitComponent) (x : vector)
    (cc : gmap string number) (comp : CircuitComponent) : gmap string number :=
  let n1 := p2n !! pt_id (p1 comp) in
  let n2 := p2n !! pt_id (p2 comp) in
  let v1 := potentialAt np n1 in
  let v2 := potentialAt np n2 in
  match elementCurrent nodeCount dt vs x v1 v2 comp with
  | Some i => <[c_id comp := i]> cc
  | None => cc
  end.

(** Step 4 as a whole. *)
Definition extract (p2n : gmap string nat) (nodeCount : nat) (dt : number)
    (components : list CircuitComponent) (x : vector) : SolverResult :=
  let np := nodePotentialsOf nodeCount x in
  mkResult
    (foldl (recordPotentials p2n np) ∅ components)
    (foldl (recordCurrent p2n np nodeCount dt (voltageSources components) x)
           ∅ components).

(** ** The solver *)

(** The value of [dt] when the caller passes none; the driver always passes
    [SIMULATION_DT]. *)
Definition DEFAULT_DT : number := 0.1.

Definition solveCircuit (components : list CircuitComponent) (dt : number)
  : option SolverResult :=
  let topo := resolveTopology components in
  if bool_decide (nodeCount topo = 0%nat) then Some (mkResult ∅ ∅)
  else
    '(A, Z) ← assemble (pointToNode topo) (nodeCount topo) dt components;
    x ← gaussianElimination A Z;
    Some (extract (pointToNode topo) (nodeCount topo) dt components x).

(** ** The transient driver ([App.tsx], the physics loop) *)

Definition SIMULATION_DT : number := 0.05.

(** [drop] of the loop body. *)
Definition dropOf (c : CircuitComponent) (newCurrent p1V p2V : number) : number :=
  match c_type c with
  | BATTERY => orNum (voltage (properties c)) 0
  | VOLTMETER | CAPACITOR | INDUCTOR => p1V - p2V
  | WIRE | SWITCH | AMMETER => 0
  | _ => newCurrent * orNum (resistance (properties c)) 0
  end.

(** The callback of [currentComps.map(c => ...)]. *)
Definition updateComponent (r : SolverResult) (c : CircuitComponent)
  : CircuitComponent :=
  let newCurrent := orNum (componentCurrents r !! c_id c) 0 in
  let p1V := orNum (pointPotentials r !! pt_id (p1 c)) 0 in
  let p2V := orNum (pointPotentials r !! pt_id (p2 c)) 0 in
  let drop := dropOf c newCurrent p1V p2V in
  mkComponent (c_id c) (c_type c) (p1 c) (p2 c) (properties c)
              newCurrent drop p1V p2V
              (Some newCurrent) (Some p1V) (Some p2V).

Definition CHANGE_THRESHOLD : number := 0.0001.

(** The callback of [nextComps.some((c, i) => ...)], [old] being
    [currentComps[i]]. *)
Definition differs (c old : CircuitComponent) : bool :=
  gt (PrimFloat.abs (current c - current old)) CHANGE_THRESHOLD
  || gt (PrimFloat.abs (voltageDrop c - voltageDrop old)) CHANGE_THRESHOLD.

Definition hasChanged (nextComps currentComps : list CircuitComponent) : bool :=
  existsb (λ '(c, old), differs c old) (zip nextComps currentComps).

(** [nextComps] of one run of [loop]. *)
Definition nextComponents (currentComps : list CircuitComponent)
  : option (list CircuitComponent) :=
  r ← solveCircuit currentComps SIMULATION_DT;
  Some (map (updateComponent r) currentComps).

(** One run of [loop] on the element list held by [componentsRef]: the list
    it leaves there and whether [setComponents] was called. *)
Definition tick (currentComps : list CircuitComponent)
  : option (list CircuitComponent * bool) :=
  nextComps ← nextComponents currentComps;
  if hasChanged nextComps currentComps then Some (nextComps, true)
  else Some (currentComps, false).

(** [k] consecutive runs of [loop], the element list being changed by the
    loop alone: the list left in [componentsRef] and, per run, whether it
    committed. *)
Fixpoint run (k : nat) (comps : list CircuitComponent)
  : option (list CircuitComponent * list bool) :=
  match k with
  | O => Some (comps, [])
  | S k' =>
      '(comps1, committed) ← tick comps;
      '(comps2, log) ← run k' comps1;
      Some (comps2, committed :: log)
  end.

(** ** The editor ([App.tsx], the state handlers)

    The handlers update the element list through [setComponents(prev => ...)];
    each is the function from [prev] to the next list. *)

(** [components.length] as a number; an array length is below [2^32]. *)
Definition lengthOf {X : Type} (l : list X) : number :=
  PrimFloat.of_uint63 (Uint63.of_Z (Z.of_nat (length l))).

(** [newComponent] of [handleAddComponent(type)]: [id] is the string drawn
    from [Math.random()], [components] the list the handler sees. *)
Definition newComponent (id : string) (type : ComponentType)
    (components : list CircuitComponent) : CircuitComponent :=
  let offset := lengthOf components * 20 in
  mkComponent id type
    (mkPoint (100 + offset) (100 + offset) (id +:+ "-p1"))
    (mkPoint (200 + offset) (100 + offset) (id +:+ "-p2"))
    (mkProperties
       (Some (if bool_decide (type = WIRE) || bool_decide (type = AMMETER)
              then 0 else 10))
       (Some 9) (Some true) (Some 0.001) (Some 1))
    0 0 0 0 (Some 0) (Some 0) (Some 0).

(** [setComponents(prev => [...prev, newComponent])] *)
Definition handleAddComponent (id : string) (type : ComponentType)
    (components prev : list CircuitComponent) : list CircuitComponent :=
  prev ++ [newComponent id type components].

(** [Partial<CircuitComponent['properties']>]: a key that is absent is
    [None], a key that is present holds a value or [undefined]. *)
Record PropertyChanges := mkChanges {
  ch_resistance : option (option number);
  ch_voltage : option (option number);
  ch_isOpen : option (option bool);
  ch_capacitance : option (option number);
  ch_inductance : option (option number)
}.

(** [{ ...properties, ...changes }] *)
Definition mergeProperties (p : Properties) (changes : PropertyChanges)
  : Properties :=
  mkProperties (default (resistance p) (ch_resistance changes))
               (default (voltage p) (ch_voltage changes))
               (default (isOpen p) (ch_isOpen changes))
               (default (capacitance p) (ch_capacitance changes))
               (default (inductance p) (ch_inductance changes)).

(** [{ ...c, properties: p }] *)
Definition withProperties (c : CircuitComponent) (p : Properties)
  : CircuitComponent :=
  mkComponent (c_id c) (c_type c) (p1 c) (p2 c) p
              (current c) (voltageDrop c) (p1Potential c) (p2Potential c)
              (prevCurrent c) (prevP1Potential c) (prevP2Potential c).

Definition handlePropertyChange (id : string) (changes : PropertyChanges)
    (prev : list CircuitComponent) : list CircuitComponent :=
  map (λ c, if bool_decide (c_id c = id)
            then withProperties c (mergeProperties (properties c) changes)
            else c) prev.

(** [prev.filter(c => c.id !== id)] *)
Definition handleDelete (id : string) (prev : list CircuitComponent)
  : list CircuitComponent :=
  filter (λ c, c_id c ≠ id) prev.

(** ** The canvas ([CircuitCanvas.tsx], the mouse handlers) *)

Definition SNAP_RADIUS : number := 15.

Inductive DragType := COMPONENT | HANDLE.
Inductive HandleName := P1 | P2.

#[global] Instance DragType_eq_dec : EqDecision DragType.
Proof. solve_decision. Defined.
#[global] Instance HandleName_eq_dec : EqDecision HandleName.
Proof. solve_decision. Defined.

Record DragState := mkDragState {
  drag_type : DragType;
  drag_compId : string;
  drag_handle : option HandleName;
  drag_startX : number;
  drag_startY : number;
  drag_initialP1 : Point;
  drag_initialP2 : Point;
  drag_hasMoved : bool
}.

(** [{ ...c, p1: p }] and [{ ...c, p2: p }] *)
Definition withP1 (c : CircuitComponent) (p : Point) : CircuitComponent :=
  mkComponent (c_id c) (c_type c) p (p2 c) (properties c)
              (current c) (voltageDrop c) (p1Potential c) (p2Potential c)
              (prevCurrent c) (prevP1Potential c) (prevP2Potential c).
Definition withP2 (c : CircuitComponent) (p : Point) : CircuitComponent :=
  mkComponent (c_id c) (c_type c) (p1 c) p (properties c)
              (current c) (voltageDrop c) (p1Potential c) (p2Potential c)
              (prevCurrent c) (prevP1Potential c) (prevP2Potential c).

(** [{ ...p, x: x, y: y }] *)
Definition movedTo (p : Point) (x y : number) : Point := mkPoint x y (pt_id p).

(** The callback of [prev.map(c => ...)] in [handleMouseMove]; [dx] and
    [dy] are the distances of the pointer from where the drag started. *)
Definition dragElement (dragState : DragState) (dx dy : number)
    (c : CircuitComponent) : CircuitComponent :=
  let x1 := pt_x (drag_initialP1 dragState) + dx in
  let y1 := pt_y (drag_initialP1 dragState) + dy in
  let x2 := pt_x (drag_initialP2 dragState) + dx in
  let y2 := pt_y (drag_initialP2 dragState) + dy in
  if bool_decide (c_id c ≠ drag_compId dragState) then c
  else match drag_type dragState, drag_handle dragState with
       | HANDLE, Some P1 => withP1 c (movedTo (p1 c) x1 y1)
       | HANDLE, Some P2 => withP2 c (movedTo (p2 c) x2 y2)
       | HANDLE, None => c
       | COMPONENT, _ =>
           withP2 (withP1 c (movedTo (p1 c) x1 y1)) (movedTo (p2 c) x2 y2)
       end.

(** [handleMouseMove(e)], [pos] being [getMousePos(e)] and [dragState] the
    drag state the handler holds: the next drag state and the next element
    list.  A drag is marked as moved by the first event that is 5 units or
    more from its start, and moves elements from the event after. *)
Definition handleMouseMove (dragState : option DragState)
    (pos : number * number) (prev : list CircuitComponent)
  : option DragState * list CircuitComponent :=
  match dragState with
  | None => (None, prev)
  | Some d =>
      let dx := pos.1 - drag_startX d in
      let dy := pos.2 - drag_startY d in
      if negb (drag_hasMoved d) then
        if lt (hypot dx dy) 5 then (Some d, prev)
        else (Some (mkDragState (drag_type d) (drag_compId d) (drag_handle d)
                      (drag_startX d) (drag_startY d)
                      (drag_initialP1 d) (drag_initialP2 d) true), prev)
      else (Some d, map (dragElement d dx dy) prev)
  end.

(** [handleMouseDown(e, compId, handle)]: the drag state it sets, the one
    there was when no element has this id.  The selection it reports through
    [onSelect] is no part of the element list. *)
Definition handleMouseDown (pos : number * number) (compId : string)
    (handle : option HandleName) (components : list CircuitComponent)
    (dragState : option DragState) : option DragState :=
  match list_find (λ c, c_id c = compId) components with
  | None => dragState
  | Some (_, comp) =>
      Some (mkDragState (match handle with Some _ => HANDLE | None => COMPONENT end)
              compId handle
              pos.1 pos.2 (p1 comp) (p2 comp) false)
  end.

(** [!c.properties.isOpen] stored in [isOpen]. *)
Definition toggled (c : CircuitComponent) : CircuitComponent :=
  let p := properties c in
  withProperties c
    (mkProperties (resistance p) (voltage p)
       (Some (negb (default false (isOpen p))))
       (capacitance p) (inductance p)).

(** The click branch of [handleMouseUp] ([hasMoved] is false):
    [components] is the list the handler sees, [prev] the list the update is
    applied to. *)
Definition handleClick (dragState : DragState)
    (components prev : list CircuitComponent) : list CircuitComponent :=
  match drag_type dragState with
  | COMPONENT =>
      match list_find (λ c, c_id c = drag_compId dragState) components with
      | Some (_, comp) =>
          if isType comp SWITCH then
            map (λ c, if bool_decide (c_id c = c_id comp) then toggled c
                      else c) prev
          else prev
      | None => prev
      end
  | HANDLE => prev
  end.

(** One turn of [for (const other of nextComps)] for the handle [handle] of
    the element called [activeId]. *)
Definition snapStep (activeId : string) (handle : Point)
    (other : CircuitComponent) : Point :=
  if bool_decide (c_id other = activeId) then handle
  else if lt (hypot (pt_x handle - pt_x (p1 other))
                    (pt_y handle - pt_y (p1 other))) SNAP_RADIUS
  then movedTo handle (pt_x (p1 other)) (pt_y (p1 other))
  else if lt (hypot (pt_x handle - pt_x (p2 other))
                    (pt_y handle - pt_y (p2 other))) SNAP_RADIUS
  then movedTo handle (pt_x (p2 other)) (pt_y (p2 other))
  else handle.

(** The callback of [handlesToCheck.forEach(handle => ...)]. *)
Definition snapHandle (activeId : string) (nextComps : list CircuitComponent)
    (handle : Point) : Point :=
  foldl (snapStep activeId) handle nextComps.

(** The snapping of [handleMouseUp]; [nextComps] is the deep copy
    [JSON.parse(JSON.stringify(prev))], whose objects are shared with
    nothing, and [activeComp] its first element with the dragged id. *)
Definition snapComponents (dragState : DragState)
    (prev nextComps : list CircuitComponent) : list CircuitComponent :=
  match list_find (λ c, c_id c = drag_compId dragState) nextComps with
  | None => prev
  | Some (i, activeComp) =>
      let snap := snapHandle (c_id activeComp) nextComps in
      <[i := match drag_type dragState with
             | COMPONENT =>
                 withP2 (withP1 activeComp (snap (p1 activeComp)))
                        (snap (p2 activeComp))
             | HANDLE =>
                 if bool_decide (drag_handle dragState = Some P1)
                 then withP1 activeComp (snap (p1 activeComp))
                 else withP2 activeComp (snap (p2 activeComp))
             end]> nextComps
  end.

(** [handleMouseUp()]: the next drag state and the next element list.
    [components] is the list the handler sees, [prev] the list the update is
    applied to and [nextComps] its deep copy. *)
Definition handleMouseUp (dragState : option DragState)
    (components prev nextComps : list CircuitComponent)
  : option DragState * list CircuitComponent :=
  match dragState with
  | None => (None, prev)
  | Some d =>
      if negb (drag_hasMoved d) then (None, handleClick d components prev)
      else (None, snapComponents d prev nextComps)
  end.

(** ** The solver on the JavaScript heap

    So far the element list is a value.  To state what the solver does to
    the objects it is handed, its code is laid out once more over the heap
    defined above: the input is reached through references, every object the
    solver creates is allocated, and every in-place update of an object is a
    write to its cell.  A loop is one step here: the cell of the object it
    mutates receives the value the loop leaves in it. *)

(** [gaussianElimination(A, b)] on the heap: [M] and [x] are private copies,
    [result] is new. *)
Definition gaussianEliminationH (A b : loc) : Heap loc :=
  MA ← view (λ h, readMatrix h A);
  vb ← view (λ h, readVector h b);
  let n := length MA in
  if bool_decide (n = 0%nat) then alloc (OVector [])
  else
    M ← alloc (OMatrix MA);
    x ← alloc (OVector vb);
    s ← lift (forwardElimination n MA vb);
    _ ← store M (OMatrix s.1);
    _ ← store x (OVector s.2);
    result ← alloc (OVector (zeroVector n));
    r ← lift (backSubstitution n s.1 s.2);
    _ ← store result (OVector r);
    mret result.

(** [solveCircuit(components, dt)] on the heap; it returns the references of
    the two result maps.  Each loop over [components] reads the array and
    its elements anew. *)
Definition solveCircuitH (components : loc) (dt : number) : Heap (loc * loc) :=
  (* 1. Identify nodes *)
  points ← alloc (OTerminals []);
  comps ← view (λ h, readComponents h components);
  terminals ← allocAll (OTerminal <$> pointsOf comps);
  _ ← store points (OTerminals terminals);
  pointToNodeL ← alloc (ONodeMap ∅);
  nodeLocationsL ← alloc (OLocations []);
  assignedPointsL ← alloc (OIdSet ∅);
  let topo := resolveTopology comps in
  _ ← store pointToNodeL (ONodeMap (pointToNode topo));
  _ ← store assignedPointsL (OIdSet (assignedPoints topo));
  _ ← store nodeLocationsL (OLocations (nodeLocations topo));
  if bool_decide (nodeCount topo = 0%nat) then
    pp ← alloc (ONumberMap ∅);
    cc ← alloc (ONumberMap ∅);
    mret (pp, cc)
  else
    (* 2. Build the MNA system *)
    refs ← view (λ h, readRefs h components);
    comps2 ← view (λ h, readComponents h components);
    vs ← alloc (OComponents (batteryRefs refs comps2));
    let m := mSize (nodeCount topo) comps2 in
    A ← alloc (OMatrix (zeroMatrix m));
    Z ← alloc (OVector (zeroVector m));
    s ← lift (assemble (pointToNode topo) (nodeCount topo) dt comps2);
    _ ← store A (OMatrix s.1);
    _ ← store Z (OVector s.2);
    (* 3. Solve the linear system *)
    xL ← gaussianEliminationH A Z;
    x ← view (λ h, readVector h xL);
    (* 4. Extract results *)
    np ← alloc (OPotentials ∅);
    _ ← store np (OPotentials (nodePotentialsOf (nodeCount topo) x));
    comps4 ← view (λ h, readComponents h components);
    let r := extract (pointToNode topo) (nodeCount topo) dt comps4 x in
    pp ← alloc (ONumberMap ∅);
    _ ← store pp (ONumberMap (pointPotentials r));
    cc ← alloc (ONumberMap ∅);
    _ ← store cc (ONumberMap (componentCurrents r));
    mret (pp, cc).

(** ** Vocabulary of the statements *)

(** What the loops maintain: [assignedPoints] is the domain of
    [pointToNode], and every node index is below [nodeCount]. *)
Record topologyOk (st : Topology) : Prop := {
  ok_assigned : ∀ id, id ∈ assignedPoints st ↔ is_Some (nodeOf st id);
  ok_bound : ∀ id n, nodeOf st id = Some n → (n < nodeCount st)%nat
}.

(** Does the scan of [rest] from representative [rep] meet a terminal called
    [id] within the snap distance? *)
Definition reaches (rep : TerminalRef) (rest : list TerminalRef) (id : string)
  : bool :=
  existsb (λ q, bool_decide (t_id q = id) && snaps rep q) rest.

(** [A] is an [n]×[n] matrix. *)
Definition squareOf (n : nat) (A : matrix) : Prop :=
  length A = n ∧ Forall (λ row, length row = n) A.

(** [(A, Z)] is a system of [n] equations in [n] unknowns. *)
Definition systemOf (n : nat) (s : matrix * vector) : Prop :=
  squareOf n s.1 ∧ length s.2 = n.

(** A node reference addresses a row of an [m]-row system (ground and
    [undefined] address none). *)
Definition addresses (m : nat) (n : nodeRef) : Prop :=
  isNonGround n = true → (rowOf n < m)%nat.

(** Entry [k] of the right-hand side (the row of node [k + 1]) after a
    current source [i] from [n1] to [n2] has been stamped on a vector whose
    entry was [z]. *)
Definition sourced (n1 n2 : nodeRef) (i : number) (k : nat) (z : number)
  : number :=
  let z1 := if bool_decide (n1 = Some (S k)) then z - i else z in
  if bool_decide (n2 = Some (S k)) then z1 + i else z1.

(** Entry [(i, j)] of [A] after a conductance [g] between [n1] and [n2] has
    been stamped on a matrix whose entry was [a]: the four updates of
    [addConductance], in their order. *)
Definition conducted (n1 n2 : nodeRef) (g : number) (i j : nat) (a : number)
  : number :=
  let a1 := if isNonGround n1 && bool_decide (i = rowOf n1 ∧ j = rowOf n1)
            then a + g else a in
  let a2 := if isNonGround n2 && bool_decide (i = rowOf n2 ∧ j = rowOf n2)
            then a1 + g else a1 in
  if isNonGround n1 && isNonGround n2 then
    let a3 := if bool_decide (i = rowOf n1 ∧ j = rowOf n2) then a2 - g
              else a2 in
    if bool_decide (i = rowOf n2 ∧ j = rowOf n1) then a3 - g else a3
  else a2.

(** What the turn of element [c] in the loop that fills the matrix leaves in
    entry [(i, j)] of [A] and in entry [k] of [Z], the entries having been
    [a] and [z]: nothing for a battery or an element on one node, and else
    the conductance and, when it is not [0], the current source of the
    element's Norton model. *)
Definition stampedA (p2n : gmap string nat) (dt : number)
    (c : CircuitComponent) (i j : nat) (a : number) : number :=
  let n1 := p2n !! pt_id (p1 c) in
  let n2 := p2n !! pt_id (p2 c) in
  if isType c BATTERY || bool_decide (n1 = n2) then a
  else conducted n1 n2 (nortonModel c dt).1 i j a.

Definition stampedZ (p2n : gmap string nat) (dt : number)
    (c : CircuitComponent) (k : nat) (z : number) : number :=
  let n1 := p2n !! pt_id (p1 c) in
  let n2 := p2n !! pt_id (p2 c) in
  let I := (nortonModel c dt).2 in
  if isType c BATTERY || bool_decide (n1 = n2) then z
  else if strictNe I 0 then sourced n1 n2 I k z else z.

(** The entries after the turns of the elements [l], one after the other. *)
Definition stampedAll {X : Type} (stamp : CircuitComponent → X → X)
    (l : list CircuitComponent) (x : X) : X :=
  foldl (λ x c, stamp c x) x l.

(** [h] has every cell of [h0], with the same content. *)
Definition extends (h0 h : heap) : Prop :=
  ∀ l, l ∈ dom h0 → h !! l = h0 !! l.

(** From [h], the computation [c] returns, leaves the cells of [h0] as they
    were, and establishes [P]. *)
Definition finishes {X : Type} (h0 : heap) (c : Heap X) (h : heap)
    (P : X → heap → Prop) : Prop :=
  ∃ x h', c h = Some (x, h') ∧ extends h0 h' ∧ P x h'.

(** ** Vocabulary of the further properties *)

(** [A[i][j]] and [A[j][i]] agree wherever one of them exists. *)
Definition symmetric (A : matrix) : Prop := ∀ i j, mget A i j = mget A j i.

(** [|e| > |d|] does not hold: [d] is at least as large in magnitude as
    [e], or one of them is [NaN]. *)
Definition dominates (d e : number) : Prop :=
  gt (PrimFloat.abs e) (PrimFloat.abs d) = false.

(** Row [i] of the triangular system holds of [r], in the arithmetic of the
    loop: [r[i]] is [(x[i] - sum) / M[i][i]], [sum] being
    [M[i][i+1] * r[i+1] + ... + M[i][n-1] * r[n-1]] added up from [0] in
    this order. *)
Definition rowSolved (n : nat) (M : matrix) (x r : vector) (i : nat) : Prop :=
  ∀ d xi, mget M i i = Some d → gt (PrimFloat.abs d) TOLERANCE = true →
          x !! i = Some xi →
          ∃ sum, foldM (dotStep M r i) 0 (range (S i) n) = Some sum
                 ∧ r !! i = Some ((xi - sum) / d).

(** Two elements the solver cannot tell apart at time step [dt]: same id and
    terminals, both batteries of the same source voltage or both not, and in
    the latter case the same Norton model and the same current law. *)
Record alike (dt : number) (c c' : CircuitComponent) : Prop := {
  alike_id : c_id c = c_id c';
  alike_p1 : p1 c = p1 c';
  alike_p2 : p2 c = p2 c';
  alike_battery : c_type c = BATTERY ↔ c_type c' = BATTERY;
  alike_voltage :
    c_type c = BATTERY →
    orNum (voltage (properties c)) 9 = orNum (voltage (properties c')) 9;
  alike_norton : c_type c ≠ BATTERY → nortonModel c dt = nortonModel c' dt;
  alike_current :
    c_type c ≠ BATTERY →
    ∀ nodeCount vs vs' x v1 v2,
      elementCurrent nodeCount dt vs x v1 v2 c
      = elementCurrent nodeCount dt vs' x v1 v2 c'
}.

(** The inputs of two elements agree: id, type, terminals and properties,
    and the history as far as the solver uses it, which is the previous
    voltage of a capacitor and the previous current of an inductor, each at
    a positive time step only. *)
Definition sameInputs (dt : number) (c c' : CircuitComponent) : Prop :=
  c_id c = c_id c' ∧ c_type c = c_type c' ∧ p1 c = p1 c' ∧ p2 c = p2 c'
  ∧ properties c = properties c'
  ∧ (c_type c = CAPACITOR → gt dt 0 = true → vOld c = vOld c')
  ∧ (c_type c = INDUCTOR → gt dt 0 = true →
     orNum (prevCurrent c) 0 = orNum (prevCurrent c') 0).

(** The element [c] with [t] for its type. *)
Definition retype (t : ComponentType) (c : CircuitComponent)
  : CircuitComponent :=
  mkComponent (c_id c) t (p1 c) (p2 c) (properties c)
              (current c) (voltageDrop c) (p1Potential c) (p2Potential c)
              (prevCurrent c) (prevP1Potential c) (prevP2Potential c).

(** The type the solver treats an element as: an ammeter and a closed
    switch are wires, an open switch is a voltmeter, a light bulb is a
    resistor, and without a positive time step an inductor is a wire. *)
Definition idealType (dt : number) (c : CircuitComponent) : ComponentType :=
  match c_type c with
  | AMMETER => WIRE
  | SWITCH => match isOpen (properties c) with
              | Some true => VOLTMETER
              | _ => WIRE
              end
  | LIGHTBULB => RESISTOR
  | INDUCTOR => if gt dt 0 then INDUCTOR else WIRE
  | t => t
  end.

(** What no run of the loop changes in an element. *)
Definition sameElement (c c0 : CircuitComponent) : Prop :=
  c_id c = c_id c0 ∧ c_type c = c_type c0 ∧ p1 c = p1 c0 ∧ p2 c = p2 c0
  ∧ properties c = properties c0.

(** The three ids of an element. *)
Definition idsOf (c : CircuitComponent) : string * string * string :=
  (c_id c, pt_id (p1 c), pt_id (p2 c)).

(** The terminals are called after the element, as [handleAddComponent] and
    [createComp] call them. *)
Definition named (ids : string * string * string) : Prop :=
  ids.1.2 = ids.1.1 +:+ "-p1" ∧ ids.2 = ids.1.1 +:+ "-p2".

(** The element ids are unique and every terminal is called after its
    element. *)
Definition wellNamed (l : list CircuitComponent) : Prop :=
  NoDup (c_id <$> l) ∧ Forall (λ c, named (idsOf c)) l.

(** [c.id === comp.id ? toggled(c) : c] *)
Definition toggleIn (id : string) (c : CircuitComponent) : CircuitComponent :=
  if bool_decide (c_id c = id) then toggled c else c.

(** Where a point is. *)
Definition at_ (p : Point) : number * number := (pt_x p, pt_y p).

(** [handle] is within the snap radius of [p]. *)
Definition near (handle p : Point) : bool :=
  lt (hypot (pt_x handle - pt_x p) (pt_y handle - pt_y p)) SNAP_RADIUS.

(** Row [vIndex] of a battery, as a function of the column: [-1] at the
    column of its [p2] node, [1] at the column of its [p1] node, and the
    entry there was elsewhere. *)
Definition batteryRow (n1 n2 : nodeRef) (j : nat) : number → number :=
  if isNonGround n2 && bool_decide (j = rowOf n2) then λ _, -1
  else if isNonGround n1 && bool_decide (j = rowOf n1) then λ _, 1
  else λ a, a.

(** * Properties *)

(** ** Topology resolution *)

Lemma emptyTopology_ok : topologyOk emptyTopology.
Proof.
  split; simpl.
  - intros id. rewrite lookup_empty. split; [set_solver | by intros [? ?]].
  - intros id n. by rewrite lookup_empty.
Qed.

Lemma assigned_insert (m : gmap string nat) (S : gset string) k v :
  (∀ i, i ∈ S ↔ is_Some (m !! i)) →
  ∀ i, i ∈ {[k]} ∪ S ↔ is_Some (<[k := v]> m !! i).
Proof.
  intros Hok i. rewrite elem_of_union, elem_of_singleton, Hok.
  destruct (decide (k = i)) as [<-|Hne].
  - rewrite lookup_insert_eq. split; [by eexists | by left].
  - rewrite lookup_insert_ne by done. split; [|by right].
    by intros [->|?].
Qed.

Lemma absorb_nodeCount rep k rest st :
  nodeCount (absorb rep k rest st) = nodeCount st.
Proof.
  revert st. induction rest as [|q rest IH]; intros st; simpl; [done|].
  repeat case_match; by rewrite IH.
Qed.

Lemma absorb_lookup rep k rest st id :
  (∀ i, i ∈ assignedPoints st ↔ is_Some (nodeOf st i)) →
  nodeOf (absorb rep k rest st) id =
    match nodeOf st id with
    | Some n => Some n
    | None => if reaches rep rest id then Some k else None
    end.
Proof.
  revert st. induction rest as [|q rest IH]; intros st Hok; simpl.
  - by destruct (nodeOf st id).
  - case_bool_decide as Hq.
    + rewrite IH by done. destruct (nodeOf st id) eqn:Hid; [done|].
      apply Hok in Hq as [n Hn].
      rewrite bool_decide_eq_false_2; [done|]. intros <-. congruence.
    + assert (nodeOf st (t_id q) = None) as Hnone.
      { destruct (nodeOf st (t_id q)) eqn:E; [|done].
        exfalso. apply Hq, Hok. by eexists. }
      destruct (snaps rep q) eqn:Hs.
      * rewrite IH; simpl.
        -- destruct (decide (t_id q = id)) as [<-|Hne].
           ++ rewrite lookup_insert_eq, Hnone.
              by rewrite bool_decide_eq_true_2.
           ++ rewrite lookup_insert_ne by done.
              by rewrite (bool_decide_eq_false_2 _ Hne).
        -- by apply assigned_insert.
      * rewrite IH by done. by rewrite andb_false_r.
Qed.

Lemma absorb_assigned rep k rest st :
  (∀ i, i ∈ assignedPoints st ↔ is_Some (nodeOf st i)) →
  ∀ i, i ∈ assignedPoints (absorb rep k rest st)
       ↔ is_Some (nodeOf (absorb rep k rest st) i).
Proof.
  revert st. induction rest as [|q rest IH]; intros st Hok; simpl; [done|].
  case_bool_decide as Hq; [by apply IH|].
  destruct (snaps rep q); [|by apply IH].
  apply IH; simpl. by apply assigned_insert.
Qed.

(** One iteration of the outer loop, as seen from a terminal id. *)
Lemma visit_lookup p rest st id :
  topologyOk st →
  nodeOf (visit p rest st) id =
    match nodeOf st id with
    | Some n => Some n
    | None =>
        if bool_decide (t_id p ∈ assignedPoints st) then None
        else if bool_decide (id = t_id p) || reaches p rest id
             then Some (nodeCount st) else None
    end.
Proof.
  intros [Hok Hb]. unfold visit. case_bool_decide as Hp.
  { by destruct (nodeOf st id). }
  assert (nodeOf st (t_id p) = None) as Hnone.
  { destruct (nodeOf st (t_id p)) eqn:E; [|done].
    exfalso. apply Hp, Hok. by eexists. }
  rewrite absorb_lookup; simpl.
  - destruct (decide (id = t_id p)) as [->|Hne].
    + rewrite lookup_insert_eq, Hnone. by rewrite bool_decide_eq_true_2.
    + rewrite lookup_insert_ne by done.
      by rewrite (bool_decide_eq_false_2 _ Hne).
  - by apply assigned_insert.
Qed.

Lemma visit_nodeCount p rest st :
  nodeCount (visit p rest st) =
    if bool_decide (t_id p ∈ assignedPoints st) then nodeCount st
    else S (nodeCount st).
Proof.
  unfold visit. case_bool_decide; [done|]. by rewrite absorb_nodeCount.
Qed.

Lemma visit_ok p rest st : topologyOk st → topologyOk (visit p rest st).
Proof.
  intros Hst. split.
  - destruct Hst as [Hok _]. unfold visit. case_bool_decide; [done|].
    apply absorb_assigned. simpl. by apply assigned_insert.
  - intros id n. rewrite visit_lookup, visit_nodeCount by done.
    destruct Hst as [_ Hb].
    destruct (nodeOf st id) eqn:E.
    + intros [= <-]. apply Hb in E. case_bool_decide; lia.
    + case_bool_decide; [done|]. case_match; [|done]. intros [= <-]. lia.
Qed.

Lemma visit_covers p rest st :
  topologyOk st → is_Some (nodeOf (visit p rest st) (t_id p)).
Proof.
  intros Hst. rewrite visit_lookup by done.
  destruct (nodeOf st (t_id p)) eqn:E; [by eexists|].
  rewrite bool_decide_eq_false_2.
  - rewrite bool_decide_eq_true_2 by done. by eexists.
  - intros Hin. apply (ok_assigned _ Hst) in Hin as [? ?]. congruence.
Qed.

Lemma identifyNodes_ok points st :
  topologyOk st → topologyOk (identifyNodes points st).
Proof.
  revert st. induction points as [|p rest IH]; intros st Hst; simpl; [done|].
  by apply IH, visit_ok.
Qed.

(** Entries of [pointToNode] are never overwritten. *)
Lemma identifyNodes_keeps points st id n :
  topologyOk st → nodeOf st id = Some n →
  nodeOf (identifyNodes points st) id = Some n.
Proof.
  revert st. induction points as [|p rest IH]; intros st Hst Hid; simpl; [done|].
  apply IH; [by apply visit_ok|]. rewrite visit_lookup by done. by rewrite Hid.
Qed.

Lemma identifyNodes_nodeCount_le points st :
  (nodeCount st ≤ nodeCount (identifyNodes points st))%nat.
Proof.
  revert st. induction points as [|p rest IH]; intros st; simpl; [done|].
  etrans; [|apply IH]. rewrite visit_nodeCount. case_bool_decide; lia.
Qed.

(** Nodes opened later get larger indices. *)
Lemma identifyNodes_fresh points st id n :
  topologyOk st → nodeOf st id = None →
  nodeOf (identifyNodes points st) id = Some n → (nodeCount st ≤ n)%nat.
Proof.
  revert st. induction points as [|p rest IH]; intros st Hst Hid; simpl.
  { congruence. }
  intros Hfin.
  destruct (nodeOf (visit p rest st) id) as [k|] eqn:Hv.
  - rewrite (identifyNodes_keeps rest _ id k) in Hfin
      by (by try apply visit_ok).
    injection Hfin as <-. rewrite visit_lookup, Hid in Hv by done.
    repeat case_match; naive_solver lia.
  - apply IH in Hfin; [|by apply visit_ok|done].
    rewrite visit_nodeCount in Hfin. case_bool_decide; lia.
Qed.

(** Every terminal of the list ends up in a node. *)
Lemma identifyNodes_covers points st p :
  topologyOk st → p ∈ points →
  is_Some (nodeOf (identifyNodes points st) (t_id p)).
Proof.
  revert st. induction points as [|q rest IH]; intros st Hst Hin; simpl.
  { by apply elem_of_nil in Hin. }
  apply elem_of_cons in Hin as [->|Hin].
  - destruct (visit_covers q rest st Hst) as [n Hn].
    exists n. apply identifyNodes_keeps; [by apply visit_ok | done].
  - apply IH; [by apply visit_ok | done].
Qed.

Lemma reaches_true rep rest id :
  reaches rep rest id = true ↔ ∃ q, q ∈ rest ∧ t_id q = id ∧ snaps rep q = true.
Proof.
  unfold reaches. rewrite existsb_exists. split.
  - intros (q & Hin & Hq). apply andb_true_iff in Hq as [Hid Hs].
    apply bool_decide_eq_true in Hid. exists q.
    by rewrite list_elem_of_In.
  - intros (q & Hin & Hid & Hs). exists q. rewrite <- list_elem_of_In.
    split; [done|]. by rewrite Hs, bool_decide_eq_true_2.
Qed.

(** With unique terminal ids, a terminal of the list is reached exactly when
    it is itself within the snap distance. *)
Lemma reaches_unique rep rest c :
  NoDup (t_id <$> rest) → c ∈ rest →
  reaches rep rest (t_id c) = snaps rep c.
Proof.
  intros Hnd Hin. destruct (snaps rep c) eqn:Hs.
  - apply reaches_true. by exists c.
  - apply not_true_is_false. intros (q & Hq & Hid & Hsq)%reaches_true.
    apply list_elem_of_lookup in Hq as [iq Hq].
    apply list_elem_of_lookup in Hin as [ic Hc].
    assert (iq = ic) as ->.
    { eapply NoDup_lookup; [exact Hnd| |];
        rewrite list_lookup_fmap; [by rewrite Hq | by rewrite Hc, Hid]. }
    congruence.
Qed.

(** The membership rule of the clustering, from an arbitrary loop state:
    [a] is at position [i], not yet assigned when the loop starts and not in
    the node of any earlier terminal; [c] comes after it. *)
Lemma identifyNodes_member points : ∀ st i j a c,
  topologyOk st →
  NoDup (t_id <$> points) →
  (i < j)%nat → points !! i = Some a → points !! j = Some c →
  nodeOf st (t_id a) = None →
  (∀ h b, (h < i)%nat → points !! h = Some b →
          nodeOf (identifyNodes points st) (t_id b)
          ≠ nodeOf (identifyNodes points st) (t_id a)) →
  nodeOf (identifyNodes points st) (t_id c)
  = nodeOf (identifyNodes points st) (t_id a)
  ↔ snaps a c = true
    ∧ nodeOf st (t_id c) = None
    ∧ ∀ h b, (h < i)%nat → points !! h = Some b →
             nodeOf (identifyNodes points st) (t_id b)
             ≠ nodeOf (identifyNodes points st) (t_id c).
Proof.
  induction points as [|p rest IH]; intros st i j a c Hst Hnd Hij Ha Hc Hnone Hfirst.
  { by rewrite lookup_nil in Ha. }
  rewrite fmap_cons in Hnd. apply list.NoDup_cons in Hnd as [Hp Hnd].
  pose proof (visit_ok p rest st Hst) as Hst'.
  destruct j as [|j]; [lia|]. simpl in Hc.
  assert (c ∈ rest) as Hcin by (apply list_elem_of_lookup; eauto).
  assert (t_id c ≠ t_id p) as Hcp.
  { intros Heq. apply Hp. rewrite <- Heq. by apply list_elem_of_fmap_2. }
  simpl identifyNodes.
  destruct i as [|i]; simpl in Ha.
  - (* [a] is the terminal being visited: it opens node [nodeCount st] *)
    injection Ha as ->.
    assert (t_id a ∉ assignedPoints st) as Hna.
    { intros [? ?]%(ok_assigned _ Hst). congruence. }
    assert (nodeOf (visit a rest st) (t_id a) = Some (nodeCount st)) as Hva.
    { rewrite visit_lookup, Hnone by done.
      rewrite (bool_decide_eq_false_2 _ Hna).
      by rewrite bool_decide_eq_true_2. }
    rewrite (identifyNodes_keeps rest _ _ _ Hst' Hva).
    assert (nodeOf st (t_id c) = None →
            nodeOf (visit a rest st) (t_id c)
            = if snaps a c then Some (nodeCount st) else None) as Hvc.
    { intros Hcn. rewrite visit_lookup, Hcn by done.
      rewrite (bool_decide_eq_false_2 _ Hna).
      rewrite (bool_decide_eq_false_2 _ Hcp). simpl.
      by rewrite reaches_unique. }
    split.
    + intros Hfc.
      destruct (nodeOf st (t_id c)) as [n|] eqn:Hcn.
      { pose proof (ok_bound _ Hst _ _ Hcn).
        assert (nodeOf (visit a rest st) (t_id c) = Some n) as Hk
          by (by rewrite visit_lookup, Hcn).
        rewrite (identifyNodes_keeps rest _ _ _ Hst' Hk) in Hfc.
        injection Hfc as ->. lia. }
      specialize (Hvc eq_refl). split_and!; [|done|intros; lia].
      destruct (snaps a c); [done|].
      apply identifyNodes_fresh in Hfc; [|done..].
      rewrite visit_nodeCount, (bool_decide_eq_false_2 _ Hna) in Hfc. lia.
    + intros (Hs & Hcn & _). specialize (Hvc Hcn). rewrite Hs in Hvc.
      by apply identifyNodes_keeps.
  - (* [a] comes later: the visit of [p] leaves [a] and [c] unassigned
       exactly when they do not end up in the node of [p] *)
    assert (is_Some (nodeOf (visit p rest st) (t_id p))) as [np Hvp]
      by (by apply visit_covers).
    pose proof (identifyNodes_keeps rest _ _ _ Hst' Hvp) as Hfp.
    assert (∀ d, nodeOf st (t_id d) = None →
                 nodeOf (identifyNodes rest (visit p rest st)) (t_id p)
                 ≠ nodeOf (identifyNodes rest (visit p rest st)) (t_id d) →
                 nodeOf (visit p rest st) (t_id d) = None) as Hlater.
    { intros d Hdn Hne. rewrite visit_lookup, Hdn by done.
      case_bool_decide as Hpa; [done|]. case_match eqn:Hr; [|done].
      exfalso. apply Hne. rewrite Hfp. symmetry.
      apply identifyNodes_keeps; [done|].
      rewrite visit_lookup, Hdn, (bool_decide_eq_false_2 _ Hpa), Hr by done.
      rewrite visit_lookup in Hvp by done.
      destruct (nodeOf st (t_id p)) eqn:Hpn.
      { exfalso. apply Hpa, (ok_assigned _ Hst). by eexists. }
      rewrite (bool_decide_eq_false_2 _ Hpa) in Hvp.
      by rewrite bool_decide_eq_true_2 in Hvp. }
    assert (nodeOf (visit p rest st) (t_id a) = None) as Hva.
    { apply Hlater; [done|]. apply (Hfirst 0%nat p); [lia | done]. }
    rewrite (IH (visit p rest st) i j a c); [|done|done|lia|done|done|done|].
    2:{ intros h b Hh Hb. apply (Hfirst (S h) b); [lia | done]. }
    split; intros (Hs & Hcn & Hprev); split_and!; try done.
    + rewrite visit_lookup in Hcn by done. by destruct (nodeOf st (t_id c)).
    + intros [|h] b Hh Hb; simpl in Hb.
      * injection Hb as <-. rewrite Hfp. intros Heq. symmetry in Heq.
        apply identifyNodes_fresh in Heq; [|done..].
        pose proof (ok_bound _ Hst' _ _ Hvp). lia.
      * apply (Hprev h b); [lia | done].
    + apply Hlater; [done|]. apply (Hprev 0%nat p); [lia | done].
    + intros h b Hh Hb. apply (Hprev (S h) b); [lia | done].
Qed.

(** ** Loops that keep an invariant never fail *)

Lemma foldM_invariant {S X : Type} (Inv : S → Prop) (P : X → Prop)
    (body : S → X → option S) (l : list X) (s : S) :
  Forall P l →
  (∀ s a, P a → Inv s → ∃ s', body s a = Some s' ∧ Inv s') →
  Inv s → ∃ s', foldM body s l = Some s' ∧ Inv s'.
Proof.
  intros Hl Hbody. revert s.
  induction Hl as [|a l Ha Hl IH]; intros s Hs; simpl; [by exists s|].
  destruct (Hbody s a Ha Hs) as (s1 & -> & Hs1). simpl. by apply IH.
Qed.

Lemma foldMi_invariant {S X : Type} (Inv : S → Prop) (P : nat → X → Prop)
    (body : S → nat → X → option S) (l : list X) : ∀ (idx : nat) (s : S),
  (∀ k a, l !! k = Some a → P (idx + k)%nat a) →
  (∀ s i a, P i a → Inv s → ∃ s', body s i a = Some s' ∧ Inv s') →
  Inv s → ∃ s', foldMi body idx s l = Some s' ∧ Inv s'.
Proof.
  induction l as [|a l IH]; intros idx s Hl Hbody Hs; simpl; [by exists s|].
  destruct (Hbody s idx a) as (s1 & -> & Hs1); [|done|].
  { specialize (Hl 0%nat a eq_refl). by rewrite Nat.add_0_r in Hl. }
  simpl. apply IH; [|done..].
  intros k b Hk. specialize (Hl (Datatypes.S k) b Hk).
  by replace (Datatypes.S idx + k)%nat with (idx + Datatypes.S k)%nat by lia.
Qed.

Lemma range_Forall lo hi : Forall (λ k, (lo ≤ k < hi)%nat) (range lo hi).
Proof.
  apply list.Forall_forall. intros k Hk. unfold range in Hk.
  apply elem_of_seq in Hk. lia.
Qed.

(** ** Shapes *)

Lemma zeroMatrix_square n : squareOf n (zeroMatrix n).
Proof.
  split; unfold zeroMatrix, zeroVector.
  - by rewrite length_replicate.
  - apply Forall_replicate. by rewrite length_replicate.
Qed.

Lemma vupd_Some (v : vector) i f :
  (i < length v)%nat →
  ∃ a, v !! i = Some a ∧ vupd v i f = Some (<[i := f a]> v).
Proof.
  intros Hi. destruct (lookup_lt_is_Some_2 v i Hi) as [a Ha].
  exists a. split; [done|]. unfold vupd. by rewrite Ha.
Qed.

Lemma vupd_length (v v' : vector) i f :
  vupd v i f = Some v' → length v' = length v.
Proof.
  unfold vupd. destruct (v !! i); simpl; [|done].
  intros [= <-]. by rewrite length_insert.
Qed.

Lemma vupd_ok n (v : vector) i f :
  length v = n → (i < n)%nat →
  ∃ v', vupd v i f = Some v' ∧ length v' = n.
Proof.
  intros Hn Hi. destruct (vupd_Some v i f) as (a & _ & Hv); [lia|].
  eexists. split; [done|]. by rewrite length_insert.
Qed.

Lemma square_row n (A : matrix) i :
  squareOf n A → (i < n)%nat → ∃ row, A !! i = Some row ∧ length row = n.
Proof.
  intros [Hlen Hrows] Hi.
  destruct (lookup_lt_is_Some_2 A i) as [row Hrow]; [lia|].
  exists row. split; [done|].
  by apply (Forall_lookup_1 _ _ _ _ Hrows Hrow).
Qed.

Lemma mget_ok n (A : matrix) i j :
  squareOf n A → (i < n)%nat → (j < n)%nat → is_Some (mget A i j).
Proof.
  intros HA Hi Hj. destruct (square_row n A i HA Hi) as (row & Hrow & Hlen).
  unfold mget. rewrite Hrow. simpl. apply lookup_lt_is_Some_2. lia.
Qed.

Lemma square_insert n (A : matrix) i row :
  squareOf n A → length row = n → squareOf n (<[i := row]> A).
Proof.
  intros [Hlen Hrows] Hrow. split.
  - by rewrite length_insert.
  - by apply Forall_insert.
Qed.

Lemma mupd_ok n (A : matrix) i j f :
  squareOf n A → (i < n)%nat → (j < n)%nat →
  ∃ A', mupd A i j f = Some A' ∧ squareOf n A'.
Proof.
  intros HA Hi Hj. destruct (square_row n A i HA Hi) as (row & Hrow & Hlen).
  destruct (vupd_ok n row j f Hlen Hj) as (row' & Hrow' & Hlen').
  exists (<[i := row']> A). split.
  - unfold mupd. rewrite Hrow. simpl. by rewrite Hrow'.
  - by apply square_insert.
Qed.

Lemma swap_ok {X : Type} (l : list X) i j :
  (i < length l)%nat → (j < length l)%nat →
  ∃ l', swap l i j = Some l' ∧ length l' = length l
        ∧ ∀ y, y ∈ l' → y ∈ l.
Proof.
  intros Hi Hj.
  destruct (lookup_lt_is_Some_2 l i Hi) as [a Ha].
  destruct (lookup_lt_is_Some_2 l j Hj) as [b Hb].
  exists (<[j := a]> (<[i := b]> l)). split_and!.
  - unfold swap. rewrite Ha. simpl. by rewrite Hb.
  - by rewrite !length_insert.
  - intros y Hy.
    apply list_elem_of_lookup in Hy as [k Hk].
    destruct (decide (k = j)) as [->|Hkj].
    + rewrite list_lookup_insert_eq in Hk by (by rewrite length_insert).
      injection Hk as <-. by apply list_elem_of_lookup_2 in Ha.
    + rewrite list_lookup_insert_ne in Hk by done.
      destruct (decide (k = i)) as [->|Hki].
      * rewrite list_lookup_insert_eq in Hk by done.
        injection Hk as <-. by apply list_elem_of_lookup_2 in Hb.
      * rewrite list_lookup_insert_ne in Hk by done.
        by apply list_elem_of_lookup_2 in Hk.
Qed.

(** ** Assembly stays within the [m]×[m] system *)

Lemma addresses_bound (p2n : gmap string nat) nodeCount m id :
  (∀ i k, p2n !! i = Some k → (k < nodeCount)%nat) →
  (nodeCount - 1 ≤ m)%nat → addresses m (p2n !! id).
Proof.
  intros Hb Hm. unfold addresses. destruct (p2n !! id) as [k|] eqn:E; [|done].
  simpl. intros Hk%bool_decide_eq_true. apply Hb in E. lia.
Qed.

(** Discharge the next in-range update of an [m]-sized array. *)
Ltac in_range m :=
  match goal with
  | |- context [mupd ?B ?i ?j ?f] =>
      let B' := fresh "B" in let HB := fresh "HB" in let HB' := fresh "HB" in
      destruct (mupd_ok m B i j f) as (B' & HB & HB');
      [done || auto ..|]; rewrite HB; simpl
  | |- context [vupd ?B ?i ?f] =>
      let B' := fresh "B" in let HB := fresh "HB" in let HB' := fresh "HB" in
      destruct (vupd_ok m B i f) as (B' & HB & HB');
      [done || auto ..|]; rewrite HB; simpl
  end.

Lemma addConductance_ok m n1 n2 g A :
  squareOf m A → addresses m n1 → addresses m n2 →
  ∃ A', addConductance n1 n2 g A = Some A' ∧ squareOf m A'.
Proof.
  intros HA H1 H2. unfold addConductance, addresses in *.
  destruct (isNonGround n1), (isNonGround n2); simpl;
    repeat in_range m; eauto.
Qed.

Lemma addCurrentSource_ok m n1 n2 i (Z : vector) :
  length Z = m → addresses m n1 → addresses m n2 →
  ∃ Z', addCurrentSource n1 n2 i Z = Some Z' ∧ length Z' = m.
Proof.
  intros HZ H1 H2. unfold addCurrentSource, addresses in *.
  destruct (isNonGround n1), (isNonGround n2); simpl;
    repeat in_range m; eauto.
Qed.

Lemma stampComponent_ok p2n dt m s comp :
  systemOf m s →
  addresses m (p2n !! pt_id (p1 comp)) → addresses m (p2n !! pt_id (p2 comp)) →
  ∃ s', stampComponent p2n dt s comp = Some s' ∧ systemOf m s'.
Proof.
  destruct s as [A Z]. intros [HA HZ] H1 H2. simpl in HA, HZ.
  unfold stampComponent.
  destruct (isType comp BATTERY); [by exists (A, Z)|].
  case_bool_decide; [by exists (A, Z)|].
  destruct (nortonModel comp dt) as [g i]. unfold stampNorton.
  destruct (addConductance_ok m _ _ g A HA H1 H2) as (A' & -> & HA'). simpl.
  destruct (strictNe i 0); [|by exists (A', Z)].
  destruct (addCurrentSource_ok m _ _ i Z HZ H1 H2) as (Z' & -> & HZ'). simpl.
  by exists (A', Z').
Qed.

Lemma stampVoltageSource_ok p2n nodeCount m s idx comp :
  systemOf m s →
  addresses m (p2n !! pt_id (p1 comp)) → addresses m (p2n !! pt_id (p2 comp)) →
  ((nodeCount - 1) + idx < m)%nat →
  ∃ s', stampVoltageSource p2n nodeCount s idx comp = Some s' ∧ systemOf m s'.
Proof.
  destruct s as [A Z]. intros [HA HZ] H1 H2 Hv. simpl in HA, HZ.
  unfold stampVoltageSource, mset, vset, addresses in *.
  destruct (isNonGround (p2n !! pt_id (p1 comp))),
           (isNonGround (p2n !! pt_id (p2 comp))); simpl;
    repeat in_range m; (eexists; split; [done|by split]).
Qed.

Lemma voltageSources_lookup components k v :
  voltageSources components !! k = Some v → v ∈ components ∧ c_type v = BATTERY.
Proof.
  intros Hk%list_elem_of_lookup_2. unfold voltageSources in Hk.
  by apply list_elem_of_filter in Hk as [? ?].
Qed.

(** Assembly succeeds and yields an [m]×[m] system, [m = mSize], whenever
    every node index is below [nodeCount]. *)
Lemma assemble_ok p2n nodeCount dt components :
  (∀ i k, p2n !! i = Some k → (k < nodeCount)%nat) →
  ∃ s, assemble p2n nodeCount dt components = Some s
       ∧ systemOf (mSize nodeCount components) s.
Proof.
  intros Hb. unfold assemble.
  set (m := mSize nodeCount components).
  assert (nodeCount - 1 ≤ m)%nat as Hm by (unfold m, mSize; lia).
  destruct (foldM_invariant (systemOf m) (λ _, True) (stampComponent p2n dt)
              components (zeroMatrix m, zeroVector m)) as (s1 & -> & Hs1).
  - by apply Forall_true.
  - intros s a _ Hs.
    apply stampComponent_ok; [done|by eapply addresses_bound..].
  - split; simpl; [apply zeroMatrix_square|].
    unfold zeroVector. by rewrite length_replicate.
  - simpl.
    apply (foldMi_invariant (systemOf m)
             (λ i _, (i < length (voltageSources components))%nat)).
    + intros k a Hk. simpl. by apply lookup_lt_Some in Hk.
    + intros s i a Hi Hs.
      apply stampVoltageSource_ok; [done|by eapply addresses_bound..|].
      unfold m, mSize. lia.
    + done.
Qed.

(** ** Gaussian elimination stays within the [n]×[n] system *)

Lemma findPivot_ok n M i :
  squareOf n M → (i < n)%nat →
  ∃ maxRow, findPivot M i n = Some maxRow ∧ (maxRow < n)%nat.
Proof.
  intros HM Hi. unfold findPivot.
  apply (foldM_invariant (λ r, (r < n)%nat) (λ k, (S i ≤ k < n)%nat));
    [apply range_Forall| |done].
  intros r k Hk Hr. unfold pivotStep.
  destruct (mget_ok n M k i) as [a ->]; [done|lia|done|].
  destruct (mget_ok n M r i) as [c ->]; [done..|]. simpl.
  eexists. split; [done|]. case_match; lia.
Qed.

Lemma exchange_ok n s i :
  systemOf n s → (i < n)%nat →
  ∃ s', exchange n s i = Some s' ∧ systemOf n s'.
Proof.
  destruct s as [M x]. intros [HM Hx] Hi. simpl in HM, Hx. unfold exchange.
  destruct (findPivot_ok n M i HM Hi) as (r & -> & Hr). simpl.
  destruct HM as [HMlen HMrows].
  destruct (swap_ok M i r) as (M1 & -> & HM1 & HM1rows); [lia..|].
  destruct (swap_ok x i r) as (x1 & -> & Hx1 & _); [lia..|]. simpl.
  exists (M1, x1). split; [done|]. split; simpl; [|lia]. split; [lia|].
  apply list.Forall_forall. intros row Hrow%HM1rows.
  by apply (proj1 (list.Forall_forall _ _) HMrows).
Qed.

Lemma eliminateEntries_ok n i k factor M :
  squareOf n M → (i < n)%nat → (k < n)%nat →
  ∃ M', foldM (eliminateEntry i k factor) M (range i n) = Some M'
        ∧ squareOf n M'.
Proof.
  intros HM Hi Hk.
  apply (foldM_invariant (squareOf n) (λ j, (i ≤ j < n)%nat));
    [apply range_Forall| |done].
  intros M0 j Hj HM0. unfold eliminateEntry.
  destruct (mget_ok n M0 i j) as [a ->]; [done|done|lia|]. simpl.
  apply mupd_ok; [done|done|lia].
Qed.

Lemma eliminateRow_ok n i s k :
  systemOf n s → (i < n)%nat → (k < n)%nat →
  ∃ s', eliminateRow i n s k = Some s' ∧ systemOf n s'.
Proof.
  destruct s as [M x]. intros [HM Hx] Hi Hk. simpl in HM, Hx.
  unfold eliminateRow, vget.
  destruct (mget_ok n M k i) as [a ->]; [done..|].
  destruct (mget_ok n M i i) as [c ->]; [done..|]. simpl.
  destruct (lookup_lt_is_Some_2 x i) as [xi ->]; [lia|]. simpl.
  destruct (vupd_ok n x k (λ a0, a0 - a / c * xi) Hx Hk) as (x' & -> & Hx').
  simpl.
  destruct (eliminateEntries_ok n i k (a / c) M HM Hi Hk) as (M' & -> & HM').
  simpl. by exists (M', x').
Qed.

Lemma eliminateColumn_ok n s i :
  systemOf n s → (i < n)%nat →
  ∃ s', eliminateColumn n s i = Some s' ∧ systemOf n s'.
Proof.
  intros Hs Hi. unfold eliminateColumn.
  destruct (exchange_ok n s i Hs Hi) as (s1 & -> & Hs1). simpl.
  destruct (mget_ok n s1.1 i i) as [d ->]; [apply Hs1|done..|]. simpl.
  case_match; [by exists s1|].
  apply (foldM_invariant (systemOf n) (λ k, (S i ≤ k < n)%nat));
    [apply range_Forall| |done].
  intros s0 k Hk Hs0. apply eliminateRow_ok; [done|done|lia].
Qed.

Lemma forwardElimination_ok n A b :
  systemOf n (A, b) →
  ∃ s, forwardElimination n A b = Some s ∧ systemOf n s.
Proof.
  intros Hs. unfold forwardElimination.
  apply (foldM_invariant (systemOf n) (λ i, (0 ≤ i < n)%nat));
    [apply range_Forall| |done].
  intros s0 i Hi Hs0. apply eliminateColumn_ok; [done|lia].
Qed.

Lemma dot_ok n M (result : vector) i :
  squareOf n M → length result = n → (i < n)%nat →
  is_Some (foldM (dotStep M result i) 0 (range (S i) n)).
Proof.
  intros HM Hr Hi.
  destruct (foldM_invariant (λ _, True) (λ j, (S i ≤ j < n)%nat)
              (dotStep M result i) (range (S i) n) 0) as (sum & Hsum & _);
    [apply range_Forall| |done|by exists sum].
  intros sum j Hj _. unfold dotStep, vget.
  destruct (mget_ok n M i j) as [a ->]; [done|done|lia|]. simpl.
  destruct (lookup_lt_is_Some_2 result j) as [rj ->]; [lia|]. simpl. eauto.
Qed.

(** One step of back substitution: it succeeds, keeps the length, touches
    only entry [i], and leaves entry [i] alone when the diagonal is not
    above the tolerance. *)
Lemma backStep_ok n M x (result : vector) i :
  squareOf n M → length x = n → length result = n → (i < n)%nat →
  ∃ result', backStep n M x result i = Some result'
    ∧ length result' = n
    ∧ (∀ k, k ≠ i → result' !! k = result !! k)
    ∧ (∀ d, mget M i i = Some d → gt (PrimFloat.abs d) TOLERANCE = false →
            result' = result).
Proof.
  intros HM Hx Hr Hi. unfold backStep, vget, vset.
  destruct (dot_ok n M result i HM Hr Hi) as [sum ->]. simpl.
  destruct (mget_ok n M i i) as [d ->]; [done..|]. simpl.
  destruct (gt (PrimFloat.abs d) TOLERANCE) eqn:Hd.
  - destruct (lookup_lt_is_Some_2 x i) as [xi ->]; [lia|]. simpl.
    destruct (vupd_Some result i (λ _, (xi - sum) / d)) as (a & _ & ->); [lia|].
    eexists. split_and!; [done|by rewrite length_insert| |].
    + intros k Hk. by rewrite list_lookup_insert_ne.
    + intros d' [= <-]. congruence.
  - exists result. split_and!; done.
Qed.

Lemma backSubstitution_ok n M x :
  squareOf n M → length x = n →
  ∃ result, backSubstitution n M x = Some result
    ∧ length result = n
    ∧ ∀ i d, mget M i i = Some d → gt (PrimFloat.abs d) TOLERANCE = false →
             (i < n)%nat → result !! i = Some 0.
Proof.
  intros HM Hx. unfold backSubstitution.
  assert (∀ l (r0 : vector), Forall (λ i, (i < n)%nat) l → length r0 = n →
    ∃ r, foldM (backStep n M x) r0 l = Some r ∧ length r = n
      ∧ ∀ i d, mget M i i = Some d → gt (PrimFloat.abs d) TOLERANCE = false →
               r0 !! i = Some 0 → r !! i = Some 0) as Hloop.
  { induction l as [|k l IH]; intros r0 Hl Hr0; simpl.
    { exists r0. by split_and!. }
    apply list.Forall_cons in Hl as [Hk Hl].
    destruct (backStep_ok n M x r0 k HM Hx Hr0 Hk)
      as (r1 & -> & Hr1 & Hother & Hsame). simpl.
    destruct (IH r1 Hl Hr1) as (r & -> & Hr & Hzero).
    exists r. split_and!; [done..|].
    intros i d Hd Htol H0. apply (Hzero i d Hd Htol).
    destruct (decide (i = k)) as [->|Hne].
    - by rewrite (Hsame d Hd Htol).
    - by rewrite Hother. }
  destruct (Hloop (rev (range 0 n)) (zeroVector n)) as (r & -> & Hr & Hzero).
  - apply Forall_rev. eapply list.Forall_impl; [apply range_Forall|].
    simpl. intros; lia.
  - unfold zeroVector. by rewrite length_replicate.
  - exists r. split_and!; [done..|].
    intros i d Hd Htol Hi. apply (Hzero i d Hd Htol).
    unfold zeroVector. by apply lookup_replicate_2.
Qed.

Lemma gaussianElimination_ok n A b :
  systemOf n (A, b) →
  ∃ x, gaussianElimination A b = Some x ∧ length x = n.
Proof.
  intros Hs. pose proof Hs as [[HA _] _]. simpl in HA.
  unfold gaussianElimination. rewrite HA.
  case_bool_decide as Hn; [by exists []; subst|].
  destruct (forwardElimination_ok n A b Hs) as ([M x] & -> & HM & Hx). simpl.
  destruct (backSubstitution_ok n M x HM Hx) as (r & -> & Hr & _). by exists r.
Qed.

(** ** Result extraction fills both maps *)

Lemma foldl_keeps_keys {X V : Type} (f : gmap string V → X → gmap string V)
    (l : list X) (m : gmap string V) (k : string) :
  (∀ m x, is_Some (m !! k) → is_Some (f m x !! k)) →
  is_Some (m !! k) → is_Some (foldl f m l !! k).
Proof.
  intros Hf. revert m. induction l as [|x l IH]; intros m Hm; simpl; [done|].
  by apply IH, Hf.
Qed.

Lemma insert_keeps_key {V : Type} (m : gmap string V) (k k' : string) (v : V) :
  is_Some (m !! k) → is_Some (<[k' := v]> m !! k).
Proof.
  intros Hm. destruct (decide (k' = k)) as [->|Hne].
  - rewrite lookup_insert_eq. by eexists.
  - by rewrite lookup_insert_ne.
Qed.

Lemma recordPotentials_keeps p2n np pp c k :
  is_Some (pp !! k) → is_Some (recordPotentials p2n np pp c !! k).
Proof. intros Hk. unfold recordPotentials. by do 2 apply insert_keeps_key. Qed.

Lemma recordCurrent_keeps p2n np nodeCount dt vs x cc c k :
  is_Some (cc !! k) →
  is_Some (recordCurrent p2n np nodeCount dt vs x cc c !! k).
Proof.
  intros Hk. unfold recordCurrent. case_match; [|done].
  by apply insert_keeps_key.
Qed.

Lemma pointPotentials_covers p2n np components : ∀ pp c,
  c ∈ components →
  is_Some (foldl (recordPotentials p2n np) pp components !! pt_id (p1 c))
  ∧ is_Some (foldl (recordPotentials p2n np) pp components !! pt_id (p2 c)).
Proof.
  induction components as [|d l IH]; intros pp c Hc.
  { by apply elem_of_nil in Hc. }
  apply elem_of_cons in Hc as [->|Hc]; [|by apply IH].
  simpl. split; apply foldl_keeps_keys;
    try (intros; by apply recordPotentials_keeps); unfold recordPotentials.
  - apply insert_keeps_key. rewrite lookup_insert_eq. by eexists.
  - rewrite lookup_insert_eq. by eexists.
Qed.

(** A battery of the list is found among the voltage sources. *)
Lemma findIndex_battery components c :
  c ∈ components → c_type c = BATTERY →
  ∃ k v, findIndex (voltageSources components) (c_id c) = Some k
         ∧ voltageSources components !! k = Some v ∧ c_id v = c_id c.
Proof.
  intros Hc Hty. unfold findIndex.
  destruct (list_find_elem_of (λ v, c_id v = c_id c)
              (voltageSources components) c) as [[k v] Hfind].
  - unfold voltageSources. by apply list_elem_of_filter.
  - done.
  - rewrite Hfind. apply list_find_Some in Hfind as (Hk & Hid & _).
    by exists k, v.
Qed.

Lemma elementCurrent_is_Some nodeCount dt components x v1 v2 c :
  c ∈ components →
  is_Some (elementCurrent nodeCount dt (voltageSources components) x v1 v2 c).
Proof.
  intros Hc. unfold elementCurrent.
  destruct (c_type c) eqn:Hty; try by eexists.
  - destruct (findIndex_battery components c Hc Hty) as (k & v & -> & _).
    by eexists.
  - case_match; by eexists.
  - case_match; by eexists.
Qed.

Lemma componentCurrents_covers p2n np nodeCount dt components x : ∀ l cc c,
  c ∈ components → c ∈ l →
  is_Some (foldl (recordCurrent p2n np nodeCount dt
                    (voltageSources components) x) cc l !! c_id c).
Proof.
  induction l as [|d l IH]; intros cc c Hc Hl.
  { by apply elem_of_nil in Hl. }
  apply elem_of_cons in Hl as [->|Hl]; [|by apply IH].
  simpl. apply foldl_keeps_keys.
  { intros. by apply recordCurrent_keeps. }
  unfold recordCurrent.
  destruct (elementCurrent_is_Some nodeCount dt components x
              (potentialAt np (p2n !! pt_id (p1 d)))
              (potentialAt np (p2n !! pt_id (p2 d))) d Hc) as [i ->].
  rewrite lookup_insert_eq. by eexists.
Qed.

(** ** The pipeline as a whole *)

Lemma resolveTopology_ok components : topologyOk (resolveTopology components).
Proof. apply identifyNodes_ok, emptyTopology_ok. Qed.

Lemma pointsOf_p1 components c :
  c ∈ components → terminalOf (p1 c) (c_id c) ∈ pointsOf components.
Proof.
  intros Hc. unfold pointsOf. apply list_elem_of_In, in_flat_map.
  exists c. split; [by apply list_elem_of_In | by left].
Qed.

Lemma pointsOf_p2 components c :
  c ∈ components → terminalOf (p2 c) (c_id c) ∈ pointsOf components.
Proof.
  intros Hc. unfold pointsOf. apply list_elem_of_In, in_flat_map.
  exists c. split; [by apply list_elem_of_In | right; by left].
Qed.

(** Every terminal of every element is resolved to a node. *)
Lemma resolveTopology_covers components c :
  c ∈ components →
  is_Some (nodeOf (resolveTopology components) (pt_id (p1 c)))
  ∧ is_Some (nodeOf (resolveTopology components) (pt_id (p2 c))).
Proof.
  intros Hc. split.
  - apply (identifyNodes_covers _ _ (terminalOf (p1 c) (c_id c)));
      [apply emptyTopology_ok | by apply pointsOf_p1].
  - apply (identifyNodes_covers _ _ (terminalOf (p2 c) (c_id c)));
      [apply emptyTopology_ok | by apply pointsOf_p2].
Qed.

(** The guard [nodeCount === 0] fires exactly on the empty element list, so
    [nodeCount - 1] is never taken at [0]. *)
Lemma nodeCount_zero components :
  nodeCount (resolveTopology components) = 0%nat ↔ components = [].
Proof.
  split; [|by intros ->].
  destruct components as [|c l]; [done|]. intros Hz.
  destruct (resolveTopology_covers (c :: l) c) as [[n Hn] _]; [by left|].
  apply (ok_bound _ (resolveTopology_ok _)) in Hn. lia.
Qed.

(** Assembly and solution for the resolved topology of any element list. *)
Lemma pipeline_ok components dt :
  let topo := resolveTopology components in
  let m := mSize (nodeCount topo) components in
  ∃ A Z x,
    assemble (pointToNode topo) (nodeCount topo) dt components = Some (A, Z)
    ∧ systemOf m (A, Z)
    ∧ gaussianElimination A Z = Some x ∧ length x = m
    ∧ solveCircuit components dt =
        Some (if bool_decide (nodeCount topo = 0%nat) then mkResult ∅ ∅
              else extract (pointToNode topo) (nodeCount topo) dt components x).
Proof.
  intros topo m.
  destruct (assemble_ok (pointToNode topo) (nodeCount topo) dt components)
    as ([A Z] & HA & Hs).
  { apply (ok_bound _ (resolveTopology_ok components)). }
  destruct (gaussianElimination_ok m A Z Hs) as (x & Hx & Hlen).
  exists A, Z, x. split_and!; [done..|].
  unfold solveCircuit. fold topo. case_bool_decide; [done|].
  rewrite HA. simpl. by rewrite Hx.
Qed.

(** ** What a stamp does to the entries *)

Lemma vupd_lookup (v v' : vector) i f k :
  vupd v i f = Some v' →
  v' !! k = (if bool_decide (k = i) then f else λ a, a) <$> v !! k.
Proof.
  unfold vupd. destruct (v !! i) as [a|] eqn:Ha; simpl; [|done].
  intros [= <-]. case_bool_decide as Hk.
  - subst k. rewrite list_lookup_insert_eq by (by eapply lookup_lt_Some).
    by rewrite Ha.
  - rewrite list_lookup_insert_ne by done. by destruct (v !! k).
Qed.

Lemma isNonGround_row (n : nodeRef) k :
  n = Some (S k) ↔ isNonGround n = true ∧ rowOf n = k.
Proof.
  split.
  - by intros ->.
  - intros [Hn Hr]. destruct n as [[|j]|]; simpl in *; [done|by subst|done].
Qed.

Lemma guarded_vupd_lookup (n : nodeRef) (v v' : vector) f k :
  (if isNonGround n then vupd v (rowOf n) f else Some v) = Some v' →
  v' !! k = (if bool_decide (n = Some (S k)) then f else λ a, a) <$> v !! k.
Proof.
  destruct (isNonGround n) eqn:E; intros H.
  - rewrite (vupd_lookup _ _ _ _ k H).
    replace (bool_decide (k = rowOf n)) with (bool_decide (n = Some (S k)));
      [done|].
    apply bool_decide_ext. rewrite isNonGround_row. split.
    + by intros [_ <-].
    + by intros ->.
  - injection H as <-. rewrite bool_decide_eq_false_2; [by destruct (v !! k)|].
    intros [? _]%isNonGround_row. congruence.
Qed.

Lemma addCurrentSource_entries n1 n2 i (Z Z' : vector) k :
  addCurrentSource n1 n2 i Z = Some Z' →
  Z' !! k = sourced n1 n2 i k <$> Z !! k.
Proof.
  unfold addCurrentSource, sourced. intros H.
  destruct (if isNonGround n1 then vupd Z (rowOf n1) (λ a, a - i) else Some Z)
    as [Z1|] eqn:H1; [|done].
  simpl in H.
  rewrite (guarded_vupd_lookup n2 Z1 Z' _ k H).
  rewrite (guarded_vupd_lookup n1 Z Z1 _ k H1).
  destruct (Z !! k); simpl; [|done]. by repeat case_bool_decide.
Qed.

(** ** The [|| 0] guard *)

(** On a number that is not [NaN], [v || 0] is numerically [v]: the guard only
    turns [-0] into [0]. *)
Lemma orNum_zero_numeric (v : number) :
  PrimFloat.is_nan v = false → PrimFloat.eqb (orNum (Some v) 0) v = true.
Proof.
  intros Hnan. unfold orNum, truthy. rewrite Hnan, orb_false_r.
  destruct (PrimFloat.eqb v 0) eqn:Hz; simpl.
  - rewrite FloatAxioms.eqb_spec in Hz. rewrite FloatAxioms.eqb_spec.
    change (Prim2SF 0) with (S754_zero false) in *.
    destruct (Prim2SF v) as [[]|[]| |[] mant e];
      (reflexivity || (cbv in Hz; discriminate)).
  - unfold PrimFloat.is_nan in Hnan. by apply negb_false_iff in Hnan.
Qed.

(** ** What result extraction stores *)

Lemma NoDup_fmap_eq {X Y : Type} (f : X → Y) (l : list X) (a b : X) :
  NoDup (f <$> l) → a ∈ l → b ∈ l → f a = f b → a = b.
Proof.
  intros Hnd [ia Ha]%list_elem_of_lookup [ib Hb]%list_elem_of_lookup Hf.
  assert (ia = ib) as ->; [|congruence].
  eapply NoDup_lookup; [exact Hnd| |];
    rewrite list_lookup_fmap; [by rewrite Ha | by rewrite Hb, Hf].
Qed.

Lemma recordCurrent_other p2n np nodeCount dt vs x l : ∀ cc id,
  id ∉ c_id <$> l →
  foldl (recordCurrent p2n np nodeCount dt vs x) cc l !! id = cc !! id.
Proof.
  induction l as [|d l IH]; intros cc id Hid; simpl; [done|].
  rewrite fmap_cons in Hid. apply not_elem_of_cons in Hid as [Hd Hl].
  rewrite IH by done. unfold recordCurrent. case_match; [|done].
  by rewrite lookup_insert_ne.
Qed.

(** With unique element ids, the stored current of an element is the one
    computed at its own turn. *)
Lemma componentCurrents_lookup p2n np nodeCount dt vs x l : ∀ cc c i,
  NoDup (c_id <$> l) → c ∈ l →
  elementCurrent nodeCount dt vs x
    (potentialAt np (p2n !! pt_id (p1 c)))
    (potentialAt np (p2n !! pt_id (p2 c))) c = Some i →
  foldl (recordCurrent p2n np nodeCount dt vs x) cc l !! c_id c = Some i.
Proof.
  induction l as [|d l IH]; intros cc c i Hnd Hc Hi.
  { by apply elem_of_nil in Hc. }
  rewrite fmap_cons in Hnd. apply list.NoDup_cons in Hnd as [Hd Hnd].
  apply elem_of_cons in Hc as [->|Hc]; simpl.
  - rewrite recordCurrent_other by done. unfold recordCurrent.
    by rewrite Hi, lookup_insert_eq.
  - by apply IH.
Qed.

(** Every stored terminal potential is the potential of the terminal's
    node. *)
Lemma pointPotentials_value p2n np l : ∀ pp id v,
  (∀ id v, pp !! id = Some v → v = potentialAt np (p2n !! id)) →
  foldl (recordPotentials p2n np) pp l !! id = Some v →
  v = potentialAt np (p2n !! id).
Proof.
  induction l as [|d l IH]; intros pp id v Hpp; simpl; [by apply Hpp|].
  apply IH. intros id' v'. unfold recordPotentials.
  destruct (decide (pt_id (p2 d) = id')) as [<-|H2].
  { rewrite lookup_insert_eq. by intros [= <-]. }
  rewrite lookup_insert_ne by done.
  destruct (decide (pt_id (p1 d) = id')) as [<-|H1].
  { rewrite lookup_insert_eq. by intros [= <-]. }
  rewrite lookup_insert_ne by done. apply Hpp.
Qed.

Lemma pointPotentials_lookup p2n np components c :
  c ∈ components →
  foldl (recordPotentials p2n np) ∅ components !! pt_id (p1 c)
    = Some (potentialAt np (p2n !! pt_id (p1 c)))
  ∧ foldl (recordPotentials p2n np) ∅ components !! pt_id (p2 c)
    = Some (potentialAt np (p2n !! pt_id (p2 c))).
Proof.
  intros Hc.
  destruct (pointPotentials_covers p2n np components ∅ c Hc)
    as [[v1 H1] [v2 H2]].
  rewrite H1, H2.
  apply pointPotentials_value in H1, H2; try (intros ? ?; by rewrite lookup_empty).
  by subst.
Qed.

(** ** The heap: allocation is fresh, and only fresh cells are written *)

Lemma extends_refl h : extends h h.
Proof. by intros l _. Qed.

Lemma extends_dom h0 h : extends h0 h → dom h0 ⊆ dom h.
Proof.
  intros Hext l Hl. apply elem_of_dom. rewrite (Hext l Hl).
  by apply elem_of_dom.
Qed.

Lemma extends_trans h0 h1 h2 : extends h0 h1 → extends h1 h2 → extends h0 h2.
Proof.
  intros H01 H12 l Hl. rewrite <- (H01 l Hl). apply H12.
  by apply (extends_dom h0 h1).
Qed.

Lemma extends_insert h0 h l o :
  extends h0 h → l ∉ dom h0 → extends h0 (<[l := o]> h).
Proof.
  intros Hext Hl l' Hl'. rewrite lookup_insert_ne; [by apply Hext|].
  by intros ->.
Qed.

Lemma extends_lookup h0 h l o : extends h0 h → h0 !! l = Some o → h !! l = Some o.
Proof.
  intros Hext Hl. rewrite Hext; [done|]. apply elem_of_dom. by eexists.
Qed.

(** Reads of the input see the same objects in every extension. *)
Lemma readComponent_extends h0 h l c :
  extends h0 h → readComponent h0 l = Some c → readComponent h l = Some c.
Proof.
  intros Hext. unfold readComponent, readPoint, readProperties.
  destruct (h0 !! l) as [[]|] eqn:Hl; try done.
  rewrite (extends_lookup _ _ _ _ Hext Hl).
  repeat match goal with
  | |- context [h0 !! ?k] =>
      let E := fresh "E" in
      destruct (h0 !! k) as [[]|] eqn:E; try done;
      rewrite (extends_lookup _ _ _ _ Hext E)
  end.
  done.
Qed.

Lemma readRefs_extends h0 h a refs :
  extends h0 h → readRefs h0 a = Some refs → readRefs h a = Some refs.
Proof.
  intros Hext. unfold readRefs.
  destruct (h0 !! a) as [[]|] eqn:Hl; try done.
  by rewrite (extends_lookup _ _ _ _ Hext Hl).
Qed.

Lemma readComponents_extends h0 h a comps :
  extends h0 h → readComponents h0 a = Some comps →
  readComponents h a = Some comps.
Proof.
  intros Hext. unfold readComponents.
  destruct (readRefs h0 a) as [refs|] eqn:Hrefs; [|done]. simpl.
  rewrite (readRefs_extends _ _ _ _ Hext Hrefs). simpl.
  rewrite !mapM_Some. apply Forall2_impl.
  intros l c. by apply readComponent_extends.
Qed.

Lemma step_ret {X : Type} h0 (x : X) h (P : X → heap → Prop) :
  extends h0 h → P x h → finishes h0 (mret x) h P.
Proof. intros Hext HP. by exists x, h. Qed.

Lemma step_alloc {X : Type} h0 o (k : loc → Heap X) h P :
  extends h0 h →
  (∀ l, l ∉ dom h → l ∉ dom h0 → extends h0 (<[l := o]> h) →
        finishes h0 (k l) (<[l := o]> h) P) →
  finishes h0 (alloc o ≫= k) h P.
Proof.
  intros Hext Hk.
  assert (fresh (dom h) ∉ dom h) as Hfresh by apply is_fresh.
  assert (fresh (dom h) ∉ dom h0) as Hfresh0.
  { intros Hin. by apply Hfresh, (extends_dom h0 h). }
  apply (Hk _ Hfresh Hfresh0). by apply extends_insert.
Qed.

Lemma step_store {X : Type} h0 l o (k : unit → Heap X) h P :
  extends h0 h → l ∉ dom h0 →
  (extends h0 (<[l := o]> h) → finishes h0 (k tt) (<[l := o]> h) P) →
  finishes h0 (store l o ≫= k) h P.
Proof. intros Hext Hl Hk. by apply Hk, extends_insert. Qed.

Lemma step_view {X Y : Type} h0 (f : heap → option Y) (k : Y → Heap X) h P y :
  f h = Some y → finishes h0 (k y) h P → finishes h0 (view f ≫= k) h P.
Proof.
  intros Hf (x & h' & Hk & HP). exists x, h'. split; [|done].
  unfold mbind, Heap_bind, view. by rewrite Hf.
Qed.

Lemma step_lift {X Y : Type} h0 (o : option Y) (k : Y → Heap X) h P y :
  o = Some y → finishes h0 (k y) h P → finishes h0 (lift o ≫= k) h P.
Proof. intros ->. by apply step_view. Qed.

Lemma step_seq {X Y : Type} h0 (c : Heap Y) (k : Y → Heap X) h Q P :
  finishes h0 c h Q →
  (∀ y h1, extends h0 h1 → Q y h1 → finishes h0 (k y) h1 P) →
  finishes h0 (c ≫= k) h P.
Proof.
  intros (y & h1 & Hc & Hext & HQ) Hk.
  destruct (Hk y h1 Hext HQ) as (x & h' & Hrun & HP).
  exists x, h'. split; [|done]. unfold mbind, Heap_bind. by rewrite Hc.
Qed.

Lemma allocAll_finishes h0 os : ∀ h,
  extends h0 h → finishes h0 (allocAll os) h (λ _ _, True).
Proof.
  induction os as [|o os IH]; intros h Hext; simpl.
  - by apply step_ret.
  - apply step_alloc; [done|]. intros l _ _ Hext1.
    eapply step_seq; [by apply IH|].
    intros ls h1 Hext2 _. by apply step_ret.
Qed.

Lemma lookup_insert_fresh (h : heap) l l' o o' :
  l' ∉ dom (<[l := o]> h) → <[l' := o']> (<[l := o]> h) !! l = Some o.
Proof.
  intros Hfresh. rewrite lookup_insert_ne, lookup_insert_eq; [done|].
  intros ->. apply Hfresh. rewrite dom_insert_L. set_solver.
Qed.

(** [gaussianElimination] on the heap writes only its own copies and
    returns a new vector holding the solution. *)
Lemma gaussianEliminationH_finishes h0 A b h MA vb :
  extends h0 h →
  readMatrix h A = Some MA → readVector h b = Some vb →
  systemOf (length MA) (MA, vb) →
  finishes h0 (gaussianEliminationH A b) h
    (λ xL h', ∃ x, gaussianElimination MA vb = Some x
                   ∧ readVector h' xL = Some x).
Proof.
  intros Hext HA Hb Hs. unfold gaussianEliminationH.
  eapply step_view; [exact HA|]. eapply step_view; [exact Hb|].
  unfold gaussianElimination. case_bool_decide as Hn.
  - replace (alloc (OVector [])) with (alloc (OVector []) ≫= mret) by done.
    apply step_alloc; [done|]. intros l _ _ Hext1.
    apply step_ret; [done|]. exists []. split; [done|].
    unfold readVector. by rewrite lookup_insert_eq.
  - destruct (forwardElimination_ok _ MA vb Hs) as ([M x] & Hfw & HM & Hx).
    destruct (backSubstitution_ok _ M x HM Hx) as (r & Hback & _).
    apply step_alloc; [done|]. intros lM _ HlM Hext1.
    apply step_alloc; [done|]. intros lx _ Hlx Hext2.
    eapply step_lift; [exact Hfw|]. simpl.
    apply step_store; [done|done|]. intros Hext3.
    apply step_store; [done|done|]. intros Hext4.
    apply step_alloc; [done|]. intros lr _ Hlr Hext5.
    eapply step_lift; [exact Hback|].
    apply step_store; [done|done|]. intros Hext6.
    apply step_ret; [done|]. exists r. split.
    + rewrite Hfw. simpl. exact Hback.
    + unfold readVector. by rewrite lookup_insert_eq.
Qed.

(** * The properties of the specification *)

(** C2. The system assembled for any element list has exactly
    [m = (nodeCount - 1) + (number of Battery elements)] unknowns: [A] is
    [m]×[m], [Z] has length [m], and the solution vector handed to result
    extraction has length [m]. *)
Theorem C2_system_size (components : list CircuitComponent) (dt : number) :
  let topo := resolveTopology components in
  let m := ((nodeCount topo - 1)
            + length (filter (λ c, c_type c = BATTERY) components))%nat in
  ∃ A Z x,
    assemble (pointToNode topo) (nodeCount topo) dt components = Some (A, Z)
    ∧ length A = m ∧ Forall (λ row, length row = m) A ∧ length Z = m
    ∧ gaussianElimination A Z = Some x ∧ length x = m
    ∧ (components ≠ [] →
       solveCircuit components dt =
         Some (extract (pointToNode topo) (nodeCount topo) dt components x)).
Proof.
  intros topo m.
  destruct (pipeline_ok components dt)
    as (A & Z & x & HA & [[HlenA Hrows] HZ] & Hx & Hlen & Hsolve).
  exists A, Z, x. split_and!; try done.
  intros Hne. rewrite Hsolve. rewrite bool_decide_eq_false_2; [done|].
  by rewrite nodeCount_zero.
Qed.

Lemma pointsOf_order components n comp :
  components !! n = Some comp →
  pointsOf components !! (2 * n)%nat = Some (terminalOf (p1 comp) (c_id comp))
  ∧ pointsOf components !! (2 * n + 1)%nat
    = Some (terminalOf (p2 comp) (c_id comp)).
Proof.
  revert n. induction components as [|c l IH]; intros n Hn; [done|].
  destruct n as [|n]; simpl in *.
  - by injection Hn as ->.
  - replace (n + S (n + 0))%nat with (S (2 * n)) by lia.
    replace (n + S (n + 0) + 1)%nat with (S (2 * n + 1)) by lia.
    simpl. by apply IH.
Qed.

(** C3. Terminals are processed in element order, [p1] before [p2].  A
    terminal [a] that no earlier terminal shares a node with is the
    representative that opened its node; a later terminal [c] is in that node
    exactly when it is strictly within the snap distance of [a] itself and was
    not taken by an earlier node.  Membership is not transitive: if [c] is
    within the snap distance of a member [b] of the node of [a] but not of
    [a], then [c] is not in the node of [a].  Terminal ids are unique, as
    [types.ts] requires. *)
Theorem C3_representative_clustering
    (components : list CircuitComponent) (i j : nat) (a c : TerminalRef) :
  let points := pointsOf components in
  let topo := resolveTopology components in
  NoDup (t_id <$> points) →
  (i < j)%nat → points !! i = Some a → points !! j = Some c →
  (∀ h b, (h < i)%nat → points !! h = Some b →
          nodeOf topo (t_id b) ≠ nodeOf topo (t_id a)) →
  (∀ n comp, components !! n = Some comp →
     points !! (2 * n)%nat = Some (terminalOf (p1 comp) (c_id comp))
     ∧ points !! (2 * n + 1)%nat = Some (terminalOf (p2 comp) (c_id comp)))
  ∧ (nodeOf topo (t_id c) = nodeOf topo (t_id a)
     ↔ snaps a c = true
       ∧ ∀ h b, (h < i)%nat → points !! h = Some b →
                nodeOf topo (t_id b) ≠ nodeOf topo (t_id c))
  ∧ (∀ k b, points !! k = Some b →
            nodeOf topo (t_id b) = nodeOf topo (t_id a) →
            snaps b c = true → snaps a c = false →
            nodeOf topo (t_id c) ≠ nodeOf topo (t_id a)).
Proof.
  intros points topo Hnd Hij Ha Hc Hfirst.
  assert (nodeOf topo (t_id c) = nodeOf topo (t_id a)
          ↔ snaps a c = true
            ∧ ∀ h b, (h < i)%nat → points !! h = Some b →
                     nodeOf topo (t_id b) ≠ nodeOf topo (t_id c)) as Hiff.
  { pose proof (identifyNodes_member points emptyTopology i j a c
                  emptyTopology_ok Hnd Hij Ha Hc (lookup_empty _) Hfirst)
      as Hm.
    split.
    - intros Hsame. by apply Hm in Hsame as (? & _ & ?).
    - intros [Hnear Hprev]. apply Hm. split_and!; [done| |done].
      apply lookup_empty. }
  split_and!; [apply pointsOf_order | done |].
  intros k b _ _ _ Hfar Hsame. apply Hiff in Hsame as [Hnear _]. congruence.
Qed.

(** C4. Gaussian elimination never fails on an [n]×[n] system, singular or
    not: every column step succeeds; when the pivot after the row exchange is
    below [1e-10] in magnitude the column step returns the exchanged system
    without eliminating; and back substitution returns [0] for every unknown
    whose final diagonal entry is not above [1e-10] in magnitude. *)
Theorem C4_elimination_tolerates_singular (A : matrix) (b : vector) :
  let n := length A in
  squareOf n A → length b = n →
  (∀ s i, systemOf n s → (i < n)%nat →
     ∃ s1 d, exchange n s i = Some s1 ∧ mget s1.1 i i = Some d
       ∧ is_Some (eliminateColumn n s i)
       ∧ (lt (PrimFloat.abs d) 1e-10 = true → eliminateColumn n s i = Some s1))
  ∧ ∃ M x result,
      forwardElimination n A b = Some (M, x)
      ∧ backSubstitution n M x = Some result
      ∧ gaussianElimination A b = Some result
      ∧ length result = n
      ∧ ∀ i d, (i < n)%nat → mget M i i = Some d →
               gt (PrimFloat.abs d) 1e-10 = false → result !! i = Some 0.
Proof.
  intros n HA Hb. split.
  - intros s i Hs Hi.
    destruct (exchange_ok n s i Hs Hi) as (s1 & Hex & Hs1).
    destruct (mget_ok n s1.1 i i) as [d Hd]; [apply Hs1|done..|].
    destruct (eliminateColumn_ok n s i Hs Hi) as (s' & Hs' & _).
    exists s1, d. split_and!; [done|done|by eexists|].
    intros Hsmall. unfold eliminateColumn. rewrite Hex. simpl.
    rewrite Hd. simpl. unfold TOLERANCE. by rewrite Hsmall.
  - destruct (forwardElimination_ok n A b) as ([M x] & Hfw & HM & Hx);
      [by split|]. simpl in HM, Hx.
    destruct (backSubstitution_ok n M x HM Hx) as (r & Hback & Hr & Hzero).
    exists M, x, r. split_and!; [done|done| |done|].
    + unfold gaussianElimination. fold n. case_bool_decide as Hn.
      * rewrite Hn in Hback. unfold backSubstitution in Hback.
        simpl in Hback. by rewrite <- Hback.
      * rewrite Hfw. simpl. done.
    + intros i d Hi Hd Htol. by apply (Hzero i d).
Qed.

(** C5. The current reported for each element of a solved circuit, [v1] and
    [v2] being the reported potentials of its terminals: a Battery's is read
    from its voltage-source unknown [x[(nodeCount - 1) + k]], [k] its position
    among the batteries (it equals the unknown whenever that is a number, the
    [|| 0] of the source turning [NaN] into [0]); a
    Capacitor's is [(C/dt) * ((v1 - v2) - Vprev)] when [dt > 0] and [0]
    otherwise; an Inductor's is [Iprev + (v1 - v2) * (dt/L)] when [dt > 0] and
    [(v1 - v2) / 1e-6] otherwise; every other element's is [(v1 - v2) / R]
    with [R = 1e-6] for wire, ammeter and closed switch, [1e9] for open switch
    and voltmeter, and the configured resistance (default [10]) for resistor
    and lightbulb.  Element ids are unique. *)
Theorem C5_element_currents
    (components : list CircuitComponent) (dt : number) (comp : CircuitComponent) :
  let topo := resolveTopology components in
  let C := orNum (capacitance (properties comp)) 0.0001 in
  let L := orNum (inductance (properties comp)) 1 in
  let Vprev := orNum (prevP1Potential comp) 0 - orNum (prevP2Potential comp) 0 in
  let Iprev := orNum (prevCurrent comp) 0 in
  let R := match c_type comp with
           | RESISTOR | LIGHTBULB => orNum (resistance (properties comp)) 10
           | SWITCH => match isOpen (properties comp) with
                       | Some true => 1e9
                       | _ => 1e-6
                       end
           | VOLTMETER => 1e9
           | _ => 1e-6
           end in
  NoDup (c_id <$> components) → comp ∈ components →
  ∃ A Z x r v1 v2,
    assemble (pointToNode topo) (nodeCount topo) dt components = Some (A, Z)
    ∧ gaussianElimination A Z = Some x
    ∧ solveCircuit components dt = Some r
    ∧ pointPotentials r !! pt_id (p1 comp) = Some v1
    ∧ pointPotentials r !! pt_id (p2 comp) = Some v2
    ∧ match c_type comp with
      | BATTERY =>
          ∃ k u i, voltageSources components !! k = Some comp
                   ∧ x !! ((nodeCount topo - 1) + k)%nat = Some u
                   ∧ componentCurrents r !! c_id comp = Some i
                   ∧ i = (if truthy u then u else 0)
                   ∧ (PrimFloat.is_nan u = false → PrimFloat.eqb i u = true)
      | CAPACITOR =>
          componentCurrents r !! c_id comp
          = Some (if gt dt 0 then (C / dt) * ((v1 - v2) - Vprev) else 0)
      | INDUCTOR =>
          componentCurrents r !! c_id comp
          = Some (if gt dt 0 then Iprev + (v1 - v2) * (dt / L)
                  else (v1 - v2) / 1e-6)
      | _ => componentCurrents r !! c_id comp = Some ((v1 - v2) / R)
      end.
Proof.
  intros topo C L Vprev Iprev R Hnd Hc.
  destruct (pipeline_ok components dt)
    as (A & Z & x & HA & Hs & Hx & Hlen & Hsolve).
  fold topo in HA, Hs, Hlen, Hsolve.
  assert (nodeCount topo ≠ 0%nat) as Hnz.
  { unfold topo. rewrite nodeCount_zero. intros ->.
    by apply elem_of_nil in Hc. }
  rewrite (bool_decide_eq_false_2 _ Hnz) in Hsolve.
  set (np := nodePotentialsOf (nodeCount topo) x).
  destruct (pointPotentials_lookup (pointToNode topo) np components comp Hc)
    as [Hv1 Hv2].
  eexists A, Z, x, _, _, _. split_and!; [done|done|exact Hsolve|exact Hv1|exact Hv2|].
  assert (∀ i, elementCurrent (nodeCount topo) dt (voltageSources components) x
                 (potentialAt np (pointToNode topo !! pt_id (p1 comp)))
                 (potentialAt np (pointToNode topo !! pt_id (p2 comp))) comp
               = Some i →
               componentCurrents
                 (extract (pointToNode topo) (nodeCount topo) dt components x)
                 !! c_id comp = Some i) as Hcur.
  { intros i Hi. simpl. by apply componentCurrents_lookup. }
  subst C L Vprev Iprev R.
  destruct (c_type comp) eqn:Hty;
    try (apply Hcur; unfold elementCurrent, effectiveResistance,
           switchResistance, vOld, INFINITE_RESISTANCE, EPSILON_RESISTANCE;
         rewrite Hty; by repeat case_match).
  destruct (findIndex_battery components comp Hc Hty) as (k & v & Hk & Hv & Hid).
  assert (v = comp) as ->.
  { apply (NoDup_fmap_eq c_id components); [done| |done|done].
    by apply voltageSources_lookup in Hv as [? _]. }
  destruct (lookup_lt_is_Some_2 x (nodeCount topo - 1 + k)) as [u Hu].
  { rewrite Hlen. unfold mSize. apply lookup_lt_Some in Hv. lia. }
  exists k, u, (orNum (Some u) 0). split_and!; [done|done| |done|].
  - apply Hcur. unfold elementCurrent. rewrite Hty, Hk. simpl. by rewrite Hu.
  - apply orNum_zero_numeric.
Qed.

(** C7. For every element list and every [dt], [solveCircuit] returns a
    result (no access leaves an array, nothing throws) holding a potential for
    the id of each terminal and a current for the id of each element; for the
    empty list both maps are empty. *)
Theorem C7_total_and_complete (components : list CircuitComponent) (dt : number) :
  ∃ r, solveCircuit components dt = Some r
    ∧ (∀ c, c ∈ components →
         is_Some (pointPotentials r !! pt_id (p1 c))
         ∧ is_Some (pointPotentials r !! pt_id (p2 c))
         ∧ is_Some (componentCurrents r !! c_id c))
    ∧ (components = [] → r = mkResult ∅ ∅).
Proof.
  destruct (pipeline_ok components dt)
    as (A & Z & x & _ & _ & _ & _ & Hsolve).
  eexists. split; [exact Hsolve|]. split.
  - intros c Hc. rewrite bool_decide_eq_false_2.
    2:{ rewrite nodeCount_zero. intros ->. by apply elem_of_nil in Hc. }
    simpl. split_and!.
    + by apply pointPotentials_covers.
    + by apply pointPotentials_covers.
    + by apply componentCurrents_covers.
  - by intros ->.
Qed.

Lemma vset_lookup (Z Z' : vector) i v :
  vset Z i v = Some Z' → Z' !! i = Some v.
Proof.
  intros H. unfold vset in H. rewrite (vupd_lookup _ _ _ _ i H).
  rewrite bool_decide_eq_true_2 by done.
  unfold vupd in H. by destruct (Z !! i).
Qed.

Lemma voltageSources_skip pre comp post :
  c_type comp ≠ BATTERY →
  voltageSources (pre ++ comp :: post) = voltageSources (pre ++ post).
Proof.
  intros Hnb. unfold voltageSources.
  by rewrite !list.filter_app, list.filter_cons_False.
Qed.

(** C8 (as amended). A non-Battery element whose two terminals resolve to the
    same node is skipped by assembly: its step leaves [A] and [Z] as they
    are, and it adds no voltage-source unknown.  Every Battery owns one
    unknown, whatever its terminals. *)
Theorem C8_self_loop_skipped
    (p2n : gmap string nat) (dt : number) (s : matrix * vector)
    (pre post : list CircuitComponent) (comp : CircuitComponent) :
  c_type comp ≠ BATTERY →
  p2n !! pt_id (p1 comp) = p2n !! pt_id (p2 comp) →
  stampComponent p2n dt s comp = Some s
  ∧ voltageSources (pre ++ comp :: post) = voltageSources (pre ++ post)
  ∧ (∀ nodeCount,
       mSize nodeCount (pre ++ comp :: post) = mSize nodeCount (pre ++ post))
  ∧ (∀ nodeCount bat, c_type bat = BATTERY →
       mSize nodeCount (pre ++ bat :: post)
       = S (mSize nodeCount (pre ++ post))).
Proof.
  intros Hnb Hloop. split_and!.
  - destruct s as [A Z]. unfold stampComponent, isType.
    rewrite (bool_decide_eq_false_2 _ Hnb).
    by rewrite (bool_decide_eq_true_2 _ Hloop).
  - by apply voltageSources_skip.
  - intros nodeCount. unfold mSize. by rewrite voltageSources_skip.
  - intros nodeCount bat Hbat. unfold mSize, voltageSources.
    rewrite !list.filter_app, list.filter_cons_True by done.
    rewrite !length_app. simpl. lia.
Qed.

(** ** The update-suppression gate *)

(** A value never differs from itself by more than the threshold, not even
    an infinity or a [NaN]. *)
Lemma no_self_difference (x : number) :
  gt (PrimFloat.abs (x - x)) CHANGE_THRESHOLD = false.
Proof.
  unfold gt, CHANGE_THRESHOLD. rewrite ltb_spec, abs_spec, sub_spec.
  destruct (Prim2SF x) as [sg|sg| |sg mant e].
  - by destruct sg.
  - by destruct sg.
  - reflexivity.
  - unfold SF64sub, SFsub. rewrite Z.sub_diag. reflexivity.
Qed.

Lemma differs_same c old :
  current c = current old → voltageDrop c = voltageDrop old →
  differs c old = false.
Proof.
  intros Hc Hv. unfold differs. by rewrite Hc, Hv, !no_self_difference.
Qed.

Lemma hasChanged_true (nextComps currentComps : list CircuitComponent) :
  hasChanged nextComps currentComps = true
  ↔ ∃ i c old, nextComps !! i = Some c ∧ currentComps !! i = Some old
               ∧ differs c old = true.
Proof.
  unfold hasChanged. rewrite existsb_exists. split.
  - intros ([c old] & Hin & Hd).
    apply list_elem_of_In, list_elem_of_lookup in Hin as [i Hi].
    apply lookup_zip_with_Some in Hi as (c' & old' & [= <- <-] & Hc & Hold).
    by exists i, c, old.
  - intros (i & c & old & Hc & Hold & Hd). exists (c, old). split; [|done].
    apply list_elem_of_In, list_elem_of_lookup. exists i.
    apply lookup_zip_with_Some. by exists c, old.
Qed.

Lemma hasChanged_same (nextComps currentComps : list CircuitComponent) :
  Forall2 (λ c old, current c = current old ∧ voltageDrop c = voltageDrop old)
          nextComps currentComps →
  hasChanged nextComps currentComps = false.
Proof.
  intros Hsame. apply not_true_is_false.
  intros (i & c & old & Hc & Hold & Hd)%hasChanged_true.
  destruct (Forall2_lookup_lr _ _ _ _ _ _ Hsame Hc Hold) as [H1 H2].
  by rewrite differs_same in Hd.
Qed.

Lemma nextComponents_total comps : is_Some (nextComponents comps).
Proof.
  unfold nextComponents.
  destruct (pipeline_ok comps SIMULATION_DT)
    as (A & Z & x & _ & _ & _ & _ & ->).
  by eexists.
Qed.

(** A run that does not commit leaves the list as it was, so every later run
    sees the same input and does not commit either. *)
Lemma run_quiescent comps k :
  tick comps = Some (comps, false) →
  run k comps = Some (comps, replicate k false).
Proof.
  intros Htick. induction k as [|k IH]; simpl; [done|].
  rewrite Htick. simpl. by rewrite IH.
Qed.

(** C6. A run of the loop commits the updated element list exactly when some
    element's [current] or [voltageDrop] differs from its value before the
    run by more than [1e-4] in magnitude, and otherwise leaves the list
    untouched; on a converged circuit, whose recomputed currents and voltage
    drops are the stored ones, no number of consecutive runs commits. *)
Theorem C6_update_gate (comps : list CircuitComponent) :
  ∃ nextComps,
    nextComponents comps = Some nextComps
    ∧ tick comps = Some (if hasChanged nextComps comps then (nextComps, true)
                         else (comps, false))
    ∧ (hasChanged nextComps comps = true
       ↔ ∃ i c old,
           nextComps !! i = Some c ∧ comps !! i = Some old
           ∧ (gt (PrimFloat.abs (current c - current old)) 0.0001 = true
              ∨ gt (PrimFloat.abs (voltageDrop c - voltageDrop old)) 0.0001
                = true))
    ∧ (Forall2 (λ c old, current c = current old
                         ∧ voltageDrop c = voltageDrop old) nextComps comps →
       ∀ k, run k comps = Some (comps, replicate k false)).
Proof.
  destruct (nextComponents_total comps) as [nextComps Hnext].
  assert (tick comps = Some (if hasChanged nextComps comps
                             then (nextComps, true) else (comps, false)))
    as Htick.
  { unfold tick. rewrite Hnext. simpl. by case_match. }
  exists nextComps. split_and!; [done|done| |].
  - rewrite hasChanged_true. unfold differs, CHANGE_THRESHOLD.
    split; intros (i & c & old & Hc & Hold & Hd); exists i, c, old;
      (split_and!; [done|done|]).
    + by apply orb_true_iff in Hd.
    + by apply orb_true_iff.
  - intros Hsame k. apply run_quiescent.
    by rewrite Htick, hasChanged_same.
Qed.

(** C10. [solveCircuit] does not mutate its input.  Run on any heap that
    holds a well-formed element array, the solver returns; every cell the
    heap had before the call (the array, each element object, its points,
    its property bag, and anything else) has the same content afterwards, so
    the element list read back is the same; the only cells written are cells
    the call allocated; and the results are the contents of the two returned
    maps, which are new objects. *)
Theorem C10_input_untouched
    (h : heap) (components : loc) (dt : number)
    (comps : list CircuitComponent) :
  readComponents h components = Some comps →
  ∃ pp cc h' r,
    solveCircuitH components dt h = Some ((pp, cc), h')
    ∧ (∀ l, l ∈ dom h → h' !! l = h !! l)
    ∧ readComponents h' components = Some comps
    ∧ (pp ∉ dom h) ∧ (cc ∉ dom h)
    ∧ solveCircuit comps dt = Some r
    ∧ h' !! pp = Some (ONumberMap (pointPotentials r))
    ∧ h' !! cc = Some (ONumberMap (componentCurrents r)).
Proof.
  intros Hread.
  assert (finishes h (solveCircuitH components dt) h
            (λ res h', (res.1 ∉ dom h) ∧ (res.2 ∉ dom h)
               ∧ ∃ r, solveCircuit comps dt = Some r
                      ∧ h' !! res.1 = Some (ONumberMap (pointPotentials r))
                      ∧ h' !! res.2 = Some (ONumberMap (componentCurrents r))))
    as ([pp cc] & h' & Hrun & Hext & Hpp & Hcc & r & Hr & Hp & Hc).
  2:{ exists pp, cc, h', r. split_and!; try done.
      by apply (readComponents_extends h). }
  pose proof (extends_refl h) as Hext.
  assert (∃ refs, readRefs h components = Some refs) as [refs Hrefs].
  { unfold readComponents in Hread.
    destruct (readRefs h components); [by eexists | done]. }
  unfold solveCircuitH.
  apply step_alloc; [done|]. intros points _ Hpoints Hext1.
  eapply step_view; [by apply (readComponents_extends h)|].
  eapply step_seq; [by apply allocAll_finishes|].
  intros terminals h1 Hext2 _.
  apply step_store; [done|done|]. intros Hext3.
  apply step_alloc; [done|]. intros p2nL _ Hp2nL Hext4.
  apply step_alloc; [done|]. intros locsL _ HlocsL Hext5.
  apply step_alloc; [done|]. intros asgL _ HasgL Hext6.
  apply step_store; [done|done|]. intros Hext7.
  apply step_store; [done|done|]. intros Hext8.
  apply step_store; [done|done|]. intros Hext9.
  destruct (pipeline_ok comps dt)
    as (A & Z & x & HA & Hs & Hx & Hlen & Hsolve).
  case_bool_decide as Hzero.
  - apply step_alloc; [done|]. intros pp Hpp_fresh Hpp Hext10.
    apply step_alloc; [done|]. intros cc Hcc_fresh Hcc Hext11.
    apply step_ret; [done|]. simpl. split_and!; [done..|].
    eexists. split_and!; [exact Hsolve| |].
    + by rewrite lookup_insert_fresh.
    + by rewrite lookup_insert_eq.
  - eapply step_view; [by apply (readRefs_extends h)|].
    eapply step_view; [by apply (readComponents_extends h)|].
    apply step_alloc; [done|]. intros vs _ Hvs Hext10.
    apply step_alloc; [done|]. intros lA _ HlA Hext11.
    apply step_alloc; [done|]. intros lZ HlZ_fresh HlZ Hext12.
    eapply step_lift; [exact HA|]. simpl.
    apply step_store; [done|done|]. intros Hext13.
    apply step_store; [done|done|]. intros Hext14.
    eapply step_seq.
    { apply (gaussianEliminationH_finishes h _ _ _ A Z); [done| | |].
      - unfold readMatrix. rewrite lookup_insert_ne, lookup_insert_eq; [done|].
        intros ->. apply HlZ_fresh. rewrite dom_insert_L. set_solver.
      - unfold readVector. by rewrite lookup_insert_eq.
      - destruct Hs as [[HlenA Hrows] HZ]. simpl in *.
        rewrite HlenA. by split. }
    intros xL h2 Hext15 (x' & Hx' & Hread').
    assert (x' = x) as -> by congruence.
    eapply step_view; [exact Hread'|].
    apply step_alloc; [done|]. intros np _ Hnp Hext16.
    apply step_store; [done|done|]. intros Hext17.
    eapply step_view; [by apply (readComponents_extends h)|].
    apply step_alloc; [done|]. intros pp Hpp_fresh Hpp Hext18.
    apply step_store; [done|done|]. intros Hext19.
    apply step_alloc; [done|]. intros cc Hcc_fresh Hcc Hext20.
    apply step_store; [done|done|]. intros Hext21.
    apply step_ret; [done|]. simpl. split_and!; [done..|].
    eexists. split_and!; [exact Hsolve| |].
    + rewrite lookup_insert_ne, lookup_insert_fresh; [done|done|].
      intros ->. apply Hcc_fresh. rewrite dom_insert_L. set_solver.
    + by rewrite lookup_insert_eq.
Qed.

(** * Further properties of the code *)

(** ** Terminals that share a place, nodes that share a potential *)

Lemma snaps_colocated rep p q :
  t_x p = t_x q → t_y p = t_y q → snaps rep p = snaps rep q.
Proof. unfold snaps. by intros -> ->. Qed.

(** Two terminals at the same coordinates stay together through the whole
    loop: whichever node takes one takes the other. *)
Lemma identifyNodes_colocated points : ∀ st i j p q,
  topologyOk st →
  NoDup (t_id <$> points) →
  (i < j)%nat → points !! i = Some p → points !! j = Some q →
  t_x p = t_x q → t_y p = t_y q → snaps p q = true →
  nodeOf st (t_id p) = nodeOf st (t_id q) →
  nodeOf (identifyNodes points st) (t_id p)
  = nodeOf (identifyNodes points st) (t_id q).
Proof.
  induction points as [|p0 rest IH];
    intros st i j p q Hst Hnd Hij Hp Hq Hx Hy Hself Hsame.
  { by rewrite lookup_nil in Hp. }
  rewrite fmap_cons in Hnd. apply list.NoDup_cons in Hnd as [Hp0 Hnd].
  pose proof (visit_ok p0 rest st Hst) as Hst'.
  destruct j as [|j]; [lia|]. simpl in Hq.
  assert (q ∈ rest) as Hqin by (apply list_elem_of_lookup; eauto).
  assert (t_id q ≠ t_id p0) as Hqp0.
  { intros Heq. apply Hp0. rewrite <- Heq. by apply list_elem_of_fmap_2. }
  simpl identifyNodes.
  destruct i as [|i]; simpl in Hp.
  - injection Hp as ->.
    assert (nodeOf (visit p rest st) (t_id p)
            = nodeOf (visit p rest st) (t_id q)) as Hv.
    { rewrite !visit_lookup by done. rewrite <- Hsame.
      destruct (nodeOf st (t_id p)) eqn:Hn; [done|].
      case_bool_decide as Ha.
      { apply (ok_assigned _ Hst) in Ha as [? ?]. congruence. }
      rewrite (bool_decide_eq_true_2 (t_id p = t_id p)) by done.
      rewrite (bool_decide_eq_false_2 _ Hqp0). simpl.
      by rewrite reaches_unique, Hself. }
    destruct (visit_covers p rest st Hst) as [n Hn].
    rewrite (identifyNodes_keeps rest _ _ n Hst' Hn).
    rewrite Hv in Hn. by rewrite (identifyNodes_keeps rest _ _ n Hst' Hn).
  - assert (p ∈ rest) as Hpin by (apply list_elem_of_lookup; eauto).
    assert (t_id p ≠ t_id p0) as Hpp0.
    { intros Heq. apply Hp0. rewrite <- Heq. by apply list_elem_of_fmap_2. }
    apply (IH _ i j); try done; [lia|].
    rewrite !visit_lookup by done. rewrite <- Hsame.
    destruct (nodeOf st (t_id p)) eqn:Hn; [done|].
    case_bool_decide; [done|].
    rewrite (bool_decide_eq_false_2 _ Hpp0), (bool_decide_eq_false_2 _ Hqp0).
    simpl. rewrite !reaches_unique by done.
    by rewrite (snaps_colocated p0 p q).
Qed.

(** Every stored terminal potential, by terminal id. *)
Lemma pointPotentials_at p2n np components id :
  id ∈ t_id <$> pointsOf components →
  foldl (recordPotentials p2n np) ∅ components !! id
  = Some (potentialAt np (p2n !! id)).
Proof.
  intros (t & -> & Ht)%list_elem_of_fmap.
  unfold pointsOf in Ht. apply list_elem_of_In, in_flat_map in Ht
    as (c & Hc%list_elem_of_In & Ht).
  destruct (pointPotentials_lookup p2n np components c Hc) as [H1 H2].
  destruct Ht as [<-|[<-|[]]]; simpl; [exact H1 | exact H2].
Qed.

(** [nodePotentials], entry by entry: ground holds [0], node [k + 1] holds
    [x[k] || 0], and there is nothing at or above [nodeCount]. *)
Lemma nodePotentialsOf_lookup nodeCount x k :
  nodePotentialsOf nodeCount x !! k =
    match k with
    | O => Some 0
    | S k' => if bool_decide (k' < nodeCount - 1)%nat
              then Some (orNum (x !! k') 0) else None
    end.
Proof.
  unfold nodePotentialsOf, range. rewrite Nat.sub_0_r.
  generalize (nodeCount - 1)%nat as n. intros n.
  induction n as [|n IH].
  - simpl. destruct k as [|k']; [by rewrite lookup_singleton_eq|].
    by rewrite lookup_singleton_ne.
  - rewrite seq_S, foldl_app. simpl.
    destruct (decide (k = S n)) as [->|Hne].
    + rewrite lookup_insert_eq. by rewrite bool_decide_eq_true_2 by lia.
    + rewrite lookup_insert_ne by done. rewrite IH.
      destruct k as [|k']; [done|].
      case_bool_decide; case_bool_decide; try done; lia.
Qed.


Lemma orNum_idempotent (o : option number) (d : number) :
  truthy d = false → orNum (Some (orNum o d)) d = orNum o d.
Proof.
  intros Hd. unfold orNum. destruct o as [n|]; [|by rewrite Hd].
  destruct (truthy n) eqn:Hn; [by rewrite Hn | by rewrite Hd].
Qed.

Lemma identifyNodes_first p rest :
  nodeOf (identifyNodes (p :: rest) emptyTopology) (t_id p) = Some 0%nat.
Proof.
  simpl. apply identifyNodes_keeps; [apply visit_ok, emptyTopology_ok|].
  rewrite visit_lookup by apply emptyTopology_ok. simpl.
  rewrite lookup_empty. rewrite bool_decide_eq_false_2 by set_solver.
  by rewrite bool_decide_eq_true_2.
Qed.

(** Co-located terminals of an element list share a node. *)
Lemma resolveTopology_colocated components (p q : TerminalRef) :
  NoDup (t_id <$> pointsOf components) →
  p ∈ pointsOf components → q ∈ pointsOf components →
  t_x p = t_x q → t_y p = t_y q → snaps p p = true →
  nodeOf (resolveTopology components) (t_id p)
  = nodeOf (resolveTopology components) (t_id q).
Proof.
  intros Hnd [i Hp]%list_elem_of_lookup [j Hq]%list_elem_of_lookup Hx Hy Hself.
  assert (snaps p q = true ∧ snaps q p = true) as [Hpq Hqp].
  { unfold snaps in *. by rewrite <- Hx, <- Hy. }
  destruct (Nat.lt_trichotomy i j) as [Hlt|[->|Hgt]].
  - by apply (identifyNodes_colocated (pointsOf components) emptyTopology i j);
      [apply emptyTopology_ok|..].
  - congruence.
  - symmetry.
    by apply (identifyNodes_colocated (pointsOf components) emptyTopology j i);
      [apply emptyTopology_ok|..].
Qed.

(** X1. Terminals placed at the same coordinates are electrically connected:
    with unique terminal ids, two terminals of the list that have the same
    [x] and [y], at which the snap test holds of the point against itself
    (that is, [Math.hypot(x - x, y - y) < 10]), are resolved to the same
    node and are reported the same potential. *)
Theorem colocated_terminals_connected
    (components : list CircuitComponent) (dt : number) (i j : nat)
    (p q : TerminalRef) :
  let points := pointsOf components in
  let topo := resolveTopology components in
  NoDup (t_id <$> points) →
  points !! i = Some p → points !! j = Some q →
  t_x p = t_x q → t_y p = t_y q → snaps p p = true →
  ∃ r, solveCircuit components dt = Some r
       ∧ nodeOf topo (t_id p) = nodeOf topo (t_id q)
       ∧ pointPotentials r !! t_id p = pointPotentials r !! t_id q.
Proof.
  intros points topo Hnd Hp Hq Hx Hy Hself.
  assert (p ∈ pointsOf components) as Hpin by (by eapply list_elem_of_lookup_2).
  assert (q ∈ pointsOf components) as Hqin by (by eapply list_elem_of_lookup_2).
  assert (nodeOf topo (t_id p) = nodeOf topo (t_id q)) as Hnode
    by (by apply resolveTopology_colocated).
  destruct (pipeline_ok components dt)
    as (A & Z & x & _ & _ & _ & _ & Hsolve).
  eexists. split; [exact Hsolve|]. split; [done|].
  assert (components ≠ []) as Hne.
  { intros Hnil. unfold points in Hp. by rewrite Hnil in Hp. }
  rewrite bool_decide_eq_false_2 by (by rewrite nodeCount_zero).
  simpl. rewrite !pointPotentials_at by (by apply list_elem_of_fmap_2).
  fold topo. by rewrite Hnode.
Qed.

(** X2. The potential reported for a terminal is the unknown of its node:
    [0] for a terminal of node 0 (ground), and [x[k] || 0] for a terminal of
    node [k + 1], [x] being the solution of the assembled system, in which
    [k] is always in range.  Ground is the node of the first element's
    [p1]. *)
Theorem terminal_potential_is_node_unknown
    (components : list CircuitComponent) (dt : number) (id : string) :
  let topo := resolveTopology components in
  id ∈ t_id <$> pointsOf components →
  ∃ A Z x r n,
    assemble (pointToNode topo) (nodeCount topo) dt components = Some (A, Z)
    ∧ gaussianElimination A Z = Some x
    ∧ solveCircuit components dt = Some r
    ∧ nodeOf topo id = Some n
    ∧ match n with
      | O => pointPotentials r !! id = Some 0
      | S k => ∃ u, x !! k = Some u
                    ∧ pointPotentials r !! id = Some (orNum (Some u) 0)
      end
    ∧ ∀ c rest, components = c :: rest → nodeOf topo (pt_id (p1 c)) = Some 0%nat.
Proof.
  intros topo Hid.
  destruct (pipeline_ok components dt)
    as (A & Z & x & HA & Hs & Hx & Hlen & Hsolve).
  fold topo in HA, Hs, Hlen, Hsolve.
  assert (components ≠ []) as Hne.
  { intros Hnil. rewrite Hnil in Hid. by apply elem_of_nil in Hid. }
  rewrite bool_decide_eq_false_2 in Hsolve
    by (unfold topo; by rewrite nodeCount_zero).
  assert (is_Some (nodeOf topo id)) as [n Hn].
  { apply list_elem_of_fmap in Hid as (t & -> & Ht).
    by apply identifyNodes_covers; [apply emptyTopology_ok|]. }
  pose proof (ok_bound _ (resolveTopology_ok components) _ _ Hn) as Hbound.
  fold topo in Hbound.
  eexists A, Z, x, _, n. split_and!; [done|done|exact Hsolve|done| |].
  - simpl. rewrite pointPotentials_at, Hn by done.
    unfold potentialAt. simpl. rewrite nodePotentialsOf_lookup.
    destruct n as [|k]; [done|].
    rewrite bool_decide_eq_true_2 by lia.
    destruct (lookup_lt_is_Some_2 x k) as [u Hu].
    { rewrite Hlen. unfold mSize. lia. }
    exists u. split; [done|]. rewrite Hu. by rewrite orNum_idempotent.
  - intros c rest ->. unfold topo, resolveTopology.
    apply (identifyNodes_first (terminalOf (p1 c) (c_id c))).
Qed.

(** ** The numbering of the nodes *)

(** One iteration opens at most one node. *)
Lemma identifyNodes_nodeCount_bound points st :
  (nodeCount (identifyNodes points st) ≤ nodeCount st + length points)%nat.
Proof.
  revert st. induction points as [|p rest IH]; intros st; simpl; [lia|].
  etrans; [apply IH|]. rewrite visit_nodeCount. case_bool_decide; lia.
Qed.

(** Only ids of the list are given a node. *)
Lemma identifyNodes_dom points st id :
  topologyOk st →
  is_Some (nodeOf (identifyNodes points st) id) →
  is_Some (nodeOf st id) ∨ id ∈ t_id <$> points.
Proof.
  revert st. induction points as [|p rest IH]; intros st Hst; simpl; [by left|].
  intros Hid. apply IH in Hid; [|by apply visit_ok].
  destruct Hid as [Hid|Hid].
  - rewrite visit_lookup in Hid by done.
    destruct (nodeOf st id) eqn:E; [by left|]. right.
    case_bool_decide; [by destruct Hid|].
    case_bool_decide as Hp; [subst id; apply elem_of_cons; by left|].
    simpl in Hid. destruct (reaches p rest id) eqn:Hr; [|by destruct Hid].
    apply reaches_true in Hr as (q & Hq & <- & _).
    apply elem_of_cons. right. by apply list_elem_of_fmap_2.
  - right. apply elem_of_cons. by right.
Qed.

(** No node index is skipped: a node that was opened has a terminal. *)
Lemma identifyNodes_dense points st :
  topologyOk st →
  (∀ n, (n < nodeCount st)%nat → ∃ id, nodeOf st id = Some n) →
  ∀ n, (n < nodeCount (identifyNodes points st))%nat →
       ∃ id, nodeOf (identifyNodes points st) id = Some n.
Proof.
  revert st. induction points as [|p rest IH]; intros st Hst Hd; simpl; [done|].
  apply IH; [by apply visit_ok|].
  intros n. rewrite visit_nodeCount. case_bool_decide as Hp.
  - intros Hn. destruct (Hd n Hn) as [id Hid]. exists id.
    rewrite visit_lookup by done. by rewrite Hid.
  - intros Hn. destruct (decide (n = nodeCount st)) as [->|Hne].
    + exists (t_id p). rewrite visit_lookup by done.
      destruct (nodeOf st (t_id p)) eqn:E.
      { exfalso. apply Hp, (ok_assigned _ Hst). by eexists. }
      rewrite (bool_decide_eq_false_2 _ Hp).
      by rewrite bool_decide_eq_true_2.
    + destruct (Hd n) as [id Hid]; [lia|]. exists id.
      rewrite visit_lookup by done. by rewrite Hid.
Qed.

Lemma pointsOf_length components :
  length (pointsOf components) = (2 * length components)%nat.
Proof.
  unfold pointsOf. induction components as [|c l IH]; simpl; [done|].
  rewrite IH. lia.
Qed.

(** X3. Nodes are numbered densely from 0: an element list resolves to at
    most two nodes per element, [pointToNode] holds the terminal ids of the
    list and nothing else, every index it holds is below [nodeCount], and
    every index below [nodeCount] is the node of some terminal of the
    list. *)
Theorem node_numbering_dense (components : list CircuitComponent) :
  let topo := resolveTopology components in
  (nodeCount topo ≤ 2 * length components)%nat
  ∧ (∀ id, is_Some (nodeOf topo id) ↔ id ∈ t_id <$> pointsOf components)
  ∧ (∀ id n, nodeOf topo id = Some n → (n < nodeCount topo)%nat)
  ∧ (∀ n, (n < nodeCount topo)%nat →
       ∃ p, p ∈ pointsOf components ∧ nodeOf topo (t_id p) = Some n).
Proof.
  intros topo.
  assert (∀ id, is_Some (nodeOf topo id) ↔ id ∈ t_id <$> pointsOf components)
    as Hdom.
  { intros id. split.
    - intros Hid. apply identifyNodes_dom in Hid as [[? Hid]|Hid];
        [by simpl in Hid; rewrite lookup_empty in Hid
        |done|apply emptyTopology_ok].
    - intros (t & -> & Ht)%list_elem_of_fmap.
      by apply identifyNodes_covers; [apply emptyTopology_ok|]. }
  split_and!.
  - rewrite <- pointsOf_length.
    apply (identifyNodes_nodeCount_bound (pointsOf components) emptyTopology).
  - exact Hdom.
  - apply (ok_bound _ (resolveTopology_ok components)).
  - intros n Hn.
    destruct (identifyNodes_dense (pointsOf components) emptyTopology
                emptyTopology_ok) with (n := n) as [id Hid]; [|done|].
    { simpl. lia. }
    assert (id ∈ t_id <$> pointsOf components) as (p & -> & Hp)%list_elem_of_fmap
      by (apply Hdom; by eexists).
    by exists p.
Qed.


(** ** The keys of the result maps *)

Lemma recordPotentials_other p2n np l : ∀ pp id,
  id ∉ t_id <$> pointsOf l →
  foldl (recordPotentials p2n np) pp l !! id = pp !! id.
Proof.
  induction l as [|d l IH]; intros pp id Hid; simpl; [done|].
  change (pointsOf (d :: l))
    with (terminalOf (p1 d) (c_id d) :: terminalOf (p2 d) (c_id d) :: pointsOf l)
    in Hid.
  rewrite !fmap_cons in Hid.
  apply not_elem_of_cons in Hid as [H1 Hid].
  apply not_elem_of_cons in Hid as [H2 Hid]. simpl in H1, H2.
  rewrite IH by done. unfold recordPotentials.
  by rewrite !lookup_insert_ne.
Qed.

(** X4. The result maps hold the ids of the input and no other key:
    [pointPotentials] has an entry exactly for the terminal ids of the
    element list, [componentCurrents] exactly for its element ids. *)
Theorem result_keys_exact (components : list CircuitComponent) (dt : number) :
  ∃ r, solveCircuit components dt = Some r
       ∧ (∀ id, is_Some (pointPotentials r !! id)
                ↔ id ∈ t_id <$> pointsOf components)
       ∧ (∀ id, is_Some (componentCurrents r !! id)
                ↔ id ∈ c_id <$> components).
Proof.
  destruct (pipeline_ok components dt)
    as (A & Z & x & _ & _ & _ & _ & Hsolve).
  eexists. split; [exact Hsolve|].
  case_bool_decide as Hz.
  { apply nodeCount_zero in Hz as ->. simpl.
    split; intros id; rewrite lookup_empty; split;
      try (by intros [? ?]); by intros ?%elem_of_nil. }
  simpl. split; intros id.
  - split.
    + intros Hid.
      destruct (decide (id ∈ t_id <$> pointsOf components)) as [|Hno]; [done|].
      rewrite recordPotentials_other, lookup_empty in Hid by done.
      by destruct Hid.
    + intros Hid. rewrite pointPotentials_at by done. by eexists.
  - split.
    + intros Hid.
      destruct (decide (id ∈ c_id <$> components)) as [|Hno]; [done|].
      rewrite recordCurrent_other, lookup_empty in Hid by done.
      by destruct Hid.
    + intros (c & -> & Hc)%list_elem_of_fmap.
      by apply componentCurrents_covers.
Qed.


(** ** The assembled matrix is symmetric *)

(** A loop whose body keeps [Inv] keeps it, whenever it runs through. *)
Lemma foldM_preserves {S X : Type} (Inv : S → Prop)
    (body : S → X → option S) (l : list X) : ∀ s s',
  (∀ s a s', body s a = Some s' → Inv s → Inv s') →
  foldM body s l = Some s' → Inv s → Inv s'.
Proof.
  induction l as [|a l IH]; intros s s' Hbody; simpl.
  { by intros [= <-]. }
  destruct (body s a) as [s1|] eqn:E; simpl; [|done].
  intros Hrun Hs. apply (IH s1); eauto.
Qed.

Lemma foldMi_preserves {S X : Type} (Inv : S → Prop)
    (body : S → nat → X → option S) (l : list X) : ∀ idx s s',
  (∀ s i a s', body s i a = Some s' → Inv s → Inv s') →
  foldMi body idx s l = Some s' → Inv s → Inv s'.
Proof.
  induction l as [|a l IH]; intros idx s s' Hbody; simpl.
  { by intros [= <-]. }
  destruct (body s idx a) as [s1|] eqn:E; simpl; [|done].
  intros Hrun Hs. apply (IH (Datatypes.S idx) s1); eauto.
Qed.

(** What [A[i][j] = f(A[i][j])] does to each entry. *)
Lemma mupd_mget (A A' : matrix) i j f i' j' :
  mupd A i j f = Some A' →
  mget A' i' j' = if bool_decide (i' = i ∧ j' = j) then f <$> mget A i j
                  else mget A i' j'.
Proof.
  unfold mupd, vupd, mget.
  destruct (A !! i) as [row|] eqn:Hrow; simpl; [|done].
  destruct (row !! j) as [a|] eqn:Ha; simpl; [|done]. intros [= <-].
  destruct (decide (i' = i)) as [->|Hi].
  - rewrite list_lookup_insert_eq by (by eapply lookup_lt_Some). simpl.
    destruct (decide (j' = j)) as [->|Hj].
    + rewrite list_lookup_insert_eq by (by eapply lookup_lt_Some).
      by rewrite bool_decide_eq_true_2.
    + rewrite list_lookup_insert_ne by done.
      rewrite bool_decide_eq_false_2 by (by intros [_ ?]). by rewrite Hrow.
  - rewrite list_lookup_insert_ne by done.
    by rewrite bool_decide_eq_false_2 by (by intros [? _]).
Qed.

Lemma zeroMatrix_mget n i j :
  mget (zeroMatrix n) i j
  = if bool_decide (i < n ∧ j < n)%nat then Some 0 else None.
Proof.
  unfold mget, zeroMatrix, zeroVector.
  destruct (decide (i < n)%nat) as [Hi|Hi].
  - rewrite lookup_replicate_2 by done. simpl.
    destruct (decide (j < n)%nat) as [Hj|Hj].
    + rewrite lookup_replicate_2 by done. by rewrite bool_decide_eq_true_2.
    + rewrite (proj1 (lookup_replicate_None n 0 j)) by lia.
      by rewrite bool_decide_eq_false_2 by (by intros [_ ?]).
  - rewrite (proj1 (lookup_replicate_None n (replicate n 0) i)) by lia.
    by rewrite bool_decide_eq_false_2 by (by intros [? _]).
Qed.

(** Settle the index tests of a goal about entries. *)
Ltac decide_entries :=
  repeat first [ rewrite bool_decide_eq_true_2 by lia
               | rewrite bool_decide_eq_false_2 by lia ];
  try done; try congruence.

Lemma zeroMatrix_symmetric n : symmetric (zeroMatrix n).
Proof.
  intros i j. rewrite !zeroMatrix_mget.
  destruct (decide (i < n)%nat), (decide (j < n)%nat); decide_entries.
Qed.

(** An update on the diagonal keeps the matrix symmetric. *)
Lemma mupd_diagonal_symmetric (A A' : matrix) i f :
  symmetric A → mupd A i i f = Some A' → symmetric A'.
Proof.
  intros HA Hupd a b.
  rewrite (mupd_mget A A' i i f a b Hupd), (mupd_mget A A' i i f b a Hupd).
  rewrite (HA a b).
  destruct (decide (a = i)), (decide (b = i)); subst; decide_entries.
Qed.

(** So do the same update of [A[i][j]] and of [A[j][i]], one after the
    other. *)
Lemma mupd_pair_symmetric (A A1 A2 : matrix) i j f :
  symmetric A → mupd A i j f = Some A1 → mupd A1 j i f = Some A2 →
  symmetric A2.
Proof.
  intros HA H1 H2 a b.
  rewrite (mupd_mget A1 A2 j i f a b H2), (mupd_mget A1 A2 j i f b a H2).
  rewrite (mupd_mget A A1 i j f j i H1), (mupd_mget A A1 i j f a b H1),
    (mupd_mget A A1 i j f b a H1).
  rewrite (HA a b), (HA j i).
  destruct (decide (a = i)), (decide (b = i)), (decide (a = j)),
    (decide (b = j)), (decide (i = j)); subst; decide_entries.
Qed.

Lemma addConductance_symmetric n1 n2 g (A A' : matrix) :
  symmetric A → addConductance n1 n2 g A = Some A' → symmetric A'.
Proof.
  intros HA. unfold addConductance.
  destruct (if isNonGround n1 then _ else _) as [A1|] eqn:E1; simpl; [|done].
  assert (symmetric A1) as HA1.
  { destruct (isNonGround n1); [|by injection E1 as <-].
    by eapply mupd_diagonal_symmetric. }
  destruct (if isNonGround n2 then _ else _) as [A2|] eqn:E2; simpl; [|done].
  assert (symmetric A2) as HA2.
  { destruct (isNonGround n2); [|by injection E2 as <-].
    by eapply mupd_diagonal_symmetric. }
  destruct (isNonGround n1 && isNonGround n2); [|by intros [= <-]].
  destruct (mupd A2 (rowOf n1) (rowOf n2) _) as [A3|] eqn:E3; simpl; [|done].
  intros E4. by eapply mupd_pair_symmetric.
Qed.

Lemma stampComponent_symmetric p2n dt s comp s' :
  stampComponent p2n dt s comp = Some s' → symmetric s.1 → symmetric s'.1.
Proof.
  destruct s as [A Z]. unfold stampComponent.
  destruct (isType comp BATTERY); [by intros [= <-]|].
  case_bool_decide; [by intros [= <-]|].
  destruct (nortonModel comp dt) as [g i]. unfold stampNorton.
  destruct (addConductance _ _ g A) as [A'|] eqn:EA; simpl; [|done].
  intros Hs HA. apply (addConductance_symmetric _ _ _ _ _ HA) in EA.
  destruct (strictNe i 0); [|by injection Hs as <-].
  destruct (addCurrentSource _ _ i Z); simpl in Hs; [|done].
  by injection Hs as <-.
Qed.

Lemma stampVoltageSource_symmetric p2n nodeCount s idx comp s' :
  stampVoltageSource p2n nodeCount s idx comp = Some s' →
  symmetric s.1 → symmetric s'.1.
Proof.
  destruct s as [A Z]. unfold stampVoltageSource, mset. intros Hs HA.
  destruct (if isNonGround (p2n !! pt_id (p1 comp)) then _ else _)
    as [A1|] eqn:E1; simpl in Hs; [|done].
  assert (symmetric A1) as HA1.
  { destruct (isNonGround (p2n !! pt_id (p1 comp)));
      [|by injection E1 as <-].
    destruct (mupd A _ _ _) as [B|] eqn:EB; simpl in E1; [|done].
    by eapply mupd_pair_symmetric. }
  destruct (if isNonGround (p2n !! pt_id (p2 comp)) then _ else _)
    as [A2|] eqn:E2; simpl in Hs; [|done].
  assert (symmetric A2) as HA2.
  { destruct (isNonGround (p2n !! pt_id (p2 comp)));
      [|by injection E2 as <-].
    destruct (mupd A1 _ _ _) as [B|] eqn:EB; simpl in E2; [|done].
    by eapply mupd_pair_symmetric. }
  destruct (vset Z _ _); simpl in Hs; [|done]. by injection Hs as <-.
Qed.

(** X5. The matrix handed to the linear solver is symmetric: for every
    element list and time step, assembly succeeds and every entry
    [A[i][j]] of its matrix equals [A[j][i]]. *)
Theorem assembled_matrix_symmetric
    (components : list CircuitComponent) (dt : number) :
  let topo := resolveTopology components in
  ∃ A Z, assemble (pointToNode topo) (nodeCount topo) dt components
           = Some (A, Z)
         ∧ ∀ i j, mget A i j = mget A j i.
Proof.
  intros topo.
  destruct (pipeline_ok components dt) as (A & Z & x & HA & _).
  fold topo in HA. exists A, Z. split; [done|].
  unfold assemble in HA.
  destruct (foldM _ _ components) as [s|] eqn:E1; simpl in HA; [|done].
  apply (foldMi_preserves (λ s, symmetric s.1)) in HA.
  - exact HA.
  - intros ? ? ? ?. apply stampVoltageSource_symmetric.
  - apply (foldM_preserves (λ s, symmetric s.1)) in E1; [done| |].
    + intros ? ? ?. apply stampComponent_symmetric.
    + apply zeroMatrix_symmetric.
Qed.


(** ** Partial pivoting *)

(** The comparisons of two exponents or mantissas, case by case. *)
Ltac compare_cases :=
  repeat match goal with
  | H : context [Z.compare ?x ?y] |- _ => destruct (Z.compare_spec x y)
  | |- context [Z.compare ?x ?y] => destruct (Z.compare_spec x y)
  | H : context [Pos.compare_cont Eq ?x ?y] |- _ =>
      change (Pos.compare_cont Eq x y) with (Pos.compare x y) in *;
      destruct (Pos.compare_spec x y)
  | |- context [Pos.compare_cont Eq ?x ?y] =>
      change (Pos.compare_cont Eq x y) with (Pos.compare x y) in *;
      destruct (Pos.compare_spec x y)
  end.

(** [<] on numbers is a strict order. *)
Lemma SFltb_trans a b c :
  SFltb a b = true → SFltb b c = true → SFltb a c = true.
Proof.
  unfold SFltb, SFcompare.
  destruct a as [[]|[]| |[] ma ea], b as [[]|[]| |[] mb eb],
    c as [[]|[]| |[] mc ec]; try done;
    compare_cases; simpl; try done; try lia.
Qed.

Lemma lt_trans x y z : lt x y = true → lt y z = true → lt x z = true.
Proof. unfold lt. rewrite !ltb_spec. apply SFltb_trans. Qed.

Lemma lt_irrefl x : lt x x = false.
Proof.
  unfold lt. rewrite ltb_spec. unfold SFltb, SFcompare.
  destruct (Prim2SF x) as [[]|[]| |[] m e]; try done;
    by rewrite Z.compare_refl, Pos.compare_cont_refl.
Qed.

(** The pivot search, from any point of the scan: [r0] is [maxRow] when the
    rows [i .. lo - 1] have been seen. *)
Lemma findPivot_scan (M : matrix) i len : ∀ lo r0 r,
  (i ≤ r0 < lo)%nat →
  (∀ k e d, (i ≤ k < lo)%nat → mget M k i = Some e → mget M r0 i = Some d →
            dominates d e) →
  foldM (pivotStep M i) r0 (seq lo len) = Some r →
  (i ≤ r < lo + len)%nat
  ∧ ∀ k e d, (i ≤ k < lo + len)%nat → mget M k i = Some e →
             mget M r i = Some d → dominates d e.
Proof.
  induction len as [|len IH]; intros lo r0 r Hr0 Hmax; simpl.
  { intros [= <-]. rewrite Nat.add_0_r. by split. }
  destruct (pivotStep M i r0 lo) as [r1|] eqn:Hstep; simpl; [|done].
  unfold pivotStep in Hstep.
  destruct (mget M lo i) as [a|] eqn:Ha; simpl in Hstep; [|done].
  destruct (mget M r0 i) as [b|] eqn:Hb; simpl in Hstep; [|done].
  injection Hstep as <-.
  intros Hrun. apply IH in Hrun.
  - replace (lo + S len)%nat with (S lo + len)%nat by lia. exact Hrun.
  - case_match; lia.
  - intros k e d Hk He Hd.
    destruct (gt (PrimFloat.abs a) (PrimFloat.abs b)) eqn:Hab.
    + rewrite Ha in Hd. injection Hd as <-.
      destruct (decide (k = lo)) as [->|Hne].
      * rewrite Ha in He. injection He as <-. apply lt_irrefl.
      * assert (dominates b e) as Hbe by (apply (Hmax k); [lia|done..]).
        unfold dominates, gt in *. fold (lt (PrimFloat.abs b) (PrimFloat.abs a)) in Hab.
        fold (lt (PrimFloat.abs b) (PrimFloat.abs e)) in Hbe.
        fold (lt (PrimFloat.abs a) (PrimFloat.abs e)).
        destruct (lt (PrimFloat.abs a) (PrimFloat.abs e)) eqn:Hae; [|done].
        by rewrite (lt_trans _ _ _ Hab Hae) in Hbe.
    + rewrite Hb in Hd. injection Hd as <-.
      destruct (decide (k = lo)) as [->|Hne].
      * rewrite Ha in He. by injection He as <-.
      * apply (Hmax k); [lia|done..].
Qed.

(** What the exchange of two entries leaves at each index. *)
Lemma swap_lookup {X : Type} (l l' : list X) i j k :
  swap l i j = Some l' →
  l' !! k = if bool_decide (k = j) then l !! i
            else if bool_decide (k = i) then l !! j else l !! k.
Proof.
  unfold swap. destruct (l !! i) as [a|] eqn:Ha; simpl; [|done].
  destruct (l !! j) as [b|] eqn:Hb; simpl; [|done]. intros [= <-].
  apply lookup_lt_Some in Ha as Hi. apply lookup_lt_Some in Hb as Hj.
  case_bool_decide as Hkj.
  { subst k. by rewrite list_lookup_insert_eq by (by rewrite length_insert). }
  rewrite list_lookup_insert_ne by done.
  case_bool_decide as Hki.
  { subst k. by rewrite list_lookup_insert_eq. }
  by rewrite list_lookup_insert_ne.
Qed.

(** X6. Partial pivoting: at column [i] of an [n]×[n] system the row
    exchange succeeds; it swaps row [i] with one row [maxRow] at or below
    it, in the matrix and in the right-hand side alike, and leaves every
    other row where it was; and after it no entry of column [i] below the
    diagonal is larger in magnitude than the pivot [M[i][i]]. *)
Theorem exchange_brings_largest_pivot
    (n : nat) (M : matrix) (x : vector) (i : nat) :
  systemOf n (M, x) → (i < n)%nat →
  ∃ maxRow M1 x1 d,
    exchange n (M, x) i = Some (M1, x1)
    ∧ (i ≤ maxRow < n)%nat
    ∧ (M1 !! i = M !! maxRow ∧ M1 !! maxRow = M !! i
       ∧ ∀ k, k ≠ i → k ≠ maxRow → M1 !! k = M !! k)
    ∧ (x1 !! i = x !! maxRow ∧ x1 !! maxRow = x !! i
       ∧ ∀ k, k ≠ i → k ≠ maxRow → x1 !! k = x !! k)
    ∧ mget M1 i i = Some d
    ∧ ∀ k e, (i < k < n)%nat → mget M1 k i = Some e →
             gt (PrimFloat.abs e) (PrimFloat.abs d) = false.
Proof.
  intros [HM Hx] Hi. simpl in HM, Hx.
  destruct (findPivot_ok n M i HM Hi) as (r & Hfind & Hr).
  pose proof Hfind as Hscan. unfold findPivot, range in Hscan.
  apply findPivot_scan in Hscan as [Hir Hmax]; [|lia|].
  2:{ intros k e d Hk He Hd. assert (k = i) as -> by lia.
      rewrite He in Hd. injection Hd as <-. apply lt_irrefl. }
  replace (S i + (n - S i))%nat with n in Hir, Hmax by lia.
  destruct HM as [HMlen HMrows].
  destruct (swap_ok M i r) as (M1 & HM1 & _); [lia..|].
  destruct (swap_ok x i r) as (x1 & Hx1 & _); [lia..|].
  assert (∀ {X} (l l' : list X), swap l i r = Some l' →
            l' !! i = l !! r ∧ l' !! r = l !! i
            ∧ ∀ k, k ≠ i → k ≠ r → l' !! k = l !! k) as Hswap.
  { intros X l l' Hl. split_and!.
    - rewrite (swap_lookup l l' i r i Hl).
      case_bool_decide as E; [by rewrite <- E|].
      by rewrite bool_decide_eq_true_2.
    - rewrite (swap_lookup l l' i r r Hl). by rewrite bool_decide_eq_true_2.
    - intros k Hki Hkr. rewrite (swap_lookup l l' i r k Hl).
      by rewrite !bool_decide_eq_false_2. }
  destruct (Hswap _ M M1 HM1) as (HMi & HMr & HMk).
  destruct (mget_ok n M r i) as [d Hd]; [done|lia|done|].
  exists r, M1, x1, d.
  split; [|split; [lia|split; [exact (Hswap _ M M1 HM1)|
    split; [exact (Hswap _ x x1 Hx1)|split]]]].
  - unfold exchange. rewrite Hfind. simpl. rewrite HM1. simpl.
    by rewrite Hx1.
  - unfold mget in *. by rewrite HMi.
  - intros k e Hk He. unfold mget in He.
    destruct (decide (k = r)) as [->|Hkr].
    + rewrite HMr in He. apply (Hmax i e d); [lia|done..].
    + rewrite HMk in He by lia. apply (Hmax k e d); [lia|done..].
Qed.


(** ** Back substitution solves the triangular system row by row *)

(** The sum of row [i] reads the result only above [i]. *)
Lemma dot_agree (M : matrix) (r r' : vector) i len : ∀ lo sum,
  (i < lo)%nat → (∀ j, (i < j)%nat → r !! j = r' !! j) →
  foldM (dotStep M r i) sum (seq lo len)
  = foldM (dotStep M r' i) sum (seq lo len).
Proof.
  induction len as [|len IH]; intros lo sum Hlo Hsame; simpl; [done|].
  assert (dotStep M r i sum lo = dotStep M r' i sum lo) as ->.
  { unfold dotStep, vget. by rewrite (Hsame lo Hlo). }
  destruct (dotStep M r' i sum lo) as [sum'|]; simpl; [|done].
  apply IH; [lia|done].
Qed.

Lemma rowSolved_agree n M x (r r' : vector) i :
  (∀ j, (i ≤ j)%nat → r !! j = r' !! j) →
  rowSolved n M x r i → rowSolved n M x r' i.
Proof.
  intros Hsame Hrow d xi Hd Htol Hxi.
  destruct (Hrow d xi Hd Htol Hxi) as (sum & Hsum & Hri).
  exists sum. split.
  - rewrite <- Hsum. symmetry. apply dot_agree; [lia|].
    intros j Hj. apply Hsame. lia.
  - rewrite <- Hsame by lia. done.
Qed.

Lemma backStep_solves n M x (r0 r1 : vector) i :
  (i < length r0)%nat →
  backStep n M x r0 i = Some r1 →
  rowSolved n M x r1 i ∧ (∀ k, k ≠ i → r1 !! k = r0 !! k)
  ∧ length r1 = length r0.
Proof.
  intros Hi. unfold backStep, vget, vset.
  destruct (foldM (dotStep M r0 i) 0 (range (S i) n)) as [sum|] eqn:Hsum;
    simpl; [|done].
  destruct (mget M i i) as [d|] eqn:Hd; simpl; [|done].
  destruct (gt (PrimFloat.abs d) TOLERANCE) eqn:Htol.
  - destruct (x !! i) as [xi|] eqn:Hxi; simpl; [|done].
    destruct (vupd_Some r0 i (λ _, (xi - sum) / d) Hi) as (a & _ & ->).
    intros [= <-]. split; [|split].
    + intros d' xi' Hd' _ Hxi'. rewrite Hd in Hd'. rewrite Hxi in Hxi'.
      injection Hd' as <-. injection Hxi' as <-. exists sum. split.
      * rewrite <- Hsum. unfold range. apply dot_agree; [lia|].
        intros j Hj. rewrite list_lookup_insert_ne by lia. done.
      * by rewrite list_lookup_insert_eq.
    + intros k Hk. by rewrite list_lookup_insert_ne.
    + by rewrite length_insert.
  - intros [= <-]. split; [|done].
    intros d' xi' Hd' Htol'. rewrite Hd in Hd'. injection Hd' as <-.
    congruence.
Qed.

(** The backward loop from row [k - 1] down to row [0]. *)
Lemma backLoop_solves n M x k : ∀ r0 r : vector,
  (k ≤ n)%nat → length r0 = n →
  foldM (backStep n M x) r0 (rev (range 0 k)) = Some r →
  (∀ i, (k ≤ i < n)%nat → rowSolved n M x r0 i) →
  ∀ i, (i < n)%nat → rowSolved n M x r i.
Proof.
  induction k as [|k IH]; intros r0 r Hk Hlen.
  { simpl. intros [= <-] Hrows i Hi. apply Hrows. lia. }
  unfold range. rewrite Nat.sub_0_r, seq_S, rev_app_distr. simpl.
  destruct (backStep n M x r0 k) as [r1|] eqn:Hstep; simpl; [|done].
  intros Hrun Hrows.
  destruct (backStep_solves n M x r0 r1 k) as (Hk1 & Hother & Hlen1);
    [lia|done|].
  apply (IH r1 r); [lia|lia|by unfold range; rewrite Nat.sub_0_r|].
  intros i Hi. destruct (decide (i = k)) as [->|Hne]; [done|].
  apply (rowSolved_agree n M x r0 r1).
  - intros j Hj. symmetry. apply Hother. lia.
  - apply Hrows. lia.
Qed.

(** X7. The result of Gaussian elimination solves the reduced system row
    by row: for an [n]×[n] system with [n > 0], forward elimination leaves a
    system [(M, x)], and for every row [i] whose diagonal entry is above the
    tolerance in magnitude, [result[i]] is [(x[i] - sum) / M[i][i]], where
    [sum] adds [M[i][j] * result[j]] over [j = i+1 .. n-1] to [0]. *)
Theorem elimination_result_solves_rows
    (n : nat) (A : matrix) (b : vector) :
  systemOf n (A, b) → (0 < n)%nat →
  ∃ M x result,
    forwardElimination n A b = Some (M, x)
    ∧ gaussianElimination A b = Some result
    ∧ ∀ i d xi, (i < n)%nat → mget M i i = Some d → x !! i = Some xi →
        gt (PrimFloat.abs d) 1e-10 = true →
        ∃ sum, foldM (dotStep M result i) 0 (range (S i) n) = Some sum
               ∧ result !! i = Some ((xi - sum) / d).
Proof.
  intros Hs Hn. pose proof Hs as [[HA _] _]. simpl in HA.
  destruct (forwardElimination_ok n A b Hs) as ([M x] & Hfwd & HM & Hx).
  simpl in HM, Hx.
  destruct (backSubstitution_ok n M x HM Hx) as (r & Hback & Hr & _).
  exists M, x, r. split_and!; [done| |].
  - unfold gaussianElimination. rewrite HA.
    rewrite bool_decide_eq_false_2 by lia. rewrite Hfwd. simpl. done.
  - intros i d xi Hi Hd Hxi Htol.
    apply (backLoop_solves n M x n (zeroVector n) r); try done.
    + unfold zeroVector. by rewrite length_replicate.
    + intros ? ?. lia.
Qed.


(** ** What the solver reads of an element *)

Lemma foldM_Forall2 {S X : Type} (R : X → X → Prop)
    (body : S → X → option S) (l l' : list X) :
  Forall2 R l l' → (∀ s a a', R a a' → body s a = body s a') →
  ∀ s, foldM body s l = foldM body s l'.
Proof.
  intros Hl Hbody. induction Hl as [|a a' l l' Ha Hl IH]; intros s; simpl.
  { done. }
  rewrite (Hbody s a a' Ha). destruct (body s a'); simpl; [apply IH|done].
Qed.

Lemma foldMi_Forall2 {S X : Type} (R : X → X → Prop)
    (body : S → nat → X → option S) (l l' : list X) :
  Forall2 R l l' → (∀ s i a a', R a a' → body s i a = body s i a') →
  ∀ idx s, foldMi body idx s l = foldMi body idx s l'.
Proof.
  intros Hl Hbody. induction Hl as [|a a' l l' Ha Hl IH]; intros idx s; simpl.
  { done. }
  rewrite (Hbody s idx a a' Ha).
  destruct (body s idx a'); simpl; [apply IH|done].
Qed.

Lemma foldl_Forall2 {S X : Type} (R : X → X → Prop)
    (f f' : S → X → S) (l l' : list X) :
  Forall2 R l l' → (∀ s a a', R a a' → f s a = f' s a') →
  ∀ s, foldl f s l = foldl f' s l'.
Proof.
  intros Hl Hf. induction Hl as [|a a' l l' Ha Hl IH]; intros s; simpl.
  { done. }
  rewrite (Hf s a a' Ha). apply IH.
Qed.

Lemma alike_isType dt c c' :
  alike dt c c' → isType c BATTERY = isType c' BATTERY.
Proof. intros Hc. unfold isType. apply bool_decide_ext, (alike_battery _ _ _ Hc). Qed.

Lemma alike_pointsOf dt l l' :
  Forall2 (alike dt) l l' → pointsOf l = pointsOf l'.
Proof.
  unfold pointsOf. induction 1 as [|c c' l l' Hc Hl IH]; simpl; [done|].
  by rewrite IH, (alike_id _ _ _ Hc), (alike_p1 _ _ _ Hc), (alike_p2 _ _ _ Hc).
Qed.

Lemma alike_voltageSources dt l l' :
  Forall2 (alike dt) l l' →
  Forall2 (λ c c', alike dt c c' ∧ c_type c = BATTERY)
          (voltageSources l) (voltageSources l').
Proof.
  unfold voltageSources. induction 1 as [|c c' l l' Hc Hl IH]; [constructor|].
  destruct (decide (c_type c = BATTERY)) as [Hb|Hb].
  - rewrite !list.filter_cons_True;
      [by constructor | by apply (alike_battery _ _ _ Hc) | done].
  - rewrite !list.filter_cons_False; [done| |done].
    by rewrite <- (alike_battery _ _ _ Hc).
Qed.

Lemma alike_findIndex dt (vs vs' : list CircuitComponent) id :
  Forall2 (λ c c', alike dt c c' ∧ c_type c = BATTERY) vs vs' →
  findIndex vs id = findIndex vs' id.
Proof.
  unfold findIndex. induction 1 as [|c c' l l' [Hc _] Hl IH]; [done|].
  simpl. rewrite <- (alike_id _ _ _ Hc).
  destruct (decide (c_id c = id)); [done|].
  destruct (list_find _ l) as [[k v]|], (list_find _ l') as [[k' v']|];
    simpl in *; congruence.
Qed.


Lemma alike_stampComponent p2n dt s c c' :
  alike dt c c' → stampComponent p2n dt s c = stampComponent p2n dt s c'.
Proof.
  intros Hc. destruct s as [A Z]. unfold stampComponent.
  rewrite <- (alike_isType _ _ _ Hc), <- (alike_p1 _ _ _ Hc),
    <- (alike_p2 _ _ _ Hc).
  unfold isType. case_bool_decide as Hb; [done|].
  by rewrite (alike_norton _ _ _ Hc Hb).
Qed.

Lemma alike_stampVoltageSource p2n nodeCount dt s idx c c' :
  alike dt c c' ∧ c_type c = BATTERY →
  stampVoltageSource p2n nodeCount s idx c
  = stampVoltageSource p2n nodeCount s idx c'.
Proof.
  intros [Hc Hb]. destruct s as [A Z]. unfold stampVoltageSource.
  by rewrite <- (alike_p1 _ _ _ Hc), <- (alike_p2 _ _ _ Hc),
    <- (alike_voltage _ _ _ Hc Hb).
Qed.

Lemma alike_recordPotentials p2n np dt pp c c' :
  alike dt c c' →
  recordPotentials p2n np pp c = recordPotentials p2n np pp c'.
Proof.
  intros Hc. unfold recordPotentials.
  by rewrite (alike_p1 _ _ _ Hc), (alike_p2 _ _ _ Hc).
Qed.

Lemma alike_elementCurrent nodeCount dt vs vs' x v1 v2 c c' :
  Forall2 (λ c c', alike dt c c' ∧ c_type c = BATTERY) vs vs' →
  alike dt c c' →
  elementCurrent nodeCount dt vs x v1 v2 c
  = elementCurrent nodeCount dt vs' x v1 v2 c'.
Proof.
  intros Hvs Hc. destruct (decide (c_type c = BATTERY)) as [Hb|Hb].
  - pose proof (proj1 (alike_battery _ _ _ Hc) Hb) as Hb'.
    unfold elementCurrent. rewrite Hb, Hb'.
    by rewrite (alike_findIndex dt vs vs' _ Hvs), (alike_id _ _ _ Hc).
  - by apply (alike_current _ _ _ Hc).
Qed.

Lemma alike_recordCurrent p2n np nodeCount dt vs vs' x cc c c' :
  Forall2 (λ c c', alike dt c c' ∧ c_type c = BATTERY) vs vs' →
  alike dt c c' →
  recordCurrent p2n np nodeCount dt vs x cc c
  = recordCurrent p2n np nodeCount dt vs' x cc c'.
Proof.
  intros Hvs Hc. unfold recordCurrent.
  rewrite <- (alike_p1 _ _ _ Hc), <- (alike_p2 _ _ _ Hc),
    <- (alike_id _ _ _ Hc).
  by rewrite (alike_elementCurrent nodeCount dt vs vs' x _ _ c c' Hvs Hc).
Qed.

(** Element lists that are alike position by position get the same
    result. *)
Lemma solveCircuit_alike dt (l l' : list CircuitComponent) :
  Forall2 (alike dt) l l' → solveCircuit l dt = solveCircuit l' dt.
Proof.
  intros Hl. pose proof (alike_voltageSources dt l l' Hl) as Hvs.
  unfold solveCircuit, resolveTopology.
  rewrite <- (alike_pointsOf dt l l' Hl).
  set (topo := identifyNodes (pointsOf l) emptyTopology).
  case_bool_decide; [done|].
  assert (assemble (pointToNode topo) (nodeCount topo) dt l
          = assemble (pointToNode topo) (nodeCount topo) dt l') as <-.
  { unfold assemble, mSize. rewrite <- (Forall2_length Hvs).
    rewrite (foldM_Forall2 (alike dt) _ l l' Hl)
      by (intros; by apply alike_stampComponent).
    destruct (foldM _ _ l') as [s|]; simpl; [|done].
    apply (foldMi_Forall2 _ _ _ _ Hvs).
    intros. by apply (alike_stampVoltageSource _ _ dt). }
  destruct (assemble _ _ dt l) as [[A Z]|]; simpl; [|done].
  destruct (gaussianElimination A Z) as [x|]; simpl; [|done].
  f_equal. unfold extract. f_equal.
  - apply (foldl_Forall2 _ _ _ _ _ Hl). intros.
    by apply (alike_recordPotentials _ _ dt).
  - apply (foldl_Forall2 _ _ _ _ _ Hl). intros.
    by apply alike_recordCurrent.
Qed.


Lemma sameInputs_alike dt c c' : sameInputs dt c c' → alike dt c c'.
Proof.
  intros (Hid & Hty & H1 & H2 & Hprops & Hcap & Hind).
  split; try done.
  - by rewrite Hty.
  - by rewrite Hprops.
  - intros _. unfold nortonModel, switchResistance.
    rewrite <- Hty, <- Hprops.
    destruct (c_type c) eqn:E; try done.
    + destruct (gt dt 0) eqn:Hdt; [|done]. by rewrite Hcap.
    + destruct (gt dt 0) eqn:Hdt; [|done]. by rewrite Hind.
  - intros Hb nc vs vs' x v1 v2. unfold elementCurrent, effectiveResistance,
      switchResistance.
    rewrite <- Hty, <- Hprops.
    destruct (c_type c) eqn:E; try done.
    + destruct (gt dt 0) eqn:Hdt; [|done]. by rewrite Hcap.
    + destruct (gt dt 0) eqn:Hdt; [|done]. by rewrite Hind.
Qed.

(** X8. The solver reads of an element its id, type, terminals and
    properties, the previous voltage of a capacitor and the previous current
    of an inductor when [dt > 0], and nothing else: two element lists that
    agree on these, position by position, get the same result.  The fields
    [current], [voltageDrop], [p1Potential] and [p2Potential] are never
    read, and the history of an element that is no capacitor or inductor is
    not either. *)
Theorem solver_reads_only_inputs
    (l l' : list CircuitComponent) (dt : number) :
  Forall2 (sameInputs dt) l l' → solveCircuit l dt = solveCircuit l' dt.
Proof.
  intros Hl. apply solveCircuit_alike.
  induction Hl as [|c c' l l' Hc Hl IH]; constructor;
    [by apply sameInputs_alike | done].
Qed.

Lemma idealType_alike dt c : alike dt c (retype (idealType dt c) c).
Proof.
  split; try done; unfold idealType; simpl.
  - destruct (c_type c) eqn:E; try done.
    + by destruct (isOpen (properties c)) as [[]|].
    + by destruct (gt dt 0).
  - intros Hb. unfold nortonModel, switchResistance. simpl.
    destruct (c_type c) eqn:E; try done.
    + by destruct (isOpen (properties c)) as [[]|].
    + by destruct (gt dt 0).
  - intros Hb nc vs vs' x v1 v2.
    unfold elementCurrent, effectiveResistance, switchResistance. simpl.
    destruct (c_type c) eqn:E; try done.
    + by destruct (isOpen (properties c)) as [[]|].
    + by destruct (gt dt 0).
Qed.

(** X9. Element types the solver does not distinguish: the result is the
    same when every ammeter and every switch that is not open is replaced
    by a wire, every open switch by a voltmeter, every light bulb by a
    resistor and, when [dt > 0] does not hold, every inductor by a wire. *)
Theorem solver_ideal_types (l : list CircuitComponent) (dt : number) :
  solveCircuit (map (λ c, retype (idealType dt c) c) l) dt = solveCircuit l dt.
Proof.
  symmetry. apply solveCircuit_alike.
  induction l as [|c l IH]; simpl; constructor; [apply idealType_alike|done].
Qed.


(** ** The driver over many runs *)

Lemma updateComponent_sameElement r comps :
  Forall2 sameElement (map (updateComponent r) comps) comps.
Proof. induction comps as [|c l IH]; simpl; constructor; [done|exact IH]. Qed.

Lemma tick_sameElement comps comps1 b :
  tick comps = Some (comps1, b) → Forall2 sameElement comps1 comps.
Proof.
  unfold tick, nextComponents.
  destruct (solveCircuit comps SIMULATION_DT) as [r|]; simpl; [|done].
  case_match; intros [= <- <-]; [apply updateComponent_sameElement|].
  apply Forall2_same_length_lookup_2; [done|].
  intros i c c' Hc Hc'. rewrite Hc in Hc'. by injection Hc' as <-.
Qed.

Lemma sameElement_trans l1 l2 l3 :
  Forall2 sameElement l1 l2 → Forall2 sameElement l2 l3 →
  Forall2 sameElement l1 l3.
Proof.
  intros H12. revert l3.
  induction H12 as [|a b l1 l2 Hab H12 IH]; intros l3 H23.
  { by inversion H23. }
  inversion H23 as [|b' c l2' l3' Hbc H23']; subst. constructor; [|by apply IH].
  destruct Hab as (? & ? & ? & ? & ?), Hbc as (? & ? & ? & ? & ?).
  unfold sameElement. split_and!; congruence.
Qed.

Lemma run_sameElement (k : nat) : ∀ comps,
  ∃ final log, run k comps = Some (final, log) ∧ length log = k
               ∧ Forall2 sameElement final comps.
Proof.
  induction k as [|k IH]; intros comps; simpl.
  - exists comps, []. split_and!; [done..|].
    apply Forall2_same_length_lookup_2; [done|].
    intros i c c' Hc Hc'. rewrite Hc in Hc'. by injection Hc' as <-.
  - destruct (nextComponents_total comps) as [next Hnext].
    assert (∃ comps1 b, tick comps = Some (comps1, b))
      as (comps1 & b & Htick).
    { unfold tick. rewrite Hnext. simpl. case_match; by eexists _, _. }
    rewrite Htick. simpl.
    destruct (IH comps1) as (final & log & -> & Hlog & Hsame). simpl.
    exists final, (b :: log). split_and!; [done|by rewrite <- Hlog|].
    eapply sameElement_trans; [exact Hsame|].
    by eapply tick_sameElement.
Qed.

(** X10. The simulation changes no circuit: any number of runs of the loop
    completes, logs one commit decision per run, and leaves a list of the
    same length whose elements have, position by position, the ids, types,
    terminals and properties they had before. *)
Theorem run_keeps_the_circuit (k : nat) (comps : list CircuitComponent) :
  ∃ final log,
    run k comps = Some (final, log)
    ∧ length log = k
    ∧ length final = length comps
    ∧ Forall2 (λ c c0, c_id c = c_id c0 ∧ c_type c = c_type c0
                       ∧ p1 c = p1 c0 ∧ p2 c = p2 c0
                       ∧ properties c = properties c0) final comps.
Proof.
  destruct (run_sameElement k comps) as (final & log & Hrun & Hlog & Hsame).
  exists final, log. split_and!; [done|done| |exact Hsame].
  by eapply Forall2_length.
Qed.

(** [v || 0] is never [NaN]. *)
Lemma orNum_zero_not_nan (o : option number) :
  PrimFloat.is_nan (orNum o 0) = false.
Proof.
  unfold orNum. destruct o as [n|]; [|done].
  unfold truthy. destruct (PrimFloat.is_nan n) eqn:Hn.
  - by rewrite orb_true_r.
  - rewrite orb_false_r. by destruct (PrimFloat.eqb n 0).
Qed.

(** X11. The list a run of the loop computes holds no [NaN] as a current or
    a terminal potential: each element's [current], [p1Potential] and
    [p2Potential] is a number ([NaN] and missing results are stored as [0]),
    the history fields repeat these three values, and a wire, switch or
    ammeter has voltage drop [0]. *)
Theorem update_stores_numbers (comps : list CircuitComponent) :
  ∃ nextComps,
    nextComponents comps = Some nextComps
    ∧ Forall (λ c,
        PrimFloat.is_nan (current c) = false
        ∧ PrimFloat.is_nan (p1Potential c) = false
        ∧ PrimFloat.is_nan (p2Potential c) = false
        ∧ prevCurrent c = Some (current c)
        ∧ prevP1Potential c = Some (p1Potential c)
        ∧ prevP2Potential c = Some (p2Potential c)
        ∧ (c_type c = WIRE ∨ c_type c = SWITCH ∨ c_type c = AMMETER →
           voltageDrop c = 0)) nextComps.
Proof.
  destruct (nextComponents_total comps) as [next Hnext].
  exists next. split; [done|].
  unfold nextComponents in Hnext.
  destruct (solveCircuit comps SIMULATION_DT) as [r|]; simpl in Hnext; [|done].
  injection Hnext as <-. apply list.Forall_forall.
  intros c' (c & -> & Hc)%list_elem_of_fmap. simpl.
  split_and!; try done; try apply orNum_zero_not_nan.
  unfold dropOf. by intros [->|[->| ->]].
Qed.

(** An update by the same result twice is an update once. *)
Lemma updateComponent_idempotent r c :
  updateComponent r (updateComponent r c) = updateComponent r c.
Proof. done. Qed.

(** X12. A circuit without capacitors and inductors commits at most once:
    if the first run of the loop commits, the list it commits is a fixed
    point, and whether it commits or not, no later run signals a change. *)
Theorem static_circuit_settles_in_one_run
    (comps : list CircuitComponent) (k : nat) :
  Forall (λ c, c_type c ≠ CAPACITOR ∧ c_type c ≠ INDUCTOR) comps →
  ∃ nextComps,
    nextComponents comps = Some nextComps
    ∧ nextComponents nextComps = Some nextComps
    ∧ run (S k) comps =
        Some (if hasChanged nextComps comps
              then (nextComps, true :: replicate k false)
              else (comps, false :: replicate k false)).
Proof.
  intros Hstatic.
  destruct (nextComponents_total comps) as [next Hnext].
  assert (nextComponents next = Some next) as Hfix.
  { unfold nextComponents in *.
    destruct (solveCircuit comps SIMULATION_DT) as [r|] eqn:Hr;
      simpl in Hnext; [|done].
    injection Hnext as <-.
    assert (solveCircuit (map (updateComponent r) comps) SIMULATION_DT
            = solveCircuit comps SIMULATION_DT) as ->.
    { apply solveCircuit_alike.
      clear Hr. induction Hstatic as [|c l [Hcap Hind] Hl IH]; simpl;
        constructor; [|exact IH].
      apply sameInputs_alike. by split_and!. }
    rewrite Hr. simpl. f_equal. rewrite map_map.
    apply map_ext. intros c. apply updateComponent_idempotent. }
  exists next. split_and!; [done..|].
  assert (tick comps = Some (if hasChanged next comps then (next, true)
                             else (comps, false))) as Htick.
  { unfold tick. rewrite Hnext. simpl. by case_match. }
  destruct (hasChanged next comps) eqn:Hch.
  - simpl. rewrite Htick. simpl. rewrite run_quiescent; [done|].
    unfold tick. rewrite Hfix. simpl. rewrite hasChanged_same; [done|].
    apply Forall2_same_length_lookup_2; [done|].
    intros i c c' Hc Hc'. rewrite Hc in Hc'. by injection Hc' as <-.
  - by apply (run_quiescent comps (S k)).
Qed.


(** ** Ids in the editor *)

Lemma list_ascii_of_append (s t : string) :
  String.list_ascii_of_string (s +:+ t)
  = String.list_ascii_of_string s ++ String.list_ascii_of_string t.
Proof.
  induction s as [|c s IH]; [done|].
  change (String c s +:+ t) with (String c (s +:+ t)). simpl. by rewrite IH.
Qed.

Lemma append_inj_suffix (s s' t : string) : s +:+ t = s' +:+ t → s = s'.
Proof.
  intros H. apply (f_equal String.list_ascii_of_string) in H.
  rewrite !list_ascii_of_append in H. apply app_inv_tail in H.
  apply (f_equal String.string_of_list_ascii) in H.
  by rewrite !String.string_of_list_ascii_of_string in H.
Qed.

Lemma p1_p2_differ (s s' : string) : s +:+ "-p1" ≠ s' +:+ "-p2".
Proof.
  intros H. apply (f_equal String.list_ascii_of_string) in H.
  rewrite !list_ascii_of_append in H.
  apply app_inj_2 in H as [_ H]; [discriminate|done].
Qed.

Lemma wellNamed_ids (l l' : list CircuitComponent) :
  idsOf <$> l' = idsOf <$> l → wellNamed l → wellNamed l'.
Proof.
  intros Hids [Hnd Hnamed]. split.
  - replace (c_id <$> l') with ((λ ids, ids.1.1) <$> (idsOf <$> l'))
      by (by rewrite <- list_fmap_compose).
    rewrite Hids. by rewrite <- list_fmap_compose.
  - apply (proj1 (Forall_fmap idsOf named l')). rewrite Hids.
    by apply (proj2 (Forall_fmap idsOf named l)).
Qed.

Lemma wellNamed_map (f : CircuitComponent → CircuitComponent) l :
  (∀ c, idsOf (f c) = idsOf c) → wellNamed l → wellNamed (map f l).
Proof.
  intros Hf. apply wellNamed_ids.
  rewrite <- list_fmap_compose. apply list_fmap_ext. intros i c _. apply Hf.
Qed.

Lemma wellNamed_insert l i (a a' : CircuitComponent) :
  l !! i = Some a → idsOf a' = idsOf a → wellNamed l →
  wellNamed (<[i := a']> l).
Proof.
  intros Ha Hids. apply wellNamed_ids.
  rewrite list_fmap_insert, Hids. apply list_insert_id.
  by rewrite list_lookup_fmap, Ha.
Qed.

Lemma pointsOf_ids l id :
  id ∈ t_id <$> pointsOf l ↔
  ∃ c, c ∈ l ∧ (id = pt_id (p1 c) ∨ id = pt_id (p2 c)).
Proof.
  split.
  - intros (t & -> & Ht)%list_elem_of_fmap. unfold pointsOf in Ht.
    apply list_elem_of_In, in_flat_map in Ht as (c & Hc%list_elem_of_In & Ht).
    exists c. split; [done|]. destruct Ht as [<-|[<-|[]]]; simpl; eauto.
  - intros (c & Hc & [->| ->]).
    + apply (list_elem_of_fmap_2 t_id _ (terminalOf (p1 c) (c_id c))).
      by apply pointsOf_p1.
    + apply (list_elem_of_fmap_2 t_id _ (terminalOf (p2 c) (c_id c))).
      by apply pointsOf_p2.
Qed.

(** Terminal ids are unique in a well-named list. *)
Lemma wellNamed_terminals l : wellNamed l → NoDup (t_id <$> pointsOf l).
Proof.
  intros [Hnd Hnamed]. induction l as [|c l IH]; [constructor|].
  rewrite fmap_cons in Hnd. apply list.NoDup_cons in Hnd as [Hc Hnd].
  apply list.Forall_cons in Hnamed as [[Hp1 Hp2] Hnamed]. simpl in Hp1, Hp2.
  change (pointsOf (c :: l))
    with (terminalOf (p1 c) (c_id c) :: terminalOf (p2 c) (c_id c) :: pointsOf l).
  rewrite !fmap_cons. simpl.
  assert (∀ id, id ∈ t_id <$> pointsOf l →
            ∃ s, s ∈ c_id <$> l ∧ (id = s +:+ "-p1" ∨ id = s +:+ "-p2"))
    as Hrest.
  { intros id (d & Hd & Hid)%pointsOf_ids.
    pose proof (proj1 (list.Forall_forall _ _) Hnamed d Hd) as [Hd1 Hd2].
    simpl in Hd1, Hd2. exists (c_id d).
    split; [by apply list_elem_of_fmap_2|]. destruct Hid as [->| ->]; eauto. }
  apply list.NoDup_cons. split; [|apply list.NoDup_cons; split; [|by apply IH]].
  - rewrite Hp1, Hp2. intros [Heq|Hin]%elem_of_cons.
    + by apply p1_p2_differ in Heq.
    + apply Hrest in Hin as (s & Hs & [Heq|Heq]).
      * apply append_inj_suffix in Heq. by subst.
      * by apply p1_p2_differ in Heq.
  - rewrite Hp2. intros Hin. apply Hrest in Hin as (s & Hs & [Heq|Heq]).
    + symmetry in Heq. by apply p1_p2_differ in Heq.
    + apply append_inj_suffix in Heq. by subst.
Qed.


Lemma wellNamed_add id type components prev :
  id ∉ c_id <$> prev → wellNamed prev →
  wellNamed (handleAddComponent id type components prev).
Proof.
  intros Hid [Hnd Hnamed]. unfold handleAddComponent. split.
  - rewrite fmap_app. apply list.NoDup_app. split_and!; [done| |].
    + intros s Hs [->|[]%elem_of_nil]%elem_of_cons. done.
    + simpl. apply NoDup_singleton.
  - apply list.Forall_app. split; [done|]. by repeat constructor.
Qed.

Lemma wellNamed_delete id prev :
  wellNamed prev → wellNamed (handleDelete id prev).
Proof.
  intros [Hnd Hnamed]. unfold handleDelete. split.
  - apply (sublist_NoDup _ (c_id <$> prev)); [done|].
    apply fmap_sublist, sublist_filter.
  - apply list.Forall_forall. intros c [_ Hc]%list_elem_of_filter.
    by apply (proj1 (list.Forall_forall _ _) Hnamed).
Qed.

Lemma snapHandle_id activeId nextComps handle :
  pt_id (snapHandle activeId nextComps handle) = pt_id handle.
Proof.
  unfold snapHandle. revert handle.
  induction nextComps as [|o l IH]; intros handle; simpl; [done|].
  rewrite IH. unfold snapStep. by repeat case_match.
Qed.

Lemma dragElement_ids d dx dy c : idsOf (dragElement d dx dy c) = idsOf c.
Proof. unfold dragElement. by repeat case_match. Qed.

Lemma wellNamed_snap d prev nextComps :
  wellNamed prev → wellNamed nextComps →
  wellNamed (snapComponents d prev nextComps).
Proof.
  intros Hprev Hnext. unfold snapComponents.
  destruct (list_find _ nextComps) as [[i a]|] eqn:Hfind; [|done].
  apply list_find_Some in Hfind as (Ha & _).
  apply (wellNamed_insert _ _ a); [done| |done].
  unfold idsOf. repeat case_match; simpl; by rewrite ?snapHandle_id.
Qed.

(** X13. Editing keeps the ids apart. In a list whose element ids are
    unique and whose terminals are called [<id>-p1] and [<id>-p2], the
    terminal ids are unique; and the list stays such under every handler:
    adding an element of an id the list does not have, deleting, changing
    properties, clicking, dragging, dropping with snapping, and any number
    of runs of the simulation loop. *)
Theorem editing_keeps_ids_unique (prev : list CircuitComponent) :
  wellNamed prev →
  NoDup (t_id <$> pointsOf prev)
  ∧ (∀ id type components,
       id ∉ c_id <$> prev →
       wellNamed (handleAddComponent id type components prev))
  ∧ (∀ id, wellNamed (handleDelete id prev))
  ∧ (∀ id changes, wellNamed (handlePropertyChange id changes prev))
  ∧ (∀ dragState components, wellNamed (handleClick dragState components prev))
  ∧ (∀ dragState pos, wellNamed (handleMouseMove dragState pos prev).2)
  ∧ (∀ dragState nextComps,
       wellNamed nextComps →
       wellNamed (snapComponents dragState prev nextComps))
  ∧ (∀ k, ∃ final log, run k prev = Some (final, log) ∧ wellNamed final).
Proof.
  intros Hprev. split_and!.
  - by apply wellNamed_terminals.
  - intros. by apply wellNamed_add.
  - intros. by apply wellNamed_delete.
  - intros id changes. apply wellNamed_map; [|done].
    intros c. by case_bool_decide.
  - intros d components. unfold handleClick.
    repeat case_match; try done.
    apply wellNamed_map; [|done]. intros e. by case_bool_decide.
  - intros [d|] pos; simpl; [|done].
    repeat case_match; simpl; try done.
    apply wellNamed_map; [|done]. intros e. apply dragElement_ids.
  - intros. by apply wellNamed_snap.
  - intros k.
    destruct (run_sameElement k prev) as (final & log & Hrun & _ & Hsame).
    exists final, log. split; [done|].
    apply (wellNamed_ids prev); [|done].
    clear Hrun Hprev. induction Hsame as [|c c0 l l0 Hc Hl IH]; [done|].
    rewrite !fmap_cons, IH. f_equal.
    destruct Hc as (Hid & _ & H1 & H2 & _). unfold idsOf. by rewrite Hid, H1, H2.
Qed.


(** ** Adding, deleting and changing elements *)

(** X14. Deleting undoes adding: when no element of the list has the id, the
    list with a new element of this id added and then deleted by id is the
    list itself; and whatever the list, deleting by id leaves exactly the
    elements of other ids, in their order. *)
Theorem delete_undoes_add
    (id : string) (type : ComponentType)
    (components prev : list CircuitComponent) :
  id ∉ c_id <$> prev →
  handleDelete id (handleAddComponent id type components prev) = prev
  ∧ ∀ id' l, handleDelete id' l `sublist_of` l
             ∧ ∀ c, c ∈ handleDelete id' l ↔ c ∈ l ∧ c_id c ≠ id'.
Proof.
  intros Hid. split.
  - unfold handleDelete, handleAddComponent. rewrite list.filter_app.
    rewrite list.filter_cons_False by (simpl; by intros []).
    rewrite filter_nil, app_nil_r.
    clear components. induction prev as [|c l IH]; [done|].
    rewrite fmap_cons in Hid. apply not_elem_of_cons in Hid as [Hc Hl].
    rewrite list.filter_cons_True by done. by rewrite IH.
  - intros id' l. split; [apply sublist_filter|].
    intros c. unfold handleDelete. rewrite list_elem_of_filter. tauto.
Qed.

Lemma withProperties_same c : withProperties c (properties c) = c.
Proof. by destruct c. Qed.

Lemma mergeProperties_twice p changes :
  mergeProperties (mergeProperties p changes) changes
  = mergeProperties p changes.
Proof.
  unfold mergeProperties. simpl.
  by destruct (ch_resistance changes), (ch_voltage changes),
    (ch_isOpen changes), (ch_capacitance changes), (ch_inductance changes).
Qed.

Lemma pointsOf_map (f : CircuitComponent → CircuitComponent) l :
  (∀ c, c_id (f c) = c_id c ∧ p1 (f c) = p1 c ∧ p2 (f c) = p2 c) →
  pointsOf (map f l) = pointsOf l.
Proof.
  intros Hf. unfold pointsOf. induction l as [|c l IH]; simpl; [done|].
  destruct (Hf c) as (-> & -> & ->). by rewrite IH.
Qed.

(** X15. A property change touches the properties of the elements of the
    given id and nothing else: it keeps the length, every element of another
    id, and of the changed elements every field but [properties], so the
    circuit resolves to the same nodes; a change without keys changes
    nothing; and applying a change twice is applying it once. *)
Theorem property_change_is_local
    (id : string) (changes : PropertyChanges) (prev : list CircuitComponent) :
  let next := handlePropertyChange id changes prev in
  Forall2 (λ c' c,
      c_id c' = c_id c ∧ c_type c' = c_type c ∧ p1 c' = p1 c ∧ p2 c' = p2 c
      ∧ current c' = current c ∧ voltageDrop c' = voltageDrop c
      ∧ p1Potential c' = p1Potential c ∧ p2Potential c' = p2Potential c
      ∧ prevCurrent c' = prevCurrent c
      ∧ prevP1Potential c' = prevP1Potential c
      ∧ prevP2Potential c' = prevP2Potential c
      ∧ (c_id c ≠ id → c' = c)) next prev
  ∧ resolveTopology next = resolveTopology prev
  ∧ handlePropertyChange id (mkChanges None None None None None) prev = prev
  ∧ handlePropertyChange id changes next = next.
Proof.
  intros next. unfold next, handlePropertyChange. split_and!.
  - induction prev as [|c l IH]; simpl; constructor; [|exact IH].
    case_bool_decide as Hc; simpl; by split_and!.
  - unfold resolveTopology. f_equal. apply pointsOf_map.
    intros c. by case_bool_decide.
  - induction prev as [|c l IH]; simpl; [done|]. rewrite IH. f_equal.
    case_bool_decide; [|done]. destruct c as [? ? ? ? []]. done.
  - rewrite map_map. apply map_ext. intros c.
    destruct (decide (c_id c = id)) as [Hc|Hc].
    + rewrite (bool_decide_eq_true_2 _ Hc). simpl.
      rewrite (bool_decide_eq_true_2 _ Hc). unfold withProperties. simpl.
      by rewrite mergeProperties_twice.
    + by rewrite !(bool_decide_eq_false_2 _ Hc).
Qed.


(** ** Clicking a switch *)

Lemma handleClick_cases d components prev :
  handleClick d components prev = prev
  ∨ drag_type d = COMPONENT
    ∧ ∃ i comp,
        list_find (λ c, c_id c = drag_compId d) components = Some (i, comp)
        ∧ c_type comp = SWITCH
        ∧ handleClick d components prev = map (toggleIn (drag_compId d)) prev.
Proof.
  unfold handleClick. destruct (drag_type d); [|by left].
  destruct (list_find _ components) as [[i comp]|] eqn:Hfind; [|by left].
  unfold isType. case_bool_decide as Hty; [|by left].
  right. split; [done|]. exists i, comp. split_and!; [done..|].
  apply list_find_Some in Hfind as (_ & -> & _). done.
Qed.

Lemma list_find_toggleIn id id' (l : list CircuitComponent) :
  list_find (λ c, c_id c = id') (map (toggleIn id) l)
  = prod_map Datatypes.id (toggleIn id) <$> list_find (λ c, c_id c = id') l.
Proof.
  rewrite (list_find_fmap (toggleIn id) (λ c, c_id c = id') l).
  f_equal. apply list_find_ext. intros c. simpl.
  unfold toggleIn. by case_bool_decide.
Qed.

Lemma toggled_twice_alike dt id c : alike dt (toggleIn id (toggleIn id c)) c.
Proof.
  unfold toggleIn. destruct (decide (c_id c = id)) as [Hid|Hid].
  2:{ rewrite !(bool_decide_eq_false_2 _ Hid).
      apply sameInputs_alike. by split_and!. }
  rewrite (bool_decide_eq_true_2 _ Hid). simpl.
  rewrite (bool_decide_eq_true_2 _ Hid).
  split; try done.
  - intros Hb. simpl in Hb. unfold nortonModel, switchResistance. simpl.
    destruct (c_type c); try done.
    by destruct (isOpen (properties c)) as [[]|].
  - intros Hb nc vs vs' x v1 v2. simpl in Hb.
    unfold elementCurrent, effectiveResistance, switchResistance. simpl.
    destruct (c_type c); try done.
    by destruct (isOpen (properties c)) as [[]|].
Qed.

(** X16. A click on a switch flips it, and a second click flips it back.
    When the drag is on the body of an element and the first element of the
    dragged id is a switch, the click turns the switch resistance of every
    element of this id from [1e9] to [1e-6] if it was open and from [1e-6]
    to [1e9] if not, and touches no element of another id; a click on a handle
    changes nothing; no click changes the nodes the circuit resolves to; and
    after two clicks on the same element the solver returns what it returned
    before the first. *)
Theorem click_flips_the_switch
    (dragState : DragState) (s : list CircuitComponent) (dt : number) :
  let s1 := handleClick dragState s s in
  let s2 := handleClick dragState s1 s1 in
  (∀ i comp,
     drag_type dragState = COMPONENT →
     list_find (λ c, c_id c = drag_compId dragState) s = Some (i, comp) →
     c_type comp = SWITCH →
     Forall2 (λ c' c,
         if bool_decide (c_id c = drag_compId dragState) then
           c_id c' = c_id c ∧ c_type c' = c_type c
           ∧ switchResistance c'
             = match isOpen (properties c) with
               | Some true => EPSILON_RESISTANCE
               | _ => INFINITE_RESISTANCE
               end
         else c' = c) s1 s)
  ∧ (drag_type dragState = HANDLE → s1 = s)
  ∧ resolveTopology s1 = resolveTopology s
  ∧ solveCircuit s2 dt = solveCircuit s dt.
Proof.
  intros s1 s2. split_and!.
  - intros i comp Hty Hfind Hsw. unfold s1, handleClick.
    rewrite Hty, Hfind. unfold isType.
    rewrite bool_decide_eq_true_2 by done.
    apply list_find_Some in Hfind as (_ & Hid & _). rewrite Hid.
    clear. induction s as [|c l IH]; simpl; constructor; [|exact IH].
    case_bool_decide; [|done]. unfold switchResistance. simpl.
    split_and!; [done..|]. by destruct (isOpen (properties c)) as [[]|].
  - intros Hty. unfold s1, handleClick. by rewrite Hty.
  - unfold s1.
    destruct (handleClick_cases dragState s s)
      as [->|(_ & _ & _ & _ & _ & ->)]; [done|].
    unfold resolveTopology. f_equal. apply pointsOf_map.
    intros c. unfold toggleIn. by case_bool_decide.
  - unfold s2, s1.
    destruct (handleClick_cases dragState s s)
      as [Hsame|(Hty & i & comp & Hfind & Hsw & Hs1)].
    { by rewrite !Hsame. }
    rewrite Hs1.
    assert (handleClick dragState (map (toggleIn (drag_compId dragState)) s)
              (map (toggleIn (drag_compId dragState)) s)
            = map (toggleIn (drag_compId dragState))
                  (map (toggleIn (drag_compId dragState)) s)) as ->.
    { unfold handleClick at 1. rewrite Hty, list_find_toggleIn, Hfind. simpl.
      assert (isType (toggleIn (drag_compId dragState) comp) SWITCH = true)
        as ->.
      { unfold isType, toggleIn. apply bool_decide_eq_true_2.
        by case_bool_decide. }
      apply list_find_Some in Hfind as (_ & Hid & _).
      apply map_ext. intros c.
      replace (c_id (toggleIn (drag_compId dragState) comp))
        with (drag_compId dragState); [done|].
      unfold toggleIn. by case_bool_decide. }
    apply solveCircuit_alike. rewrite map_map.
    clear. induction s as [|c l IH]; simpl; constructor;
      [apply toggled_twice_alike | exact IH].
Qed.


(** ** Dragging *)

(** X17. A press and release on the body of an element is a click, and a
    drag moves only what is dragged.  Pressing on the body of an element of
    the list starts a drag that is not yet marked as moved; while the
    pointer stays within 5 units of where it was pressed, a move event
    changes neither the drag nor the element list, and the first event
    further away marks the drag as moved without moving anything; releasing
    an unmoved drag toggles the element if it is a switch and changes
    nothing otherwise.  Once the drag is marked, a move event leaves every
    element of another id as it is and changes, of a dragged element,
    nothing but the coordinates of its terminals. *)
Theorem press_release_clicks_and_drag_is_local
    (pos : number * number) (compId : string)
    (components : list CircuitComponent) (before : option DragState)
    (i : nat) (comp : CircuitComponent) :
  list_find (λ c, c_id c = compId) components = Some (i, comp) →
  ∃ d,
    handleMouseDown pos compId None components before = Some d
    ∧ drag_hasMoved d = false
    ∧ (∀ pos' prev,
         handleMouseMove (Some d) pos' prev =
           (if lt (hypot (pos'.1 - pos.1) (pos'.2 - pos.2)) 5 then Some d
            else Some (mkDragState COMPONENT compId None pos.1 pos.2
                         (p1 comp) (p2 comp) true),
            prev))
    ∧ (∀ prev nextComps,
         handleMouseUp (Some d) components prev nextComps =
           (None, if isType comp SWITCH
                  then map (λ c, if bool_decide (c_id c = compId)
                                 then toggled c else c) prev
                  else prev))
    ∧ (∀ d' pos' prev,
         drag_hasMoved d' = true →
         ∃ next,
           handleMouseMove (Some d') pos' prev = (Some d', next)
           ∧ Forall2 (λ c' c,
               (c_id c ≠ drag_compId d' → c' = c)
               ∧ c_id c' = c_id c ∧ c_type c' = c_type c
               ∧ properties c' = properties c
               ∧ pt_id (p1 c') = pt_id (p1 c) ∧ pt_id (p2 c') = pt_id (p2 c)
               ∧ current c' = current c ∧ voltageDrop c' = voltageDrop c
               ∧ p1Potential c' = p1Potential c
               ∧ p2Potential c' = p2Potential c
               ∧ prevCurrent c' = prevCurrent c
               ∧ prevP1Potential c' = prevP1Potential c
               ∧ prevP2Potential c' = prevP2Potential c) next prev).
Proof.
  intros Hfind. unfold handleMouseDown. rewrite Hfind.
  eexists. split; [done|]. split; [done|]. split_and!.
  - intros pos' prev. simpl. by case_match.
  - intros prev nextComps. simpl. unfold handleClick. simpl.
    rewrite Hfind. apply list_find_Some in Hfind as (_ & -> & _). done.
  - intros d' pos' prev Hmoved. eexists. split.
    { simpl. by rewrite Hmoved. }
    induction prev as [|c l IH]; simpl; constructor; [|exact IH].
    unfold dragElement. case_bool_decide as Hid; simpl.
    + by split_and!.
    + split_and!; try done; by repeat case_match.
Qed.


(** ** Dropping with snapping *)

Lemma snapStep_lands activeId handle other :
  snapStep activeId handle other = handle
  ∨ c_id other ≠ activeId
    ∧ (at_ (snapStep activeId handle other) = at_ (p1 other)
       ∨ at_ (snapStep activeId handle other) = at_ (p2 other)).
Proof.
  unfold snapStep. case_bool_decide; [by left|].
  repeat case_match; [right; split; [done|by left]
                     |right; split; [done|by right]|by left].
Qed.

Lemma snapHandle_lands activeId nextComps : ∀ handle,
  at_ (snapHandle activeId nextComps handle) = at_ handle
  ∨ ∃ other, other ∈ nextComps ∧ c_id other ≠ activeId
      ∧ (at_ (snapHandle activeId nextComps handle) = at_ (p1 other)
         ∨ at_ (snapHandle activeId nextComps handle) = at_ (p2 other)).
Proof.
  unfold snapHandle.
  induction nextComps as [|o l IH]; intros handle; simpl; [by left|].
  destruct (IH (snapStep activeId handle o))
    as [Hsame|(other & Hin & Hne & Hat)].
  - rewrite Hsame.
    destruct (snapStep_lands activeId handle o) as [->|[Hne Hat]];
      [by left|].
    right. exists o. split_and!; [by left|done..].
  - right. exists other. split_and!; [by right|done..].
Qed.

Lemma snapHandle_stays activeId nextComps handle :
  (∀ other, other ∈ nextComps → c_id other ≠ activeId →
     near handle (p1 other) = false ∧ near handle (p2 other) = false) →
  snapHandle activeId nextComps handle = handle.
Proof.
  unfold snapHandle. induction nextComps as [|o l IH]; intros Hfar; simpl.
  { done. }
  assert (snapStep activeId handle o = handle) as ->.
  { unfold snapStep. case_bool_decide as Hid; [done|].
    destruct (Hfar o) as [H1 H2]; [by left|done|].
    unfold near in H1, H2. by rewrite H1, H2. }
  apply IH. intros other Hin. apply Hfar. by right.
Qed.

(** X18. A dropped handle ends where it was or exactly on a terminal of an
    element of another id: the snap loop keeps the handle's id, leaves the
    handle where it is when no terminal of another element is within 15
    units of it, and otherwise leaves it at the coordinates of such a
    terminal. *)
Theorem dropped_handle_lands_on_a_terminal
    (activeId : string) (nextComps : list CircuitComponent) (handle : Point) :
  let dropped := snapHandle activeId nextComps handle in
  pt_id dropped = pt_id handle
  ∧ ((pt_x dropped, pt_y dropped) = (pt_x handle, pt_y handle)
     ∨ ∃ other, other ∈ nextComps ∧ c_id other ≠ activeId
         ∧ ((pt_x dropped, pt_y dropped) = (pt_x (p1 other), pt_y (p1 other))
            ∨ (pt_x dropped, pt_y dropped)
              = (pt_x (p2 other), pt_y (p2 other))))
  ∧ ((∀ other, other ∈ nextComps → c_id other ≠ activeId →
        lt (hypot (pt_x handle - pt_x (p1 other))
                  (pt_y handle - pt_y (p1 other))) 15 = false
        ∧ lt (hypot (pt_x handle - pt_x (p2 other))
                    (pt_y handle - pt_y (p2 other))) 15 = false) →
     dropped = handle).
Proof.
  intros dropped. split_and!.
  - apply snapHandle_id.
  - apply snapHandle_lands.
  - apply snapHandle_stays.
Qed.


(** A handle that was dropped on a terminal shares the terminal's node. *)
Lemma landed_handle_connected next (a' : CircuitComponent) (h : Point)
    (other : CircuitComponent) :
  NoDup (t_id <$> pointsOf next) →
  (∀ p, p ∈ pointsOf next → snaps p p = true) →
  terminalOf h (c_id a') ∈ pointsOf next → other ∈ next →
  at_ h = at_ (p1 other) ∨ at_ h = at_ (p2 other) →
  ∃ q, q ∈ pointsOf next ∧ t_compId q = c_id other
       ∧ (t_x q, t_y q) = (pt_x h, pt_y h)
       ∧ nodeOf (resolveTopology next) (pt_id h)
         = nodeOf (resolveTopology next) (t_id q).
Proof.
  intros Hnd Hself Hh Hother Hat.
  assert (∃ q, q ∈ pointsOf next ∧ t_compId q = c_id other
               ∧ (t_x q, t_y q) = (pt_x h, pt_y h)) as (q & Hq & Hcomp & Hxy).
  { destruct Hat as [Hat|Hat]; unfold at_ in Hat.
    - exists (terminalOf (p1 other) (c_id other)).
      split_and!; [by apply pointsOf_p1|done|done].
    - exists (terminalOf (p2 other) (c_id other)).
      split_and!; [by apply pointsOf_p2|done|done]. }
  exists q. split_and!; [done..|].
  injection Hxy as Hx Hy.
  apply (resolveTopology_colocated next (terminalOf h (c_id a')) q);
    [done|done|done|done|done|by apply Hself].
Qed.

(** X19. A handle that snaps is connected.  After a drop, in a list with
    unique terminal ids and at coordinates where the solver's snap test
    holds of a point against itself, each handle the drop checked ([p1] and
    [p2] of the dragged element for a drag of the body, the dragged handle
    otherwise) either has the coordinates it had before the drop, or has the
    coordinates of a terminal of an element of another id and is resolved
    by the solver to the node of that terminal. *)
Theorem snapped_handle_is_connected
    (dragState : DragState) (prev nextComps : list CircuitComponent)
    (i : nat) (activeComp : CircuitComponent) :
  let next := snapComponents dragState prev nextComps in
  let topo := resolveTopology next in
  list_find (λ c, c_id c = drag_compId dragState) nextComps
    = Some (i, activeComp) →
  NoDup (t_id <$> pointsOf next) →
  (∀ p, p ∈ pointsOf next → snaps p p = true) →
  ∃ dropped,
    next !! i = Some dropped ∧ c_id dropped = c_id activeComp
    ∧ (drag_type dragState = COMPONENT ∨ drag_handle dragState = Some P1 →
       (pt_x (p1 dropped), pt_y (p1 dropped))
         = (pt_x (p1 activeComp), pt_y (p1 activeComp))
       ∨ ∃ q, q ∈ pointsOf next ∧ t_compId q ≠ c_id activeComp
              ∧ (t_x q, t_y q) = (pt_x (p1 dropped), pt_y (p1 dropped))
              ∧ nodeOf topo (pt_id (p1 dropped)) = nodeOf topo (t_id q))
    ∧ (drag_type dragState = COMPONENT ∨ drag_handle dragState ≠ Some P1 →
       (pt_x (p2 dropped), pt_y (p2 dropped))
         = (pt_x (p2 activeComp), pt_y (p2 activeComp))
       ∨ ∃ q, q ∈ pointsOf next ∧ t_compId q ≠ c_id activeComp
              ∧ (t_x q, t_y q) = (pt_x (p2 dropped), pt_y (p2 dropped))
              ∧ nodeOf topo (pt_id (p2 dropped)) = nodeOf topo (t_id q)).
Proof.
  intros next topo Hfind. subst topo.
  pose proof Hfind as (Ha & _)%list_find_Some.
  apply lookup_lt_Some in Ha as Hi.
  set (snap := snapHandle (c_id activeComp) nextComps).
  set (dropped :=
         match drag_type dragState with
         | COMPONENT =>
             withP2 (withP1 activeComp (snap (p1 activeComp)))
                    (snap (p2 activeComp))
         | HANDLE =>
             if bool_decide (drag_handle dragState = Some P1)
             then withP1 activeComp (snap (p1 activeComp))
             else withP2 activeComp (snap (p2 activeComp))
         end).
  assert (next = <[i := dropped]> nextComps) as Hnext
    by (unfold next, snapComponents; by rewrite Hfind).
  clearbody next. subst next.
  set (l := <[i := dropped]> nextComps). intros Hnd Hself.
  assert (l !! i = Some dropped) as Hdropped
    by (by apply list_lookup_insert_eq).
  assert (c_id dropped = c_id activeComp) as Hid
    by (unfold dropped; by repeat case_match).
  assert (dropped ∈ l) as Hin by (by eapply list_elem_of_lookup_2).
  assert (∀ other, other ∈ nextComps → c_id other ≠ c_id activeComp →
            other ∈ l) as Hkept.
  { intros other [j Hj]%list_elem_of_lookup Hne.
    apply list_elem_of_lookup. exists j. unfold l.
    rewrite list_lookup_insert_ne; [done|]. intros <-. congruence. }
  assert (∀ h, (h = p1 dropped ∨ h = p2 dropped) →
            ∀ h0, h = snap h0 →
            (pt_x h, pt_y h) = (pt_x h0, pt_y h0)
            ∨ ∃ q, q ∈ pointsOf l ∧ t_compId q ≠ c_id activeComp
                   ∧ (t_x q, t_y q) = (pt_x h, pt_y h)
                   ∧ nodeOf (resolveTopology l) (pt_id h)
                     = nodeOf (resolveTopology l) (t_id q)) as Hhandle.
  { intros h Hh h0 ->.
    destruct (snapHandle_lands (c_id activeComp) nextComps h0)
      as [Hsame|(other & Hother & Hne & Hat)]; [by left|].
    right. fold snap in Hat.
    destruct (landed_handle_connected l dropped (snap h0) other)
      as (q & Hq & Hcomp & Hxy & Hnode); try done.
    - destruct Hh as [->| ->]; [by apply pointsOf_p1 | by apply pointsOf_p2].
    - by apply Hkept.
    - exists q. split_and!; [done| |done..]. by rewrite Hcomp. }
  exists dropped. split_and!; [done..| |].
  - intros Hchecked. apply Hhandle; [by left|].
    unfold dropped. destruct (drag_type dragState); [done|].
    destruct Hchecked as [?|Hp1]; [done|].
    by rewrite (bool_decide_eq_true_2 _ Hp1).
  - intros Hchecked. apply Hhandle; [by right|].
    unfold dropped. destruct (drag_type dragState); [done|].
    destruct Hchecked as [?|Hp1]; [done|].
    by rewrite (bool_decide_eq_false_2 _ Hp1).
Qed.


(** ** The equation of a battery *)

Lemma row_below (p2n : gmap string nat) nodeCount id :
  (∀ i k, p2n !! i = Some k → (k < nodeCount)%nat) →
  isNonGround (p2n !! id) = true → (rowOf (p2n !! id) < nodeCount - 1)%nat.
Proof.
  intros Hb. destruct (p2n !! id) as [k|] eqn:E; simpl; [|done].
  intros Hk%bool_decide_eq_true. apply Hb in E. lia.
Qed.

(** A conductance stamp stays in the block of the node rows and columns. *)
Lemma addConductance_frame nodeCount n1 n2 g (A A' : matrix) i j :
  (isNonGround n1 = true → (rowOf n1 < nodeCount - 1)%nat) →
  (isNonGround n2 = true → (rowOf n2 < nodeCount - 1)%nat) →
  addConductance n1 n2 g A = Some A' →
  (nodeCount - 1 ≤ i ∨ nodeCount - 1 ≤ j)%nat →
  mget A' i j = mget A i j.
Proof.
  intros H1 H2. unfold addConductance. intros Hadd Hij.
  destruct (if isNonGround n1 then _ else _) as [A1|] eqn:E1;
    simpl in Hadd; [|done].
  destruct (if isNonGround n2 then _ else _) as [A2|] eqn:E2;
    simpl in Hadd; [|done].
  assert (mget A1 i j = mget A i j) as <-.
  { destruct (isNonGround n1); [|by injection E1 as <-].
    rewrite (mupd_mget _ _ _ _ _ i j E1).
    rewrite bool_decide_eq_false_2; [done|]. specialize (H1 eq_refl). lia. }
  assert (mget A2 i j = mget A1 i j) as <-.
  { destruct (isNonGround n2); [|by injection E2 as <-].
    rewrite (mupd_mget _ _ _ _ _ i j E2).
    rewrite bool_decide_eq_false_2; [done|]. specialize (H2 eq_refl). lia. }
  destruct (isNonGround n1), (isNonGround n2); simpl in Hadd;
    try (by injection Hadd as <-).
  destruct (mupd A2 _ _ _) as [A3|] eqn:E3; simpl in Hadd; [|done].
  rewrite (mupd_mget _ _ _ _ _ i j Hadd).
  rewrite bool_decide_eq_false_2
    by (specialize (H1 eq_refl); specialize (H2 eq_refl); lia).
  rewrite (mupd_mget _ _ _ _ _ i j E3).
  rewrite bool_decide_eq_false_2; [done|].
  specialize (H1 eq_refl). specialize (H2 eq_refl). lia.
Qed.

(** The stamp of an element is no battery's business: it leaves the rows
    and columns of the voltage sources as they are. *)
Lemma stampComponent_frame (p2n : gmap string nat) nodeCount dt s comp s' :
  (∀ i k, p2n !! i = Some k → (k < nodeCount)%nat) →
  stampComponent p2n dt s comp = Some s' →
  (∀ i j, (nodeCount - 1 ≤ i ∨ nodeCount - 1 ≤ j)%nat →
          mget s'.1 i j = mget s.1 i j)
  ∧ ∀ k, (nodeCount - 1 ≤ k)%nat → s'.2 !! k = s.2 !! k.
Proof.
  intros Hb. destruct s as [A Z]. unfold stampComponent.
  destruct (isType comp BATTERY); [by intros [= <-]|].
  case_bool_decide; [by intros [= <-]|].
  destruct (nortonModel comp dt) as [g cur]. unfold stampNorton.
  destruct (addConductance _ _ g A) as [A'|] eqn:EA; simpl; [|done].
  intros Hs.
  assert (∀ i j, (nodeCount - 1 ≤ i ∨ nodeCount - 1 ≤ j)%nat →
                 mget A' i j = mget A i j) as HA.
  { intros i j. eapply addConductance_frame; [| |exact EA];
      by apply row_below. }
  destruct (strictNe cur 0); [|by injection Hs as <-].
  destruct (addCurrentSource _ _ cur Z) as [Z'|] eqn:EZ; simpl in Hs; [|done].
  injection Hs as <-. split; [done|]. simpl. intros k Hk.
  rewrite (addCurrentSource_entries _ _ _ _ _ k EZ). unfold sourced.
  rewrite !bool_decide_eq_false_2.
  - by destruct (Z !! k).
  - intros E. apply Hb in E. lia.
  - intros E. apply Hb in E. lia.
Qed.

(** The stamp of a battery writes its own row, and no other battery's. *)
Lemma stampVoltageSource_rows (p2n : gmap string nat) nodeCount s idx comp s' :
  (∀ i k, p2n !! i = Some k → (k < nodeCount)%nat) →
  stampVoltageSource p2n nodeCount s idx comp = Some s' →
  (∀ i j, (nodeCount - 1 ≤ i)%nat →
     mget s'.1 i j =
       (if bool_decide (i = (nodeCount - 1) + idx)%nat
        then batteryRow (p2n !! pt_id (p1 comp)) (p2n !! pt_id (p2 comp)) j
        else λ a, a) <$> mget s.1 i j)
  ∧ ∀ k, s'.2 !! k =
      (if bool_decide (k = (nodeCount - 1) + idx)%nat
       then λ _, orNum (voltage (properties comp)) 9 else λ a, a) <$> s.2 !! k.
Proof.
  intros Hb. destruct s as [A Z]. unfold stampVoltageSource, mset, vset.
  set (n1 := p2n !! pt_id (p1 comp)). set (n2 := p2n !! pt_id (p2 comp)).
  set (v := ((nodeCount - 1) + idx)%nat).
  assert (isNonGround n1 = true → (rowOf n1 < nodeCount - 1)%nat) as H1
    by (by apply row_below).
  assert (isNonGround n2 = true → (rowOf n2 < nodeCount - 1)%nat) as H2
    by (by apply row_below).
  intros Hs.
  destruct (if isNonGround n1 then _ else _) as [A1|] eqn:E1;
    simpl in Hs; [|done].
  destruct (if isNonGround n2 then _ else _) as [A2|] eqn:E2;
    simpl in Hs; [|done].
  destruct (vupd Z v _) as [Z'|] eqn:EZ; simpl in Hs; [|done].
  injection Hs as <-. simpl. split.
  2:{ intros k. by rewrite (vupd_lookup _ _ _ _ k EZ). }
  intros i j Hi.
  assert (mget A1 i j =
            (if bool_decide (i = v) && isNonGround n1
                && bool_decide (j = rowOf n1)
             then λ _, 1 else λ a, a) <$> mget A i j) as HA1.
  { destruct (isNonGround n1) eqn:Hn1.
    2:{ injection E1 as <-. rewrite andb_false_r. simpl.
        by destruct (mget A i j). }
    specialize (H1 eq_refl).
    destruct (mupd A v (rowOf n1) _) as [B|] eqn:EB; simpl in E1; [|done].
    rewrite (mupd_mget _ _ _ _ _ i j E1).
    rewrite bool_decide_eq_false_2 by lia.
    rewrite (mupd_mget _ _ _ _ _ i j EB).
    destruct (decide (i = v)) as [->|Hiv], (decide (j = rowOf n1)) as [->|Hj];
      decide_entries; simpl; by destruct (mget A _ _). }
  assert (mget A2 i j =
            (if bool_decide (i = v) && isNonGround n2
                && bool_decide (j = rowOf n2)
             then λ _, -1 else λ a, a) <$> mget A1 i j) as HA2.
  { destruct (isNonGround n2) eqn:Hn2.
    2:{ injection E2 as <-. rewrite andb_false_r. simpl.
        by destruct (mget A1 i j). }
    specialize (H2 eq_refl).
    destruct (mupd A1 v (rowOf n2) _) as [B|] eqn:EB; simpl in E2; [|done].
    rewrite (mupd_mget _ _ _ _ _ i j E2).
    rewrite bool_decide_eq_false_2 by lia.
    rewrite (mupd_mget _ _ _ _ _ i j EB).
    destruct (decide (i = v)) as [->|Hiv], (decide (j = rowOf n2)) as [->|Hj];
      decide_entries; simpl; by destruct (mget A1 _ _). }
  rewrite HA2, HA1. unfold batteryRow.
  destruct (mget A i j) as [a|]; simpl; [|by repeat case_match].
  destruct (bool_decide (i = v)); simpl; [|done].
  by destruct (isNonGround n2), (bool_decide (j = rowOf n2)),
    (isNonGround n1), (bool_decide (j = rowOf n1)).
Qed.


(** The loop over the voltage sources, from source [idx0] on. *)
Lemma voltageSources_rows (p2n : gmap string nat) nodeCount l : ∀ idx0 s s',
  (∀ i k, p2n !! i = Some k → (k < nodeCount)%nat) →
  foldMi (stampVoltageSource p2n nodeCount) idx0 s l = Some s' →
  (∀ i j, (nodeCount - 1 ≤ i < (nodeCount - 1) + idx0)%nat →
          mget s'.1 i j = mget s.1 i j)
  ∧ (∀ k, (k < (nodeCount - 1) + idx0)%nat → s'.2 !! k = s.2 !! k)
  ∧ ∀ k comp, l !! k = Some comp →
      (∀ j, mget s'.1 ((nodeCount - 1) + (idx0 + k))%nat j =
              batteryRow (p2n !! pt_id (p1 comp)) (p2n !! pt_id (p2 comp)) j
              <$> mget s.1 ((nodeCount - 1) + (idx0 + k))%nat j)
      ∧ s'.2 !! ((nodeCount - 1) + (idx0 + k))%nat =
          (λ _, orNum (voltage (properties comp)) 9)
          <$> s.2 !! ((nodeCount - 1) + (idx0 + k))%nat.
Proof.
  induction l as [|b l IH]; intros idx0 s s' Hb; simpl.
  { intros [= <-]. by split_and!. }
  destruct (stampVoltageSource p2n nodeCount s idx0 b) as [s1|] eqn:Hstep;
    simpl; [|done].
  intros Hrun.
  destruct (stampVoltageSource_rows p2n nodeCount s idx0 b s1 Hb Hstep)
    as [HA1 HZ1].
  destruct (IH (S idx0) s1 s' Hb Hrun) as (HAkeep & HZkeep & Hrows).
  split_and!.
  - intros i j Hi. rewrite HAkeep by lia. rewrite HA1 by lia.
    rewrite bool_decide_eq_false_2 by lia. by destruct (mget s.1 i j).
  - intros k Hk. rewrite HZkeep by lia. rewrite HZ1.
    rewrite bool_decide_eq_false_2 by lia. by destruct (s.2 !! k).
  - intros [|k] comp Hk; simpl in Hk.
    + injection Hk as <-. rewrite Nat.add_0_r. split.
      * intros j. rewrite HAkeep by lia. rewrite HA1 by lia.
        by rewrite bool_decide_eq_true_2.
      * rewrite HZkeep by lia. rewrite HZ1.
        by rewrite bool_decide_eq_true_2.
    + destruct (Hrows k comp Hk) as [HA HZ].
      replace (idx0 + S k)%nat with (S idx0 + k)%nat by lia. split.
      * intros j. rewrite HA. rewrite HA1 by lia.
        rewrite bool_decide_eq_false_2 by lia.
        by destruct (mget s.1 _ j).
      * rewrite HZ, HZ1. rewrite bool_decide_eq_false_2 by lia.
        by destruct (s.2 !! _).
Qed.

(** The rows of the batteries in an assembled system. *)
Lemma assembled_battery_rows (p2n : gmap string nat) nodeCount dt components
    (A : matrix) (Z : vector) idx comp :
  (∀ i k, p2n !! i = Some k → (k < nodeCount)%nat) →
  assemble p2n nodeCount dt components = Some (A, Z) →
  voltageSources components !! idx = Some comp →
  Z !! ((nodeCount - 1) + idx)%nat = Some (orNum (voltage (properties comp)) 9)
  ∧ ∀ j, (j < mSize nodeCount components)%nat →
      mget A ((nodeCount - 1) + idx)%nat j =
        Some (batteryRow (p2n !! pt_id (p1 comp)) (p2n !! pt_id (p2 comp)) j 0).
Proof.
  intros Hb HA Hcomp.
  set (m := mSize nodeCount components).
  set (vIndex := ((nodeCount - 1) + idx)%nat).
  assert (vIndex < m)%nat as Hv.
  { apply lookup_lt_Some in Hcomp. unfold vIndex, m, mSize. lia. }
  unfold assemble in HA. fold m in HA.
  destruct (foldM _ _ components) as [s|] eqn:E1; simpl in HA; [|done].
  apply (foldM_preserves
           (λ s, (∀ i j, (nodeCount - 1 ≤ i ∨ nodeCount - 1 ≤ j)%nat →
                         mget s.1 i j = mget (zeroMatrix m) i j)
                 ∧ ∀ k, (nodeCount - 1 ≤ k)%nat →
                        s.2 !! k = zeroVector m !! k)) in E1.
  2:{ intros s0 c s1 Hstep [H0A H0Z].
      destruct (stampComponent_frame _ _ _ _ _ _ Hb Hstep) as [HfA HfZ].
      split.
      - intros i j Hij. rewrite HfA by done. by apply H0A.
      - intros k Hk. rewrite HfZ by done. by apply H0Z. }
  2:{ by split. }
  destruct E1 as [HsA HsZ].
  destruct (voltageSources_rows _ _ _ 0 s (A, Z) Hb HA) as (_ & _ & Hrows).
  destruct (Hrows idx comp Hcomp) as [HrA HrZ]. simpl in HrA, HrZ.
  fold vIndex in HrA, HrZ. split.
  - rewrite HrZ, HsZ by (unfold vIndex; lia).
    unfold zeroVector. by rewrite lookup_replicate_2.
  - intros j Hj. rewrite HrA, HsA by (unfold vIndex; lia).
    by rewrite zeroMatrix_mget, bool_decide_eq_true_2 by done.
Qed.

(** X20. The row of a battery is its equation.  In the assembled system,
    row [(nodeCount - 1) + idx] of the [idx]-th battery holds [1] in the
    column of the node of its [p1], [-1] in the column of the node of its
    [p2] (a terminal on ground has no column, and a battery with both
    terminals on one node keeps the [-1]), and [0] in every other column;
    the right-hand side of the row is [voltage || 9]. *)
Theorem battery_row_is_its_equation
    (components : list CircuitComponent) (dt : number)
    (idx : nat) (comp : CircuitComponent) :
  let topo := resolveTopology components in
  let n1 := nodeOf topo (pt_id (p1 comp)) in
  let n2 := nodeOf topo (pt_id (p2 comp)) in
  let vIndex := ((nodeCount topo - 1) + idx)%nat in
  voltageSources components !! idx = Some comp →
  ∃ A Z,
    assemble (pointToNode topo) (nodeCount topo) dt components = Some (A, Z)
    ∧ Z !! vIndex = Some (orNum (voltage (properties comp)) 9)
    ∧ ∀ j, (j < mSize (nodeCount topo) components)%nat →
        mget A vIndex j =
          Some (if isNonGround n2 && bool_decide (j = rowOf n2) then -1
                else if isNonGround n1 && bool_decide (j = rowOf n1) then 1
                else 0).
Proof.
  intros topo n1 n2 vIndex Hcomp.
  destruct (pipeline_ok components dt) as (A & Z & x & HA & _).
  fold topo in HA. exists A, Z. split; [done|].
  pose proof (ok_bound _ (resolveTopology_ok components)) as Hb.
  fold topo in Hb.
  destruct (assembled_battery_rows _ _ _ _ _ _ idx comp Hb HA Hcomp)
    as [HZ Hrow].
  split; [exact HZ|].
  intros j Hj. unfold vIndex. rewrite (Hrow j Hj).
  unfold batteryRow. fold n1 n2. by repeat case_match.
Qed.


(** * Assembly, entry by entry *)

Lemma foldM_app {S X : Type} (body : S → X → option S) (l1 l2 : list X) s :
  foldM body s (l1 ++ l2) = s1 ← foldM body s l1; foldM body s1 l2.
Proof.
  revert s. induction l1 as [|a l1 IH]; intros s; simpl; [done|].
  destruct (body s a) as [s'|]; simpl; [apply IH|done].
Qed.

(** A guarded update, as seen from any entry. *)
Lemma guarded_mupd_mget (b : bool) (A A' : matrix) r c f i j :
  (if b then mupd A r c f else Some A) = Some A' →
  mget A' i j =
    (if b && bool_decide (i = r ∧ j = c) then f else λ a, a) <$> mget A i j.
Proof.
  destruct b; simpl.
  - intros H. rewrite (mupd_mget _ _ _ _ _ i j H).
    case_bool_decide as Hij; [by destruct Hij as [-> ->]|].
    by destruct (mget A i j).
  - intros [= <-]. by destruct (mget A i j).
Qed.

Lemma addConductance_entries n1 n2 g (A A' : matrix) i j :
  addConductance n1 n2 g A = Some A' →
  mget A' i j = conducted n1 n2 g i j <$> mget A i j.
Proof.
  unfold addConductance. intros Hadd.
  destruct (if isNonGround n1 then _ else _) as [A1|] eqn:E1;
    simpl in Hadd; [|done].
  destruct (if isNonGround n2 then _ else _) as [A2|] eqn:E2;
    simpl in Hadd; [|done].
  apply (guarded_mupd_mget _ _ _ _ _ _ i j) in E1, E2.
  assert (mget A' i j =
            (if isNonGround n1 && isNonGround n2 then
               λ a2, let a3 := if bool_decide (i = rowOf n1 ∧ j = rowOf n2)
                               then a2 - g else a2 in
                     if bool_decide (i = rowOf n2 ∧ j = rowOf n1)
                     then a3 - g else a3
             else λ a2, a2) <$> mget A2 i j) as ->.
  { destruct (isNonGround n1 && isNonGround n2).
    - destruct (mupd A2 _ _ _) as [A3|] eqn:E3; simpl in Hadd; [|done].
      rewrite (guarded_mupd_mget true _ _ _ _ _ i j Hadd).
      rewrite (guarded_mupd_mget true _ _ _ _ _ i j E3). simpl.
      destruct (mget A2 i j); simpl; [|by repeat case_match].
      by repeat case_bool_decide.
    - injection Hadd as <-. by destruct (mget A2 i j). }
  rewrite E2, E1. unfold conducted.
  by destruct (isNonGround n1), (isNonGround n2),
    (bool_decide (i = rowOf n1 ∧ j = rowOf n1)),
    (bool_decide (i = rowOf n2 ∧ j = rowOf n2)),
    (bool_decide (i = rowOf n1 ∧ j = rowOf n2)),
    (bool_decide (i = rowOf n2 ∧ j = rowOf n1)), (mget A i j).
Qed.

(** One turn of the loop that fills the matrix, as seen from any entry. *)
Lemma stampComponent_entries p2n dt s comp s' :
  stampComponent p2n dt s comp = Some s' →
  (∀ i j, mget s'.1 i j = stampedA p2n dt comp i j <$> mget s.1 i j)
  ∧ ∀ k, s'.2 !! k = stampedZ p2n dt comp k <$> s.2 !! k.
Proof.
  destruct s as [A Z]. unfold stampComponent, stampedA, stampedZ.
  destruct (isType comp BATTERY); simpl.
  { intros [= <-]. simpl. split; intros; [by destruct (mget A _ _)
                                         |by destruct (Z !! _)]. }
  case_bool_decide.
  { intros [= <-]. simpl. split; intros; [by destruct (mget A _ _)
                                         |by destruct (Z !! _)]. }
  destruct (nortonModel comp dt) as [g cur]. unfold stampNorton. simpl.
  destruct (addConductance _ _ g A) as [A'|] eqn:EA; simpl; [|done].
  destruct (strictNe cur 0).
  - destruct (addCurrentSource _ _ cur Z) as [Z'|] eqn:EZ; simpl; [|done].
    intros [= <-]. simpl. split.
    + intros i j. by apply addConductance_entries.
    + intros k. by apply addCurrentSource_entries.
  - intros [= <-]. simpl. split.
    + intros i j. by apply addConductance_entries.
    + intros k. by destruct (Z !! k).
Qed.

(** The loop that fills the matrix, as seen from any entry. *)
Lemma stampComponents_entries p2n dt l : ∀ s s',
  foldM (stampComponent p2n dt) s l = Some s' →
  (∀ i j, mget s'.1 i j
          = stampedAll (λ c, stampedA p2n dt c i j) l <$> mget s.1 i j)
  ∧ ∀ k, s'.2 !! k = stampedAll (λ c, stampedZ p2n dt c k) l <$> s.2 !! k.
Proof.
  unfold stampedAll.
  induction l as [|c l IH]; intros s s'; simpl.
  { intros [= <-]. split; intros; [by destruct (mget s.1 _ _)
                                  |by destruct (s.2 !! _)]. }
  destruct (stampComponent p2n dt s c) as [s1|] eqn:Hstep; simpl; [|done].
  intros Hrun. destruct (IH s1 s' Hrun) as [HA HZ].
  destruct (stampComponent_entries p2n dt s c s1 Hstep) as [HA1 HZ1].
  split.
  - intros i j. rewrite HA, HA1. by destruct (mget s.1 i j).
  - intros k. rewrite HZ, HZ1. by destruct (s.2 !! k).
Qed.

(** The stamps of the batteries stay out of the block of the nodes. *)
Lemma stampVoltageSource_block p2n nodeCount s idx comp s' :
  stampVoltageSource p2n nodeCount s idx comp = Some s' →
  (∀ i j, (i < nodeCount - 1)%nat → (j < nodeCount - 1)%nat →
          mget s'.1 i j = mget s.1 i j)
  ∧ ∀ k, (k < nodeCount - 1)%nat → s'.2 !! k = s.2 !! k.
Proof.
  destruct s as [A Z]. unfold stampVoltageSource, mset, vset. intros Hs.
  destruct (if isNonGround (p2n !! pt_id (p1 comp)) then _ else _)
    as [A1|] eqn:E1; simpl in Hs; [|done].
  destruct (if isNonGround (p2n !! pt_id (p2 comp)) then _ else _)
    as [A2|] eqn:E2; simpl in Hs; [|done].
  destruct (vupd Z _ _) as [Z'|] eqn:EZ; simpl in Hs; [|done].
  injection Hs as <-. simpl. split.
  - intros i j Hi Hj.
    assert (∀ (B B' : matrix) n v,
              (if isNonGround n then
                 B0 ← mupd B ((nodeCount - 1) + idx)%nat (rowOf n) (λ _, v);
                 mupd B0 (rowOf n) ((nodeCount - 1) + idx)%nat (λ _, v)
               else Some B) = Some B' →
              mget B' i j = mget B i j) as Hpair.
    { intros B B' n v HB. destruct (isNonGround n); [|by injection HB as <-].
      destruct (mupd B _ _ _) as [B0|] eqn:EB; simpl in HB; [|done].
      rewrite (mupd_mget _ _ _ _ _ i j HB).
      rewrite bool_decide_eq_false_2 by lia.
      rewrite (mupd_mget _ _ _ _ _ i j EB).
      by rewrite bool_decide_eq_false_2 by lia. }
    rewrite (Hpair _ _ _ _ E2). by rewrite (Hpair _ _ _ _ E1).
  - intros k Hk. rewrite (vupd_lookup _ _ _ _ k EZ).
    rewrite bool_decide_eq_false_2 by lia. by destruct (Z !! k).
Qed.

Lemma voltageSources_block p2n nodeCount l idx0 s s' :
  foldMi (stampVoltageSource p2n nodeCount) idx0 s l = Some s' →
  (∀ i j, (i < nodeCount - 1)%nat → (j < nodeCount - 1)%nat →
          mget s'.1 i j = mget s.1 i j)
  ∧ ∀ k, (k < nodeCount - 1)%nat → s'.2 !! k = s.2 !! k.
Proof.
  intros Hrun.
  apply (foldMi_preserves
           (λ t, (∀ i j, (i < nodeCount - 1)%nat → (j < nodeCount - 1)%nat →
                         mget t.1 i j = mget s.1 i j)
                 ∧ ∀ k, (k < nodeCount - 1)%nat → t.2 !! k = s.2 !! k)) in Hrun;
    [done| |done].
  intros t i a t' Hstep [HA HZ].
  destruct (stampVoltageSource_block _ _ _ _ _ _ Hstep) as [HA' HZ'].
  split.
  - intros ? ? ? ?. rewrite HA' by done. by apply HA.
  - intros ? ?. rewrite HZ' by done. by apply HZ.
Qed.

(** Assembly around the turn of one element: the system [(A0, Z0)] the
    elements before it leave, the system [(A1, Z1)] its own turn leaves, and
    the assembled system, whose node block holds what the later elements
    make of [(A1, Z1)]. *)
Lemma assemble_around p2n nodeCount dt pre comp post (A : matrix) (Z : vector) :
  let components := pre ++ comp :: post in
  let m := mSize nodeCount components in
  assemble p2n nodeCount dt components = Some (A, Z) →
  ∃ A0 Z0 A1 Z1,
    foldM (stampComponent p2n dt) (zeroMatrix m, zeroVector m) pre
      = Some (A0, Z0)
    ∧ stampComponent p2n dt (A0, Z0) comp = Some (A1, Z1)
    ∧ (∀ i j, (i < nodeCount - 1)%nat → (j < nodeCount - 1)%nat →
         mget A0 i j = Some (stampedAll (λ c, stampedA p2n dt c i j) pre 0)
         ∧ mget A i j
           = stampedAll (λ c, stampedA p2n dt c i j) post <$> mget A1 i j)
    ∧ (∀ k, (k < nodeCount - 1)%nat →
         Z0 !! k = Some (stampedAll (λ c, stampedZ p2n dt c k) pre 0)
         ∧ Z !! k = stampedAll (λ c, stampedZ p2n dt c k) post <$> Z1 !! k).
Proof.
  intros components m HA. unfold assemble in HA. fold m in HA.
  destruct (foldM _ _ components) as [s2|] eqn:E; simpl in HA; [|done].
  unfold components in E. rewrite foldM_app in E.
  destruct (foldM _ _ pre) as [[A0 Z0]|] eqn:E0; [|discriminate E].
  change ((s1 ← stampComponent p2n dt (A0, Z0) comp;
           foldM (stampComponent p2n dt) s1 post) = Some s2) in E.
  destruct (stampComponent p2n dt (A0, Z0) comp) as [[A1 Z1]|] eqn:E1;
    [|discriminate E].
  change (foldM (stampComponent p2n dt) (A1, Z1) post = Some s2) in E.
  destruct (stampComponents_entries _ _ _ _ _ E0) as [HA0 HZ0].
  destruct (stampComponents_entries _ _ _ _ _ E) as [HA2 HZ2].
  destruct (voltageSources_block _ _ _ _ _ _ HA) as [HAb HZb].
  simpl in *.
  assert (nodeCount - 1 ≤ m)%nat as Hm by (unfold m, mSize; lia).
  exists A0, Z0, A1, Z1. split_and!; [done..| |].
  - intros i j Hi Hj. split.
    + rewrite HA0, zeroMatrix_mget.
      by rewrite bool_decide_eq_true_2 by lia.
    + rewrite HAb by done. apply HA2.
  - intros k Hk. split.
    + rewrite HZ0. unfold zeroVector.
      by rewrite lookup_replicate_2 by lia.
    + rewrite HZb by done. apply HZ2.
Qed.


(** * The claims about what assembly stamps *)

(** C1. Assembly stamps a Capacitor or Inductor whose terminals resolve to
    distinct nodes as a conductance [G] with a parallel current source [I]:
    [G = C/dt], [I = -G * (prevP1Potential - prevP2Potential)] for a capacitor
    when [dt > 0], and [G = 1/1e9], [I = 0] otherwise; [G = dt/L],
    [I = prevCurrent] for an inductor when [dt > 0], and [G = 1/1e-6],
    [I = 0] otherwise.  [C] and [L] default to [1e-4] and [1] when unset (the
    optional history fields read as [0] when unset, as everywhere in the
    solver).  For an element at any place of any list: at its turn
    [addConductance] puts [G] into the system the elements before it have
    left, and the source, stamped when [I !== 0], subtracts [I] from the
    right-hand-side entry of node [n1] and adds it to that of [n2], ground
    having no entry; and the system that assembly returns holds, in every
    entry of the rows and columns of the nodes, this stamp followed by the
    stamps of the elements after it. *)
Theorem C1_storage_element_stamps
    (pre post : list CircuitComponent) (comp : CircuitComponent) (dt : number) :
  let components := pre ++ comp :: post in
  let topo := resolveTopology components in
  let p2n := pointToNode topo in
  let m := mSize (nodeCount topo) components in
  let n1 := p2n !! pt_id (p1 comp) in
  let n2 := p2n !! pt_id (p2 comp) in
  let C := orNum (capacitance (properties comp)) 0.0001 in
  let L := orNum (inductance (properties comp)) 1 in
  let Vprev := orNum (prevP1Potential comp) 0 - orNum (prevP2Potential comp) 0 in
  let Iprev := orNum (prevCurrent comp) 0 in
  let G := match c_type comp with
           | CAPACITOR => if gt dt 0 then C / dt else 1 / 1e9
           | _ => if gt dt 0 then dt / L else 1 / 1e-6
           end in
  let I := match c_type comp with
           | CAPACITOR => if gt dt 0 then (- G) * Vprev else 0
           | _ => if gt dt 0 then Iprev else 0
           end in
  let source k := if strictNe I 0 then sourced n1 n2 I k else λ z, z in
  c_type comp = CAPACITOR ∨ c_type comp = INDUCTOR →
  n1 ≠ n2 →
  (capacitance (properties comp) = None → C = 0.0001)
  ∧ (inductance (properties comp) = None → L = 1)
  ∧ ∃ A0 Z0 A1 Z1 A Z,
      foldM (stampComponent p2n dt) (zeroMatrix m, zeroVector m) pre
        = Some (A0, Z0)
      ∧ stampComponent p2n dt (A0, Z0) comp = Some (A1, Z1)
      ∧ addConductance n1 n2 G A0 = Some A1
      ∧ (∀ i j, mget A1 i j = conducted n1 n2 G i j <$> mget A0 i j)
      ∧ (∀ k, Z1 !! k = source k <$> Z0 !! k)
      ∧ assemble p2n (nodeCount topo) dt components = Some (A, Z)
      ∧ (∀ i j, (i < nodeCount topo - 1)%nat → (j < nodeCount topo - 1)%nat →
           mget A i j =
             Some (stampedAll (λ c, stampedA p2n dt c i j) post
                     (conducted n1 n2 G i j
                        (stampedAll (λ c, stampedA p2n dt c i j) pre 0))))
      ∧ (∀ k, (k < nodeCount topo - 1)%nat →
           Z !! k =
             Some (stampedAll (λ c, stampedZ p2n dt c k) post
                     (source k
                        (stampedAll (λ c, stampedZ p2n dt c k) pre 0)))).
Proof.
  intros components topo p2n m n1 n2 C L Vprev Iprev G I source Hty Hne.
  split; [intros Hn; unfold C; by rewrite Hn|].
  split; [intros Hn; unfold L; by rewrite Hn|].
  assert (nortonModel comp dt = (G, I)) as Hmodel.
  { subst I G C L Vprev Iprev.
    unfold nortonModel, vOld, INFINITE_RESISTANCE, EPSILON_RESISTANCE.
    destruct Hty as [Hty | Hty]; rewrite Hty; by destruct (gt dt 0). }
  assert (isType comp BATTERY = false) as Hnb.
  { unfold isType. apply bool_decide_eq_false_2. destruct Hty; congruence. }
  destruct (pipeline_ok components dt) as (A & Z & x & HA & _).
  fold topo p2n in HA.
  destruct (assemble_around p2n (nodeCount topo) dt pre comp post A Z HA)
    as (A0 & Z0 & A1 & Z1 & E0 & E1 & HAe & HZe).
  fold components m in E0.
  assert (addConductance n1 n2 G A0 = Some A1
          ∧ ∀ k, Z1 !! k = source k <$> Z0 !! k) as [Hadd Hsrc].
  { pose proof E1 as Hstep. unfold stampComponent in Hstep.
    rewrite Hnb in Hstep. fold n1 n2 in Hstep.
    rewrite (bool_decide_eq_false_2 _ Hne), Hmodel in Hstep.
    unfold stampNorton in Hstep.
    destruct (addConductance n1 n2 G A0) as [A'|]; simpl in Hstep;
      [|discriminate Hstep].
    unfold source. destruct (strictNe I 0).
    - destruct (addCurrentSource n1 n2 I Z0) as [Z'|] eqn:EZ;
        simpl in Hstep; [|discriminate Hstep].
      injection Hstep as <- <-. split; [done|].
      intros k. by apply addCurrentSource_entries.
    - injection Hstep as <- <-. split; [done|].
      intros k. by destruct (Z0 !! k). }
  exists A0, Z0, A1, Z1, A, Z.
  split; [exact E0|]. split; [exact E1|]. split; [exact Hadd|].
  split; [intros i j; by apply addConductance_entries|].
  split; [exact Hsrc|]. split; [exact HA|]. split.
  - intros i j Hi Hj. destruct (HAe i j Hi Hj) as [H0 H1].
    rewrite H1, (addConductance_entries _ _ _ _ _ i j Hadd), H0. done.
  - intros k Hk. destruct (HZe k Hk) as [H0 H1].
    rewrite H1, Hsrc, H0. done.
Qed.

(** C9. Defaults replace every falsy value, not only a missing one.  In the
    system assembly returns for any element list and in the result of
    [solveCircuit]: a Resistor or Lightbulb whose resistance is [0] (or [-0],
    or [NaN]) has the Norton model [(1/10, 0)]; when its terminals are on
    distinct nodes its stamp in the rows and columns of the nodes is that of
    the conductance [1/10], followed by the stamps of the elements after it,
    and it stamps no source; with unique element ids its reported current is
    [(v1 - v2) / 10], [v1] and [v2] being the reported potentials of its
    terminals.  The row of a Battery whose voltage is [0] (or [-0], or
    [NaN]) holds [1] at the node of [p1], [-1] at the node of [p2] and [0]
    elsewhere, and its right-hand side is [9]. *)
Theorem C9_falsy_values_default
    (components : list CircuitComponent) (dt : number) :
  let topo := resolveTopology components in
  let p2n := pointToNode topo in
  let nodes := (nodeCount topo - 1)%nat in
  ∃ A Z x result,
    assemble p2n (nodeCount topo) dt components = Some (A, Z)
    ∧ gaussianElimination A Z = Some x
    ∧ solveCircuit components dt = Some result
    ∧ (∀ pre res post r,
         components = pre ++ res :: post →
         c_type res = RESISTOR ∨ c_type res = LIGHTBULB →
         resistance (properties res) = Some r → truthy r = false →
         let n1 := p2n !! pt_id (p1 res) in
         let n2 := p2n !! pt_id (p2 res) in
         nortonModel res dt = (1 / 10, 0)
         ∧ (n1 ≠ n2 →
            (∀ i j, (i < nodes)%nat → (j < nodes)%nat →
               mget A i j =
                 Some (stampedAll (λ c, stampedA p2n dt c i j) post
                         (conducted n1 n2 (1 / 10) i j
                            (stampedAll (λ c, stampedA p2n dt c i j) pre 0))))
            ∧ ∀ k, (k < nodes)%nat →
                Z !! k =
                  Some (stampedAll (λ c, stampedZ p2n dt c k) post
                          (stampedAll (λ c, stampedZ p2n dt c k) pre 0)))
         ∧ (NoDup (c_id <$> components) →
            ∃ v1 v2,
              pointPotentials result !! pt_id (p1 res) = Some v1
              ∧ pointPotentials result !! pt_id (p2 res) = Some v2
              ∧ componentCurrents result !! c_id res
                = Some ((v1 - v2) / 10)))
    ∧ (∀ idx bat v,
         voltageSources components !! idx = Some bat →
         voltage (properties bat) = Some v → truthy v = false →
         let n1 := p2n !! pt_id (p1 bat) in
         let n2 := p2n !! pt_id (p2 bat) in
         Z !! (nodes + idx)%nat = Some 9
         ∧ ∀ j, (j < mSize (nodeCount topo) components)%nat →
             mget A (nodes + idx)%nat j =
               Some (if isNonGround n2 && bool_decide (j = rowOf n2) then -1
                     else if isNonGround n1 && bool_decide (j = rowOf n1)
                          then 1
                     else 0)).
Proof.
  intros topo p2n nodes.
  destruct (pipeline_ok components dt)
    as (A & Z & x & HA & Hs & Hx & Hlen & Hsolve).
  fold topo p2n in HA, Hsolve.
  pose proof (ok_bound _ (resolveTopology_ok components)) as Hb.
  fold topo p2n in Hb.
  eexists A, Z, x, _. split; [exact HA|]. split; [exact Hx|].
  split; [exact Hsolve|]. split.
  - intros pre res post r Hsplit Hty Hres Hr n1 n2.
    assert (orNum (resistance (properties res)) 10 = 10) as Hten.
    { rewrite Hres. simpl. by rewrite Hr. }
    assert (nortonModel res dt = (1 / 10, 0)) as Hmodel.
    { unfold nortonModel. destruct Hty as [-> | ->]; by rewrite Hten. }
    assert (isType res BATTERY = false) as Hnb.
    { unfold isType. apply bool_decide_eq_false_2. destruct Hty; congruence. }
    assert (res ∈ components) as Hin.
    { rewrite Hsplit. apply elem_of_app. right. by left. }
    split; [exact Hmodel|]. split.
    + intros Hne.
      assert (assemble p2n (nodeCount topo) dt (pre ++ res :: post)
              = Some (A, Z)) as HA' by (by rewrite <- Hsplit).
      destruct (assemble_around p2n (nodeCount topo) dt pre res post A Z HA')
        as (A0 & Z0 & A1 & Z1 & E0 & E1 & HAe & HZe).
      destruct (stampComponent_entries _ _ _ _ _ E1) as [HA1 HZ1].
      simpl in HA1, HZ1.
      assert (∀ i j a, stampedA p2n dt res i j a
                       = conducted n1 n2 (1 / 10) i j a) as HsA.
      { intros i j a. unfold stampedA. fold n1 n2.
        by rewrite Hnb, (bool_decide_eq_false_2 _ Hne), Hmodel. }
      assert (∀ k z, stampedZ p2n dt res k z = z) as HsZ.
      { intros k z. unfold stampedZ. fold n1 n2.
        by rewrite Hnb, (bool_decide_eq_false_2 _ Hne), Hmodel. }
      split.
      * intros i j Hi Hj. destruct (HAe i j Hi Hj) as [H0 H1].
        rewrite H1, HA1, H0. simpl. by rewrite HsA.
      * intros k Hk. destruct (HZe k Hk) as [H0 H1].
        rewrite H1, HZ1, H0. simpl. by rewrite HsZ.
    + intros Hnd.
      assert (nodeCount topo ≠ 0%nat) as Hnz.
      { unfold topo. rewrite nodeCount_zero. intros Hnil.
        rewrite Hnil in Hin. by apply elem_of_nil in Hin. }
      rewrite (bool_decide_eq_false_2 _ Hnz).
      set (np := nodePotentialsOf (nodeCount topo) x).
      destruct (pointPotentials_lookup p2n np components res Hin)
        as [Hv1 Hv2].
      eexists _, _. split; [exact Hv1|]. split; [exact Hv2|].
      simpl. apply componentCurrents_lookup; [done..|].
      unfold elementCurrent, effectiveResistance.
      destruct Hty as [Hty | Hty]; rewrite Hty; by rewrite Hten.
  - intros idx bat v Hbat Hv Hfalsy n1 n2.
    destruct (assembled_battery_rows _ _ _ _ _ _ idx bat Hb HA Hbat)
      as [HZ Hrow].
    fold nodes in HZ, Hrow. split.
    + rewrite HZ, Hv. simpl. by rewrite Hfalsy.
    + intros j Hj. rewrite (Hrow j Hj). unfold batteryRow. fold n1 n2.
      by repeat case_match.
Qed.


End Solver.

(** * The solver at work on concrete circuits *)

(** A textbook [Math.hypot], to run the solver. *)
Definition hypotSqrt (x y : number) : number := PrimFloat.sqrt (x * x + y * y).

Definition defaultProperties : Properties :=
  mkProperties (Some 10) (Some 9) (Some false) (Some 0.001) (Some 1).

(** An element as [createComp] of [App.tsx] builds it. *)
Definition createComp (id : string) (type : ComponentType)
    (x1 y1 x2 y2 : number) (props : Properties) : CircuitComponent :=
  mkComponent id type (mkPoint x1 y1 (id +:+ "-p1")) (mkPoint x2 y2 (id +:+ "-p2"))
              props 0 0 0 0 (Some 0) (Some 0) (Some 0).

(** A charged capacitor between node 1 and ground. *)
Definition chargedCapacitor : CircuitComponent :=
  mkComponent "c" CAPACITOR (mkPoint 0 0 "c-p1") (mkPoint 0 100 "c-p2")
              defaultProperties 0 0 0 0 (Some 0) (Some 5) (Some 0).

Lemma C1_witness :
  let topo := resolveTopology hypotSqrt [chargedCapacitor] in
  ∃ A Z,
    assemble (pointToNode topo) (nodeCount topo) 0.05 [chargedCapacitor]
      = Some (A, Z)
    ∧ A = [[0 + 0.001 / 0.05]]
    ∧ Z = [0 + (- (0.001 / 0.05)) * (5 - 0)].
Proof.
  destruct (C1_storage_element_stamps hypotSqrt [] [] chargedCapacitor 0.05)
    as (_ & _ & A0 & Z0 & A1 & Z1 & A & Z & _ & _ & _ & _ & _ & HA & _).
  - left. reflexivity.
  - vm_compute. discriminate.
  - exists A, Z. split; [exact HA|].
    vm_compute in HA. injection HA as <- <-. split; reflexivity.
Defined.

(** A chain of terminals 8 units apart: [a] at 0, [b] at 8, [c] at 16. *)
Definition chain : list CircuitComponent :=
  [ mkComponent "w1" WIRE (mkPoint 0 0 "a") (mkPoint 8 0 "b")
                defaultProperties 0 0 0 0 None None None;
    mkComponent "w2" WIRE (mkPoint 16 0 "c") (mkPoint 100 0 "d")
                defaultProperties 0 0 0 0 None None None ].

Lemma C3_witness :
  let topo := resolveTopology hypotSqrt chain in
  nodeOf topo "b" = nodeOf topo "a" ∧ nodeOf topo "c" ≠ nodeOf topo "a".
Proof.
  split; [reflexivity|].
  destruct (C3_representative_clustering hypotSqrt chain 0 2
              (mkTerminalRef "a" 0 0 "w1") (mkTerminalRef "c" 16 0 "w2"))
    as (_ & _ & Hchain).
  - apply (bool_decide_unpack _). vm_compute. exact I.
  - lia.
  - reflexivity.
  - reflexivity.
  - intros h b Hh. lia.
  - apply (Hchain 1%nat (mkTerminalRef "b" 8 0 "w1")); reflexivity.
Defined.

Lemma C4_witness :
  ∃ result, gaussianElimination [[0; 0]; [0; 0]] [1; 2] = Some result
            ∧ result = [0; 0].
Proof.
  destruct (C4_elimination_tolerates_singular [[0; 0]; [0; 0]] [1; 2])
    as (_ & M & x & result & _ & _ & Hsolve & _).
  - split; [reflexivity | repeat constructor].
  - reflexivity.
  - exists result. split; [exact Hsolve|].
    vm_compute in Hsolve. by injection Hsolve as <-.
Defined.

(** A battery, a resistor and a wire in a loop. *)
Definition loopCircuit : list CircuitComponent :=
  [ createComp "b" BATTERY 100 300 100 100 defaultProperties;
    createComp "r" RESISTOR 100 100 400 100 defaultProperties;
    createComp "w" WIRE 400 100 100 300 defaultProperties ].

Lemma C5_witness :
  ∃ r v1 v2,
    solveCircuit hypotSqrt loopCircuit 0.05 = Some r
    ∧ pointPotentials r !! "r-p1" = Some v1
    ∧ pointPotentials r !! "r-p2" = Some v2
    ∧ componentCurrents r !! "r" = Some ((v1 - v2) / 10).
Proof.
  destruct (C5_element_currents hypotSqrt loopCircuit 0.05
              (createComp "r" RESISTOR 100 100 400 100 defaultProperties))
    as (A & Z & x & r & v1 & v2 & _ & _ & Hr & H1 & H2 & Hcur).
  - apply (bool_decide_unpack _). vm_compute. exact I.
  - apply list_elem_of_lookup. by exists 1%nat.
  - exists r, v1, v2. split_and!; [exact Hr | exact H1 | exact H2 | exact Hcur].
Defined.

(** A wire whose two terminals lie in the same node. *)
Definition shortedWire : CircuitComponent :=
  mkComponent "w" WIRE (mkPoint 0 0 "w-p1") (mkPoint 3 4 "w-p2")
              defaultProperties 0 0 0 0 None None None.

Lemma C8_witness :
  stampComponent {[ "w-p1" := 1%nat; "w-p2" := 1%nat ]} 0.05
                 ([[0]], [0]) shortedWire = Some ([[0]], [0]).
Proof.
  destruct (C8_self_loop_skipped {[ "w-p1" := 1%nat; "w-p2" := 1%nat ]} 0.05
              ([[0]], [0]) [] [] shortedWire) as [Hskip _].
  - discriminate.
  - reflexivity.
  - exact Hskip.
Defined.

(** A resistor between ground and node 1, and a battery with both terminals
    on node 1. *)
Definition shortedBattery : list CircuitComponent :=
  [ createComp "r" RESISTOR 0 0 100 0 defaultProperties;
    createComp "b" BATTERY 100 0 103 4 defaultProperties ].

(** C8 as stated fails for a Battery: the battery of [shortedBattery] has
    both terminals on node 1, yet it owns an unknown (the system has one more
    than without it) and its step, far from leaving the system [s0] that the
    resistor produced, writes [-1] into [A] and [9] into [Z]. *)
Lemma C8_counterexample :
  let topo := resolveTopology hypotSqrt shortedBattery in
  let b := createComp "b" BATTERY 100 0 103 4 defaultProperties in
  let s0 := ([[0.1; 0]; [0; 0]], [0; 0]) in
  pointToNode topo !! pt_id (p1 b) = pointToNode topo !! pt_id (p2 b)
  ∧ mSize (nodeCount topo) shortedBattery
    = S (mSize (nodeCount topo)
               [createComp "r" RESISTOR 0 0 100 0 defaultProperties])
  ∧ foldM (stampComponent (pointToNode topo) 0.05)
          (zeroMatrix 2, zeroVector 2) shortedBattery = Some s0
  ∧ stampVoltageSource (pointToNode topo) (nodeCount topo) s0 0 b
    = Some ([[0.1; -1]; [-1; 0]], [0; 9])
  ∧ stampVoltageSource (pointToNode topo) (nodeCount topo) s0 0 b ≠ Some s0
  ∧ assemble (pointToNode topo) (nodeCount topo) 0.05 shortedBattery
    = Some ([[0.1; -1]; [-1; 0]], [0; 9]).
Proof.
  split_and!; try (vm_compute; reflexivity).
  intros Hsame.
  apply (f_equal (λ o, match o with
                       | Some (_, [_; z]) => PrimFloat.eqb z 0
                       | _ => true
                       end)) in Hsame.
  vm_compute in Hsame. discriminate.
Qed.

Definition zeroResistor : CircuitComponent :=
  createComp "r" RESISTOR 0 0 100 0
    (mkProperties (Some 0) (Some 9) (Some false) (Some 0.001) (Some 1)).

Definition zeroBattery : CircuitComponent :=
  createComp "b" BATTERY 0 0 100 0
    (mkProperties (Some 10) (Some 0) (Some false) (Some 0.001) (Some 1)).

(** A battery of voltage [0] across a resistor of resistance [0]. *)
Definition zeroLoop : list CircuitComponent := [zeroBattery; zeroResistor].

Lemma C9_witness :
  let topo := resolveTopology hypotSqrt zeroLoop in
  ∃ A Z result,
    assemble (pointToNode topo) (nodeCount topo) 0.05 zeroLoop = Some (A, Z)
    ∧ solveCircuit hypotSqrt zeroLoop 0.05 = Some result
    ∧ mget A 0%nat 0%nat = Some (0 + 1 / 10)
    ∧ Z !! 1%nat = Some 9
    ∧ ∃ v1 v2,
        pointPotentials result !! "r-p1" = Some v1
        ∧ pointPotentials result !! "r-p2" = Some v2
        ∧ componentCurrents result !! "r" = Some ((v1 - v2) / 10).
Proof.
  destruct (C9_falsy_values_default hypotSqrt zeroLoop 0.05)
    as (A & Z & x & result & HA & _ & Hsolve & Hres & Hbat).
  destruct (Hres [zeroBattery] zeroResistor [] 0)
    as (_ & Hstamp & Hcur);
    [reflexivity | left; reflexivity | reflexivity | reflexivity |].
  destruct Hstamp as [HAe _]; [vm_compute; discriminate|].
  destruct (Hbat 0%nat zeroBattery 0) as [HZ _];
    [reflexivity | reflexivity | reflexivity |].
  destruct Hcur as (v1 & v2 & H1 & H2 & Hc).
  { apply (bool_decide_unpack _). vm_compute. exact I. }
  exists A, Z, result. split; [exact HA|]. split; [exact Hsolve|]. split.
  - rewrite (HAe 0%nat 0%nat) by (vm_compute; lia). vm_compute. reflexivity.
  - split; [exact HZ|]. exists v1, v2.
    split; [exact H1|]. split; [exact H2 | exact Hc].
Defined.

(** The loop circuit after one committed run. *)
Definition settledLoop : list CircuitComponent :=
  Eval vm_compute in
    match tick hypotSqrt loopCircuit with
    | Some (comps, _) => comps
    | None => []
    end.

(** It is converged: further runs recompute the stored currents and voltage
    drops and commit nothing. *)
Example converged_loop :
  tick hypotSqrt loopCircuit = Some (settledLoop, true)
  ∧ run hypotSqrt 2 settledLoop = Some (settledLoop, [false; false]).
Proof. split; vm_compute; reflexivity. Qed.

(** A heap holding a one-element list: the array at [1], a wire at [2], its
    points at [3] and [4], its property bag at [5]. *)
Definition wireHeap : heap :=
  {[ 1%positive := OComponents [2%positive];
     2%positive := OComponent
                     (mkComponentObject "w" WIRE 3 4 5 0 0 0 0 None None None);
     3%positive := OPoint (mkPoint 0 0 "w-p1");
     4%positive := OPoint (mkPoint 100 0 "w-p2");
     5%positive := OProperties defaultProperties ]}.

Lemma C10_witness :
  ∃ pp cc h',
    solveCircuitH hypotSqrt 1 0.05 wireHeap = Some ((pp, cc), h')
    ∧ ∀ l, l ∈ dom wireHeap → h' !! l = wireHeap !! l.
Proof.
  destruct (C10_input_untouched hypotSqrt wireHeap 1 0.05
              [mkComponent "w" WIRE (mkPoint 0 0 "w-p1") (mkPoint 100 0 "w-p2")
                 defaultProperties 0 0 0 0 None None None])
    as (pp & cc & h' & r & Hrun & Hframe & _).
  - vm_compute. reflexivity.
  - exists pp, cc, h'. split; [exact Hrun | exact Hframe].
Defined.

(** ** The further properties at work *)

Lemma colocated_terminals_connected_witness :
  ∃ r, solveCircuit hypotSqrt loopCircuit 0.05 = Some r
       ∧ nodeOf (resolveTopology hypotSqrt loopCircuit) "b-p2"
         = nodeOf (resolveTopology hypotSqrt loopCircuit) "r-p1"
       ∧ pointPotentials r !! "b-p2" = pointPotentials r !! "r-p1".
Proof.
  apply (colocated_terminals_connected hypotSqrt loopCircuit 0.05 1 2
           (mkTerminalRef "b-p2" 100 100 "b")
           (mkTerminalRef "r-p1" 100 100 "r")).
  - apply (bool_decide_unpack _). vm_compute. exact I.
  - reflexivity.
  - reflexivity.
  - reflexivity.
  - reflexivity.
  - vm_compute. reflexivity.
Defined.

Lemma terminal_potential_is_node_unknown_witness :
  ∃ r n, solveCircuit hypotSqrt loopCircuit 0.05 = Some r
         ∧ nodeOf (resolveTopology hypotSqrt loopCircuit) "r-p2" = Some n.
Proof.
  destruct (terminal_potential_is_node_unknown hypotSqrt loopCircuit 0.05
              "r-p2")
    as (A & Z & x & r & n & _ & _ & Hr & Hn & _).
  - apply (bool_decide_unpack _). vm_compute. exact I.
  - exists r, n. split; [exact Hr | exact Hn].
Defined.

Lemma exchange_brings_largest_pivot_witness :
  ∃ M1 x1, exchange 2 ([[1; 2]; [3; 4]], [5; 6]) 0 = Some (M1, x1)
           ∧ M1 = [[3; 4]; [1; 2]] ∧ x1 = [6; 5].
Proof.
  destruct (exchange_brings_largest_pivot 2 [[1; 2]; [3; 4]] [5; 6] 0)
    as (maxRow & M1 & x1 & d & Hex & _).
  - split; [split; [reflexivity | repeat constructor] | reflexivity].
  - lia.
  - exists M1, x1. split; [exact Hex|].
    vm_compute in Hex. injection Hex as <- <-. split; reflexivity.
Defined.

Lemma elimination_result_solves_rows_witness :
  ∃ result, gaussianElimination [[2; 0]; [0; 4]] [6; 8] = Some result
            ∧ result = [3; 2].
Proof.
  destruct (elimination_result_solves_rows 2 [[2; 0]; [0; 4]] [6; 8])
    as (M & x & result & _ & Hsolve & _).
  - split; [split; [reflexivity | repeat constructor] | reflexivity].
  - lia.
  - exists result. split; [exact Hsolve|].
    vm_compute in Hsolve. by injection Hsolve as <-.
Defined.

Lemma solver_reads_only_inputs_witness :
  solveCircuit hypotSqrt settledLoop 0.05
  = solveCircuit hypotSqrt loopCircuit 0.05.
Proof.
  apply solver_reads_only_inputs.
  repeat (constructor;
          [repeat split; try reflexivity; intros H; vm_compute in H;
           discriminate H|]).
  constructor.
Defined.

Lemma static_circuit_settles_in_one_run_witness :
  ∃ nextComps,
    nextComponents hypotSqrt loopCircuit = Some nextComps
    ∧ nextComponents hypotSqrt nextComps = Some nextComps
    ∧ run hypotSqrt 3 loopCircuit =
        Some (if hasChanged nextComps loopCircuit
              then (nextComps, [true; false; false])
              else (loopCircuit, [false; false; false])).
Proof.
  apply (static_circuit_settles_in_one_run hypotSqrt loopCircuit 2).
  repeat constructor; discriminate.
Defined.

Lemma editing_keeps_ids_unique_witness :
  NoDup (t_id <$> pointsOf loopCircuit)
  ∧ wellNamed (handleDelete "r" loopCircuit).
Proof.
  destruct (editing_keeps_ids_unique hypotSqrt loopCircuit)
    as (Hnd & _ & Hdel & _).
  - split; [|repeat constructor].
    apply (bool_decide_unpack _). vm_compute. exact I.
  - split; [exact Hnd | apply Hdel].
Defined.

Lemma delete_undoes_add_witness :
  handleDelete "x" (handleAddComponent "x" SWITCH loopCircuit loopCircuit)
  = loopCircuit.
Proof.
  destruct (delete_undoes_add "x" SWITCH loopCircuit loopCircuit) as [H _].
  - apply (bool_decide_unpack _). vm_compute. exact I.
  - exact H.
Defined.

Lemma press_release_clicks_and_drag_is_local_witness :
  ∃ d, handleMouseDown (150, 100) "r" None loopCircuit None = Some d
       ∧ drag_hasMoved d = false.
Proof.
  destruct (press_release_clicks_and_drag_is_local hypotSqrt (150, 100) "r"
              loopCircuit None 1
              (createComp "r" RESISTOR 100 100 400 100 defaultProperties))
    as (d & Hd & Hm & _).
  - vm_compute. reflexivity.
  - exists d. split; [exact Hd | exact Hm].
Defined.

(** The loop with the resistor's first handle released a few units off the
    battery's second terminal. *)
Definition releasedLoop : list CircuitComponent :=
  [ createComp "b" BATTERY 100 300 100 100 defaultProperties;
    createComp "r" RESISTOR 105 103 400 100 defaultProperties;
    createComp "w" WIRE 400 100 100 300 defaultProperties ].

Definition handleDrag : DragState :=
  mkDragState HANDLE "r" (Some P1) 0 0
              (mkPoint 100 100 "r-p1") (mkPoint 400 100 "r-p2") true.

Lemma snapped_handle_is_connected_witness :
  ∃ dropped,
    snapComponents hypotSqrt handleDrag releasedLoop releasedLoop !! 1%nat
      = Some dropped
    ∧ c_id dropped = "r".
Proof.
  destruct (snapped_handle_is_connected hypotSqrt handleDrag
              releasedLoop releasedLoop 1
              (createComp "r" RESISTOR 105 103 400 100 defaultProperties))
    as (dropped & Hd & Hid & _).
  - vm_compute. reflexivity.
  - apply (bool_decide_unpack _). vm_compute. exact I.
  - apply list.Forall_forall. apply (bool_decide_unpack _).
    vm_compute. exact I.
  - exists dropped. split; [exact Hd | exact Hid].
Defined.

Lemma battery_row_is_its_equation_witness :
  let topo := resolveTopology hypotSqrt loopCircuit in
  ∃ A Z,
    assemble (pointToNode topo) (nodeCount topo) 0.05 loopCircuit = Some (A, Z)
    ∧ Z !! 2%nat = Some 9.
Proof.
  destruct (battery_row_is_its_equation hypotSqrt loopCircuit 0.05 0
              (createComp "b" BATTERY 100 300 100 100 defaultProperties))
    as (A & Z & HA & HZ & _).
  - reflexivity.
  - exists A, Z. split; [exact HA | exact HZ].
Defined.
